(** * Legato Data Hub: resource tree, I/O service and type coercion

    A shallow embedding of the parts of the Data Hub that its I/O facade
    exercises:

    - [ioPoint.c] (type coercion of pushed samples),
    - [resTree.c] (entries, child lookup, path resolution, deletion),
    - [ioService.c] (the client-facing I/O API).

    C pointers to tree entries become keys of a finite map (the heap of
    [Entry_t] objects); a NULL pointer is [None].  Doubles are Rocq's
    primitive binary64 floats, so that [value != 0] and [NAN] mean what they
    mean in C.  Functions that may hit [LE_ASSERT] or [LE_FATAL] return
    [option]: [None] is the abort of the process. *)

From Stdlib Require Import Floats.PrimFloat Ascii.
From stdpp Require Import gmap strings list.

Open Scope string_scope.
Open Scope list_scope.
Open Scope nat_scope.

(** ** Interface types ([io.api], [admin.api], [le_result_t]) *)

(** [ENUM DataType] of [io.api]. *)
Inductive io_DataType_t : Set :=
  | IO_DATA_TYPE_TRIGGER
  | IO_DATA_TYPE_BOOLEAN
  | IO_DATA_TYPE_NUMERIC
  | IO_DATA_TYPE_STRING
  | IO_DATA_TYPE_JSON.

#[global] Instance io_DataType_eq_dec : EqDecision io_DataType_t.
Proof. solve_decision. Defined.

Definition all_data_types : list io_DataType_t :=
  [IO_DATA_TYPE_TRIGGER; IO_DATA_TYPE_BOOLEAN; IO_DATA_TYPE_NUMERIC;
   IO_DATA_TYPE_STRING; IO_DATA_TYPE_JSON].

(** The kinds of resource tree entry ([admin_EntryType_t]). *)
Inductive admin_EntryType_t : Set :=
  | ADMIN_ENTRY_TYPE_NONE
  | ADMIN_ENTRY_TYPE_NAMESPACE
  | ADMIN_ENTRY_TYPE_PLACEHOLDER
  | ADMIN_ENTRY_TYPE_INPUT
  | ADMIN_ENTRY_TYPE_OUTPUT
  | ADMIN_ENTRY_TYPE_OBSERVATION.

#[global] Instance admin_EntryType_eq_dec : EqDecision admin_EntryType_t.
Proof. solve_decision. Defined.

Inductive admin_ResourceOperationType_t : Set :=
  | ADMIN_RESOURCE_ADDED
  | ADMIN_RESOURCE_REMOVED.

(** The result codes the Data Hub interfaces use. *)
Inductive le_result_t : Set :=
  | LE_OK
  | LE_NOT_FOUND
  | LE_UNAVAILABLE
  | LE_DUPLICATE
  | LE_BAD_PARAMETER
  | LE_NO_MEMORY
  | LE_OVERFLOW
  | LE_IN_PROGRESS
  | LE_NOT_PERMITTED
  | LE_FORMAT_ERROR
  | LE_FAULT.

#[global] Instance le_result_eq_dec : EqDecision le_result_t.
Proof. solve_decision. Defined.

(** [DEFINE NOW = 0] of [io.api]. *)
Definition IO_NOW : float := 0%float.

(** [DEFINE MAX_STRING_VALUE_LEN = 1023] of [io.api]. *)
Definition IO_MAX_STRING_VALUE_LEN : nat := 1023.

(** Modelled from the spec: [dataHub.h] is not among the sources; a string
    value holds at most 1023 bytes, so its buffers have one more byte for the
    terminator. *)
Definition HUB_MAX_STRING_BYTES : nat := S IO_MAX_STRING_VALUE_LEN.

(** [DEFINE MAX_RESOURCE_PATH_LEN = 79] of [io.api]. *)
Definition IO_MAX_RESOURCE_PATH_LEN : nat := 79.

(** Modelled from the spec: [dataHub.h] is not among the sources; a path
    holds at most 79 bytes, so its buffers have one more byte for the
    terminator. *)
Definition HUB_MAX_RESOURCE_PATH_BYTES : nat := S IO_MAX_RESOURCE_PATH_LEN.

(** ** External collaborators *)

(** The JSON utility ([json.h]) and the C library's [%lf] formatting are
    outside the Data Hub core; the embedding is parametric in them. *)
Class Collaborators := {
  json_IsValid : string → bool;
  json_ConvertToBoolean : string → bool;
  json_ConvertToNumber : string → float;
  (** the text [snprintf] produces for ["%lf"] *)
  format_lf : float → string;
  (** [sizeof(char * )] on the target: 4 or 8 *)
  sizeof_ptr : nat;
}.

(** ** Data samples *)

(** Modelled from the spec: [dataSample.c] is not among the sources.  A sample
    is a timestamp and one of the five kinds of value.  The C object does not
    record which member of its union is live (the data type travels next to
    the sample); here the constructor records it, so that "the sample has the
    declared type" can be stated. *)
Inductive SampleValue : Set :=
  | ValTrigger
  | ValBoolean (b : bool)
  | ValNumeric (v : float)
  | ValString (s : string)
  | ValJson (s : string).

Record DataSample : Set := mkSample {
  timestamp : float;
  value : SampleValue;
}.

Definition sample_type (s : DataSample) : io_DataType_t :=
  match value s with
  | ValTrigger => IO_DATA_TYPE_TRIGGER
  | ValBoolean _ => IO_DATA_TYPE_BOOLEAN
  | ValNumeric _ => IO_DATA_TYPE_NUMERIC
  | ValString _ => IO_DATA_TYPE_STRING
  | ValJson _ => IO_DATA_TYPE_JSON
  end.

(** Modelled from the spec: "Timestamp 0 on push means now".  The facade hands
    the client's timestamp to the factories unchanged, so the substitution
    happens when the sample object is made; [now] is the clock reading. *)
Definition CreateSample (alloc : bool) (now ts : float) (v : SampleValue)
  : option DataSample :=
  if alloc
  then Some (mkSample (if PrimFloat.eqb ts IO_NOW then now else ts) v)
  else None.

(** The factories of [dataSample.h]: a new sample, or NULL when the pool has
    no block left ([alloc] is the outcome of [hub_MemAlloc]). *)
Definition dataSample_CreateTrigger alloc now ts :=
  CreateSample alloc now ts ValTrigger.
Definition dataSample_CreateBoolean alloc now ts (b : bool) :=
  CreateSample alloc now ts (ValBoolean b).
Definition dataSample_CreateNumeric alloc now ts (v : float) :=
  CreateSample alloc now ts (ValNumeric v).
Definition dataSample_CreateString alloc now ts (s : string) :=
  CreateSample alloc now ts (ValString s).
Definition dataSample_CreateJson alloc now ts (s : string) :=
  CreateSample alloc now ts (ValJson s).

Definition dataSample_GetTimestamp (s : DataSample) : float := timestamp s.

(** The typed getters.  "You had better be sure" of the type: on a sample of
    another kind the C code reads the wrong union member; the model returns a
    fixed value there. *)
Definition dataSample_GetBoolean (s : DataSample) : bool :=
  match value s with ValBoolean b => b | _ => false end.
Definition dataSample_GetNumeric (s : DataSample) : float :=
  match value s with ValNumeric v => v | _ => nan end.
Definition dataSample_GetString (s : DataSample) : string :=
  match value s with ValString t | ValJson t => t | _ => "" end.
Definition dataSample_GetJson (s : DataSample) : string :=
  match value s with ValJson t | ValString t => t | _ => "" end.

(** ** C character buffers *)

Definition NUL : ascii := Ascii.zero.
(** The double quote, byte 34. *)
Definition DQUOTE : ascii :=
  Ascii false true false false false true false false.

(** The C string held by a buffer: its bytes up to the first NUL. *)
Fixpoint cstr (buf : list ascii) : list ascii :=
  match buf with
  | [] => []
  | c :: rest => if decide (c = NUL) then [] else c :: cstr rest
  end.

(** [snprintf(buf, size, ...)] where the formatted text is [text]: at most
    [size - 1] bytes and a terminator are stored, and the length the whole
    text would have needed is returned. *)
Definition snprintf (buf : list ascii) (size : nat) (text : list ascii)
  : list ascii * nat :=
  match size with
  | 0 => (buf, length text)
  | S room =>
      let written := take room text ++ [NUL] in
      (written ++ drop (length written) buf, length text)
  end.

(** A fresh [char newValue[HUB_MAX_STRING_BYTES]].  Its bytes are arbitrary
    in C; every path below stores a terminator before it reads. *)
Definition new_buffer : list ascii := replicate HUB_MAX_STRING_BYTES NUL.

Definition chars (s : string) : list ascii := String.list_ascii_of_string s.
Definition text_of (l : list ascii) : string := String.string_of_list_ascii l.

(** ** Resources *)

(** A pointer to a resource tree entry.  An entry never moves and has one
    parent for its whole life, so the model names an entry by the entry names
    on the way from it up to the root: its own name first, the root being the
    empty list.  The [name] and [parentPtr] members of [Entry_t] are read off
    the reference. *)
Abbreviation EntryRef := (list string).

(** A registered push callback ([handler.h]): the function and context
    pointers are identified by [handlerRef]; [handlerType] is the data type
    the callback was registered for. *)
Record Handler : Set := mkHandler {
  handlerRef : nat;
  handlerType : io_DataType_t;
}.

(** Modelled from the spec: [resource.h] is not among the sources.  The
    resource body of the data model, with the Input/Output tail of
    [IoResource_t] ([dataType], [isMandatory]) stored inline instead of being
    reached through [CONTAINER_OF].  A resource is owned by one entry, so the
    source link names the entry of the upstream resource. *)
Record res_Resource_t : Set := mkResource {
  units : string;
  dataType : io_DataType_t;
  isMandatory : bool;
  currentValue : option DataSample;
  pushedValue : option (io_DataType_t * DataSample);
  defaultValue : option (io_DataType_t * DataSample);
  overrideValue : option (io_DataType_t * DataSample);
  srcPtr : option EntryRef;
  pushHandlerList : list Handler;
}.

Definition set_currentValue (r : res_Resource_t) (v : option DataSample) :=
  mkResource (units r) (dataType r) (isMandatory r) v (pushedValue r)
    (defaultValue r) (overrideValue r) (srcPtr r) (pushHandlerList r).
Definition set_pushedValue (r : res_Resource_t) v :=
  mkResource (units r) (dataType r) (isMandatory r) (currentValue r) v
    (defaultValue r) (overrideValue r) (srcPtr r) (pushHandlerList r).
Definition set_defaultValue (r : res_Resource_t) v :=
  mkResource (units r) (dataType r) (isMandatory r) (currentValue r)
    (pushedValue r) v (overrideValue r) (srcPtr r) (pushHandlerList r).
Definition set_srcPtr (r : res_Resource_t) v :=
  mkResource (units r) (dataType r) (isMandatory r) (currentValue r)
    (pushedValue r) (defaultValue r) (overrideValue r) v (pushHandlerList r).
Definition set_pushHandlerList (r : res_Resource_t) v :=
  mkResource (units r) (dataType r) (isMandatory r) (currentValue r)
    (pushedValue r) (defaultValue r) (overrideValue r) (srcPtr r) v.
Definition set_isMandatory (r : res_Resource_t) v :=
  mkResource (units r) (dataType r) v (currentValue r)
    (pushedValue r) (defaultValue r) (overrideValue r) (srcPtr r)
    (pushHandlerList r).

Definition set_units (r : res_Resource_t) v :=
  mkResource v (dataType r) (isMandatory r) (currentValue r)
    (pushedValue r) (defaultValue r) (overrideValue r) (srcPtr r)
    (pushHandlerList r).

Definition set_dataType (r : res_Resource_t) v :=
  mkResource (units r) v (isMandatory r) (currentValue r)
    (pushedValue r) (defaultValue r) (overrideValue r) (srcPtr r)
    (pushHandlerList r).

(** [Create] of [ioPoint.c]: a fresh Input/Output body ([res_Construct]
    leaves the base part empty). *)
Definition Create (ty : io_DataType_t) : res_Resource_t :=
  mkResource "" ty false None None None None None [].

Definition ioPoint_CreateInput (ty : io_DataType_t) := Create ty.

(** By default, all outputs are mandatory. *)
Definition ioPoint_CreateOutput (ty : io_DataType_t) :=
  set_isMandatory (Create ty) true.

Definition ioPoint_GetDataType (resPtr : res_Resource_t) := dataType resPtr.
Definition ioPoint_MarkOptional (resPtr : res_Resource_t) :=
  set_isMandatory resPtr false.

(** ** Type coercion ([ioPoint.c]) *)

Section Coercion.
Context `{Col : Collaborators}.

(** The clock reading a factory sees, and whether its allocation succeeds. *)
Variable now : float.
Variable alloc : bool.

(** The numeric to string and numeric to JSON cases: [%lf] into a local
    buffer, emptied if the text did not fit. *)
Definition format_numeric (oldValue : float) : string :=
  let '(newValue, n) :=
    snprintf new_buffer HUB_MAX_STRING_BYTES (chars (format_lf oldValue)) in
  let newValue :=
    if decide (HUB_MAX_STRING_BYTES ≤ n) then <[0 := NUL]> newValue
    else newValue in
  text_of (cstr newValue).

(** The string to JSON case: the string between double quotes.  When the
    quoted text does not fit, the code stores a quote at index
    [sizeof(newValue - 2)] and a terminator at index [sizeof(newValue - 1)];
    the operand of each [sizeof] is a pointer expression, so both indices
    are the size of a pointer. *)
Definition quote_string (oldValue : string) : string :=
  let '(newValue, n) :=
    snprintf new_buffer HUB_MAX_STRING_BYTES
             (DQUOTE :: chars oldValue ++ [DQUOTE]) in
  let newValue :=
    if decide (HUB_MAX_STRING_BYTES ≤ n)
    then <[sizeof_ptr := NUL]> (<[sizeof_ptr := DQUOTE]> newValue)
    else newValue in
  text_of (cstr newValue).

(** [ioPoint_DoTypeCoercion]: the result code and the final contents of the
    two in/out parameters.  The pair computed first is ([toSample],
    [needsTypeConversion]). *)
Definition ioPoint_DoTypeCoercion (resPtr : res_Resource_t)
    (dataTypeIn : io_DataType_t) (valueRef : DataSample)
  : le_result_t * io_DataType_t * DataSample :=
  let fromType := dataTypeIn in
  let fromSample := valueRef in
  let toType := dataType resPtr in
  let timestamp := dataSample_GetTimestamp fromSample in
  let '(toSample, needsTypeConversion) :=
    match toType with
    | IO_DATA_TYPE_TRIGGER =>
        if decide (fromType ≠ IO_DATA_TYPE_TRIGGER)
        then (dataSample_CreateTrigger alloc now timestamp, true)
        else (None, false)
    | IO_DATA_TYPE_BOOLEAN =>
        match fromType with
        | IO_DATA_TYPE_TRIGGER =>
            (dataSample_CreateBoolean alloc now timestamp false, true)
        | IO_DATA_TYPE_BOOLEAN => (None, false)
        | IO_DATA_TYPE_NUMERIC =>
            let value := dataSample_GetNumeric fromSample in
            (dataSample_CreateBoolean alloc now timestamp
               (negb (PrimFloat.eqb value 0)), true)
        | IO_DATA_TYPE_STRING =>
            let value := dataSample_GetString fromSample in
            let boolValue := negb (String.eqb value "") in
            (dataSample_CreateBoolean alloc now timestamp boolValue, true)
        | IO_DATA_TYPE_JSON =>
            let newValue :=
              json_ConvertToBoolean (dataSample_GetJson fromSample) in
            (dataSample_CreateBoolean alloc now timestamp newValue, true)
        end
    | IO_DATA_TYPE_NUMERIC =>
        match fromType with
        | IO_DATA_TYPE_TRIGGER =>
            (dataSample_CreateNumeric alloc now timestamp nan, true)
        | IO_DATA_TYPE_BOOLEAN =>
            let newValue :=
              if dataSample_GetBoolean fromSample then 1%float else 0%float in
            (dataSample_CreateNumeric alloc now timestamp newValue, true)
        | IO_DATA_TYPE_NUMERIC => (None, false)
        | IO_DATA_TYPE_STRING =>
            let newValue :=
              if String.eqb (dataSample_GetString fromSample) ""
              then 0%float else 1%float in
            (dataSample_CreateNumeric alloc now timestamp newValue, true)
        | IO_DATA_TYPE_JSON =>
            let newValue :=
              json_ConvertToNumber (dataSample_GetJson fromSample) in
            (dataSample_CreateNumeric alloc now timestamp newValue, true)
        end
    | IO_DATA_TYPE_STRING =>
        match fromType with
        | IO_DATA_TYPE_TRIGGER =>
            (dataSample_CreateString alloc now timestamp "", true)
        | IO_DATA_TYPE_BOOLEAN =>
            let oldValue := dataSample_GetBoolean fromSample in
            let newValue := if oldValue then "true" else "false" in
            (dataSample_CreateString alloc now timestamp newValue, true)
        | IO_DATA_TYPE_NUMERIC =>
            let oldValue := dataSample_GetNumeric fromSample in
            (dataSample_CreateString alloc now timestamp
               (format_numeric oldValue), true)
        | IO_DATA_TYPE_STRING => (None, false)
        | IO_DATA_TYPE_JSON =>
            (dataSample_CreateString alloc now timestamp
               (dataSample_GetJson fromSample), true)
        end
    | IO_DATA_TYPE_JSON =>
        match fromType with
        | IO_DATA_TYPE_TRIGGER =>
            (dataSample_CreateJson alloc now timestamp "null", true)
        | IO_DATA_TYPE_BOOLEAN =>
            let oldValue := dataSample_GetBoolean fromSample in
            let newValue := if oldValue then "true" else "false" in
            (dataSample_CreateJson alloc now timestamp newValue, true)
        | IO_DATA_TYPE_NUMERIC =>
            let oldValue := dataSample_GetNumeric fromSample in
            (dataSample_CreateJson alloc now timestamp
               (format_numeric oldValue), true)
        | IO_DATA_TYPE_STRING =>
            let oldValue := dataSample_GetString fromSample in
            (dataSample_CreateJson alloc now timestamp
               (quote_string oldValue), true)
        | IO_DATA_TYPE_JSON => (None, false)
        end
    end in
  match toSample with
  | Some s => (LE_OK, toType, s)
  | None =>
      if needsTypeConversion
      then (LE_NO_MEMORY, fromType, fromSample)
      else (LE_OK, fromType, fromSample)
  end.

End Coercion.

(** ** The resource tree ([resTree.c]) *)

(** Constants of [dataHub.h] and [resource.h], which are not among the
    sources, and the optional build-time limit on push handlers. *)
Class HubConfig := {
  HUB_MAX_ENTRY_NAME_BYTES : nat;
  RES_FLAG_NEW : N;
  RES_FLAG_DELETED : N;
  DHUB_IO_PUSH_HANDLER_COUNT : option nat;
}.

(** What the tree needs from [resource.c], which is not among the sources. *)
Class ResourceModule := {
  res_HasAdminSettings : res_Resource_t → bool;
  res_CreatePlaceholder : EntryRef → res_Resource_t;
  (** [res_MoveAdminSettings src dest destType]: the replacement [dest] after
      the settings of [src] were moved into it *)
  res_MoveAdminSettings :
    res_Resource_t → res_Resource_t → admin_EntryType_t → res_Resource_t;
  (** the filters and transform of an Observation: the sample to accept, or
      [None] when the sample is dropped *)
  obs_Process :
    res_Resource_t → io_DataType_t → DataSample →
    option (io_DataType_t * DataSample);
  (** [res_SetDefault]: the result code and the resource afterwards *)
  res_SetDefault :
    res_Resource_t → io_DataType_t → DataSample →
    le_result_t * res_Resource_t;
}.

(** The union [u] of an entry: flags for a Namespace, the resource otherwise. *)
Inductive EntryUnion : Set :=
  | U_flags (flags : N)
  | U_resourcePtr (resourcePtr : option res_Resource_t).

(** [Entry_t].  [childList] holds the names of the children in list order
    (the child called [c] of entry [e] is [c :: e]); [refCount] is the
    reference count the memory pool keeps for the object. *)
Record Entry_t : Set := mkEntry {
  childList : list string;
  type : admin_EntryType_t;
  u : EntryUnion;
  refCount : nat;
}.

Definition set_childList (e : Entry_t) v := mkEntry v (type e) (u e) (refCount e).
Definition set_type_u (e : Entry_t) t v := mkEntry (childList e) t v (refCount e).
Definition set_refCount (e : Entry_t) v := mkEntry (childList e) (type e) (u e) v.

(** The members of the union.  The code reads [flags] only when the type is
    Namespace and [resourcePtr] only when it is not; every store to [u] goes
    with the matching store to [type]. *)
Definition flags_of (e : Entry_t) : N :=
  match u e with U_flags f => f | U_resourcePtr _ => 0%N end.
Definition resourcePtr_of (e : Entry_t) : option res_Resource_t :=
  match u e with U_resourcePtr r => r | U_flags _ => None end.

Definition RootPtr : EntryRef := [].
Definition parentPtr (e : EntryRef) : option EntryRef :=
  match e with [] => None | _ :: p => Some p end.
Definition name (e : EntryRef) : string :=
  match e with [] => "" | n :: _ => n end.

(** The pool of entry objects: the entries that are allocated. *)
Abbreviation Pool := (gmap EntryRef Entry_t).

(** [strncmp(a, b, n) == 0] on NUL-free strings. *)
Definition strncmp_eq (n : nat) (a b : string) : bool :=
  bool_decide (take n (chars a) = take n (chars b)).

(** [le_utf8_Copy] into a buffer of [n] bytes (the cut is made at a byte
    here, at a character boundary in the library). *)
Definition le_utf8_Copy (src : string) (n : nat) : string :=
  text_of (take (pred n) (chars src)).

(** [le_utf8_Copy] into the caller's buffer of [valueSize] bytes: the result
    code and the text stored. *)
Definition copy_out (src : string) (valueSize : nat) : le_result_t * string :=
  if decide (String.length src < valueSize) then (LE_OK, src)
  else (LE_OVERFLOW, le_utf8_Copy src valueSize).

Section ResTree.
Context `{Cfg : HubConfig} `{Res : ResourceModule}.

Definition resTree_IsResource (entryRef : Entry_t) : bool :=
  if decide (type entryRef = ADMIN_ENTRY_TYPE_NAMESPACE) then false
  else bool_decide (resourcePtr_of entryRef ≠ None).

Definition has_flag (flags flag : N) : bool :=
  negb (N.eqb (N.land flags flag) 0).

Definition resTree_IsDeleted (resEntry : Entry_t) : bool :=
  if decide (type resEntry = ADMIN_ENTRY_TYPE_NAMESPACE)
  then has_flag (flags_of resEntry) RES_FLAG_DELETED
  else false.

(** [resTree_SetDeleted]: [None] when one of its assertions fails. *)
Definition resTree_SetDeleted (resEntry : Entry_t) : option Entry_t :=
  if decide (type resEntry = ADMIN_ENTRY_TYPE_NAMESPACE) then
    if has_flag (flags_of resEntry) RES_FLAG_NEW then None
    else Some (set_type_u resEntry (type resEntry)
                 (U_flags (N.lor (flags_of resEntry) RES_FLAG_DELETED)))
  else None.

(** The loop of [resTree_FindChildEx] over the links of the child list. *)
Fixpoint FindChild_loop (pool : Pool) (nsRef : EntryRef) (nm : string)
    (withZombies : bool) (links : list string) : option EntryRef :=
  match links with
  | [] => None
  | link :: rest =>
      let childPtr := link :: nsRef in
      match pool !! childPtr with
      | Some child =>
          if (withZombies || negb (resTree_IsDeleted child))
             && strncmp_eq HUB_MAX_ENTRY_NAME_BYTES nm (name childPtr)
          then Some childPtr
          else FindChild_loop pool nsRef nm withZombies rest
      | None => FindChild_loop pool nsRef nm withZombies rest
      end
  end.

Definition resTree_FindChildEx (pool : Pool) (nsRef : EntryRef)
    (nm : string) (withZombies : bool) : option EntryRef :=
  match pool !! nsRef with
  | Some ns => FindChild_loop pool nsRef nm withZombies (childList ns)
  | None => None
  end.

Definition resTree_FindChild (pool : Pool) (nsRef : EntryRef) (nm : string) :=
  resTree_FindChildEx pool nsRef nm false.

Definition resTree_GetFirstChildEx (pool : Pool) (entryRef : EntryRef)
    (withZombies : bool) : option EntryRef :=
  match pool !! entryRef with
  | Some ent =>
      match childList ent with
      | link :: _ =>
          let childPtr := link :: entryRef in
          match pool !! childPtr with
          | Some child =>
              if withZombies || negb (resTree_IsDeleted child)
              then Some childPtr else None
          | None => None
          end
      | [] => None
      end
  | None => None
  end.

Definition resTree_GetFirstChild (pool : Pool) (entryRef : EntryRef) :=
  resTree_GetFirstChildEx pool entryRef false.

(** [le_dls_PeekNext]: the link after [link] in the list. *)
Fixpoint le_dls_PeekNext (links : list string) (link : string)
  : option string :=
  match links with
  | [] => None
  | l :: rest =>
      if decide (l = link) then head rest else le_dls_PeekNext rest link
  end.

Definition resTree_GetNextSiblingEx (pool : Pool) (entryRef : EntryRef)
    (withZombies : bool) : option EntryRef :=
  match parentPtr entryRef with
  | None => None
  | Some parent =>
      match pool !! parent with
      | Some parentEnt =>
          match le_dls_PeekNext (childList parentEnt) (name entryRef) with
          | Some link =>
              let childPtr := link :: parent in
              match pool !! childPtr with
              | Some child =>
                  if withZombies || negb (resTree_IsDeleted child)
                  then Some childPtr else None
              | None => None
              end
          | None => None
          end
      | None => None
      end
  end.

Definition resTree_GetNextSibling (pool : Pool) (entryRef : EntryRef) :=
  resTree_GetNextSiblingEx pool entryRef false.

(** *** Creating entries *)

(** [AddChild]: the pool afterwards and the new (or resurrected) child;
    [None] when an assertion fails.  [le_mem_Alloc] never returns NULL.
    The names that reach this function are shorter than the name buffer. *)
Definition AddChild (pool : Pool) (parent : option EntryRef) (nm : string)
    (entryPtr : option EntryRef) : option (Pool * EntryRef) :=
  match entryPtr with
  | None =>
      let stored := le_utf8_Copy nm HUB_MAX_ENTRY_NAME_BYTES in
      let fresh := mkEntry [] ADMIN_ENTRY_TYPE_NAMESPACE
                     (U_flags RES_FLAG_NEW) 1 in
      match parent with
      | Some p =>
          match resTree_FindChildEx pool p nm true, pool !! p with
          | None, Some parentEnt =>
              let parentEnt :=
                set_childList (set_refCount parentEnt (S (refCount parentEnt)))
                              (childList parentEnt ++ [stored]) in
              Some (<[stored :: p := fresh]> (<[p := parentEnt]> pool),
                    stored :: p)
          | _, _ => None
          end
      | None => Some (<[RootPtr := fresh]> pool, RootPtr)
      end
  | Some e =>
      match pool !! e with
      | Some ent =>
          if decide (type ent = ADMIN_ENTRY_TYPE_NAMESPACE
                     ∧ parentPtr e = parent ∧ childList ent = [])
          then Some (<[e := set_type_u ent (type ent) (U_flags RES_FLAG_NEW)]>
                       pool, e)
          else None
      | None => None
      end
  end.

(** [resTree_Init]: the pool holding the Root namespace only. *)
Definition resTree_Init : Pool :=
  <[RootPtr := mkEntry [] ADMIN_ENTRY_TYPE_NAMESPACE (U_flags RES_FLAG_NEW) 1]>
    ∅.

(** *** Path resolution *)

Definition SLASH : ascii := "/"%char.

(** The pieces of a byte string between its slashes. *)
Fixpoint split_slash (path : list ascii) : list (list ascii) :=
  match path with
  | [] => [[]]
  | c :: rest =>
      if decide (c = SLASH) then [] :: split_slash rest
      else match split_slash rest with
           | piece :: pieces => (c :: piece) :: pieces
           | [] => [[c]]
           end
  end.

(** The entry names the loop of [GoToEntry] reads, one per iteration.  The
    loop stops at the terminator; an iteration skips one slash if it is at
    one, and reads the name up to the next slash or the terminator.  After
    the first iteration the index is always at a slash, so only the first
    one can start without skipping. *)
Definition path_elements (path : list ascii) : list (list ascii) :=
  match path with
  | [] => []
  | c :: rest => if decide (c = SLASH) then split_slash rest
                 else split_slash path
  end.

(** [strpbrk(path, ".[]") != NULL] *)
Definition has_illegal_char (path : list ascii) : bool :=
  existsb (λ c, bool_decide (c ∈ ["."%char; "["%char; "]"%char])) path.

(** The body of the loop of [GoToEntry], run on each entry name in turn.
    The result is the pool and the entry reached (NULL: [None]); the outer
    [None] is a failed assertion in [AddChild]. *)
Fixpoint GoToEntry_loop (pool : Pool) (currentEntry : EntryRef)
    (elements : list (list ascii)) (doCreate : bool)
  : option (Pool * option EntryRef) :=
  match elements with
  | [] => Some (pool, Some currentEntry)
  | entryName :: rest =>
      let nameLen := length entryName in
      if decide (nameLen = 0) then Some (pool, None)
      else if decide (HUB_MAX_ENTRY_NAME_BYTES ≤ nameLen) then Some (pool, None)
      else
        let childPtr :=
          resTree_FindChildEx pool currentEntry (text_of entryName) true in
        (* "create a missing entry, or return NULL" *)
        let missing entryPtr :=
          if doCreate then
            match AddChild pool (Some currentEntry) (text_of entryName)
                           entryPtr with
            | Some (pool', childPtr) =>
                GoToEntry_loop pool' childPtr rest doCreate
            | None => None
            end
          else Some (pool, None) in
        match childPtr ≫= (λ c, pair c <$> pool !! c) with
        | Some (c, child) =>
            if resTree_IsDeleted child then missing (Some c)
            else GoToEntry_loop pool c rest doCreate
        | None => missing None
        end
  end.

Definition GoToEntry (pool : Pool) (baseNamespace : EntryRef) (path : string)
    (doCreate : bool) : option (Pool * option EntryRef) :=
  if has_illegal_char (chars path) then Some (pool, None)
  else GoToEntry_loop pool baseNamespace (path_elements (chars path)) doCreate.

(** [resTree_FindEntry]: nothing is created, so only the entry is returned. *)
Definition resTree_FindEntry (pool : Pool) (baseNamespace : EntryRef)
    (path : string) : option EntryRef :=
  match GoToEntry pool baseNamespace path false with
  | Some (_, entryRef) => entryRef
  | None => None
  end.

Definition resTree_GetEntry (pool : Pool) (baseNamespace : EntryRef)
    (path : string) := GoToEntry pool baseNamespace path true.

Definition resTree_GetEntryType (entryRef : Entry_t) := type entryRef.

(** [resTree_GetUnits] and [resTree_GetDataType]: [None] when
    [LE_ASSERT(resTree_IsResource(resRef))] fails. *)
Definition resTree_GetUnits (resRef : Entry_t) : option string :=
  if resTree_IsResource resRef then units <$> resourcePtr_of resRef else None.
Definition resTree_GetDataType (resRef : Entry_t) : option io_DataType_t :=
  if resTree_IsResource resRef then dataType <$> resourcePtr_of resRef
  else None.

Definition resTree_GetCurrentValue (resRef : Entry_t) : option DataSample :=
  if resTree_IsResource resRef
  then resourcePtr_of resRef ≫= currentValue
  else None.

(** *** The hub *)

(** What leaves the hub: callbacks into client code, in the order made. *)
Inductive Event : Set :=
  | PushHandlerCalled (h : nat) (ts : float) (v : SampleValue)
  | ResourceTreeChanged (absolutePath : string)
      (entryType : admin_EntryType_t) (op : admin_ResourceOperationType_t).

(** The module-level state of the daemon: the entry pool, the callbacks made
    so far, [PushHandlerCount] of [ioService.c], the next handler reference
    to hand out, whether the snapshot module tracks deletions, and whether
    an administrative update is in progress. *)
Record Hub : Type := mkHub {
  EntryPool : gmap EntryRef Entry_t;
  calls : list Event;
  PushHandlerCount : nat;
  HandlerRefs : nat;
  TrackDeletions : bool;
  UpdateInProgress : bool;
}.

Definition set_EntryPool (hub : Hub) (pool : Pool) : Hub :=
  mkHub pool (calls hub) (PushHandlerCount hub) (HandlerRefs hub)
    (TrackDeletions hub) (UpdateInProgress hub).
Definition log (hub : Hub) (evs : list Event) : Hub :=
  mkHub (EntryPool hub) (calls hub ++ evs) (PushHandlerCount hub)
    (HandlerRefs hub) (TrackDeletions hub) (UpdateInProgress hub).
Definition set_handlers (hub : Hub) (count next : nat) : Hub :=
  mkHub (EntryPool hub) (calls hub) count next
    (TrackDeletions hub) (UpdateInProgress hub).

(** The resource of an entry, when the entry is allocated and holds one. *)
Definition resource_at (pool : Pool) (entryRef : EntryRef)
  : option res_Resource_t := pool !! entryRef ≫= resourcePtr_of.

(** Store a resource body through [entryRef->u.resourcePtr]. *)
Definition store_resource (pool : Pool) (entryRef : EntryRef)
    (r : res_Resource_t) : Pool :=
  match pool !! entryRef with
  | Some ent =>
      <[entryRef := set_type_u ent (type ent) (U_resourcePtr (Some r))]> pool
  | None => pool
  end.

(** [ReplaceResource]; the replacement is an allocated resource. *)
Definition ReplaceResource (pool : Pool) (entryRef : EntryRef)
    (replacementPtr : res_Resource_t) (replacementType : admin_EntryType_t)
  : Pool :=
  match pool !! entryRef with
  | Some ent =>
      let replacementPtr :=
        if decide (type ent ≠ ADMIN_ENTRY_TYPE_NAMESPACE) then
          match resourcePtr_of ent with
          | Some original =>
              res_MoveAdminSettings original replacementPtr replacementType
          | None => replacementPtr
          end
        else replacementPtr in
      <[entryRef := set_type_u ent replacementType
                      (U_resourcePtr (Some replacementPtr))]> pool
  | None => pool
  end.

(** [resTree_GetPath].  The value returned is a byte count or, as a negative
    number in C, a result code; with it goes the text the call has put in the
    buffer.  The outer [None] is the failed assertion.  [copy_out] is
    [le_utf8_Copy]; the bytes it copied are the length of its text. *)
Fixpoint resTree_GetPath (stringBuffSize : nat)
    (baseNamespace entryRef : EntryRef)
  : option ((nat + le_result_t) * string) :=
  (* Corner case: the entry is the same as the base namespace. *)
  if decide (entryRef = baseNamespace) then
    if decide (0 < stringBuffSize) then Some (inl 0, "") else None
  (* The parent is the base namespace: just print the name. *)
  else if decide (parentPtr entryRef = Some baseNamespace) then
    let slash :=
      if decide (baseNamespace = RootPtr)
      then Some (copy_out "/" stringBuffSize) else None in
    match slash with
    | Some (LE_OK, written) =>
        let stringBuffSize := stringBuffSize - 1 in
        let bytesWritten := 1 in
        match copy_out (name entryRef) stringBuffSize with
        | (LE_OK, text) =>
            Some (inl (bytesWritten + String.length text), written +:+ text)
        | (_, text) => Some (inr LE_OVERFLOW, written +:+ text)
        end
    | Some (_, written) => Some (inr LE_OVERFLOW, written)
    | None =>
        match copy_out (name entryRef) stringBuffSize with
        | (LE_OK, text) => Some (inl (String.length text), text)
        | (_, text) => Some (inr LE_OVERFLOW, text)
        end
    end
  else
    match entryRef with
    (* The Root namespace is reached: the entry is not in the base. *)
    | [] => Some (inr LE_NOT_FOUND, "")
    | _ :: parent =>
        match resTree_GetPath stringBuffSize baseNamespace parent with
        | Some (inl result, written) =>
            let bytesWritten := result in
            let stringBuffSize := stringBuffSize - result in
            match copy_out "/" stringBuffSize with
            | (LE_OK, sep) =>
                let len := String.length sep in
                let bytesWritten := bytesWritten + len in
                let stringBuffSize := stringBuffSize - len in
                match copy_out (name entryRef) stringBuffSize with
                | (LE_OK, text) =>
                    Some (inl (bytesWritten + String.length text),
                          written +:+ sep +:+ text)
                | (_, text) => Some (inr LE_OVERFLOW, written +:+ sep +:+ text)
                end
            | (_, sep) => Some (inr LE_OVERFLOW, written +:+ sep)
            end
        | failed => failed
        end
    end.

(** [CallResourceTreeChangeHandlers]: the absolute path of the entry is
    printed into [char absolutePath[HUB_MAX_RESOURCE_PATH_BYTES]] and the
    result of [resTree_GetPath] is dropped, so the handlers are given what
    the buffer holds: the path, or what was copied of it before the
    overflow. *)
Definition CallResourceTreeChangeHandlers (hub : Hub) (entryRef : EntryRef)
    (entryType : admin_EntryType_t) (op : admin_ResourceOperationType_t)
  : option Hub :=
  '(_, absolutePath) ←
    resTree_GetPath HUB_MAX_RESOURCE_PATH_BYTES RootPtr entryRef;
  Some (log hub [ResourceTreeChanged absolutePath entryType op]).

(** Modelled from the spec: [res_CreateInput] and [res_CreateOutput] of
    [resource.c] make the Input/Output body and record its units. *)
Definition res_CreateInput (ty : io_DataType_t) (unitsStr : string) :=
  set_units (ioPoint_CreateInput ty) unitsStr.
Definition res_CreateOutput (ty : io_DataType_t) (unitsStr : string) :=
  set_units (ioPoint_CreateOutput ty) unitsStr.

(** [resTree_GetInput]: the hub afterwards and the entry, or NULL; the outer
    [None] is an abort. *)
Definition resTree_GetInput (hub : Hub) (baseNamespace : EntryRef)
    (path : string) (ty : io_DataType_t) (unitsStr : string)
  : option (Hub * option EntryRef) :=
  match GoToEntry (EntryPool hub) baseNamespace path true with
  | None => None
  | Some (pool, None) => Some (set_EntryPool hub pool, None)
  | Some (pool, Some entryRef) =>
      match type <$> pool !! entryRef with
      | Some ADMIN_ENTRY_TYPE_NAMESPACE | Some ADMIN_ENTRY_TYPE_PLACEHOLDER =>
          let resPtr := res_CreateInput ty unitsStr in
          let pool :=
            ReplaceResource pool entryRef resPtr ADMIN_ENTRY_TYPE_INPUT in
          hub ← CallResourceTreeChangeHandlers (set_EntryPool hub pool)
                  entryRef ADMIN_ENTRY_TYPE_INPUT ADMIN_RESOURCE_ADDED;
          Some (hub, Some entryRef)
      | Some ADMIN_ENTRY_TYPE_INPUT      (* replace an Input with another *)
      | Some ADMIN_ENTRY_TYPE_OUTPUT
      | Some ADMIN_ENTRY_TYPE_OBSERVATION =>
          Some (set_EntryPool hub pool, None)
      | Some ADMIN_ENTRY_TYPE_NONE | None => None
      end
  end.

(** [resTree_GetOutput]. *)
Definition resTree_GetOutput (hub : Hub) (baseNamespace : EntryRef)
    (path : string) (ty : io_DataType_t) (unitsStr : string)
  : option (Hub * option EntryRef) :=
  match GoToEntry (EntryPool hub) baseNamespace path true with
  | None => None
  | Some (pool, None) => Some (set_EntryPool hub pool, None)
  | Some (pool, Some entryRef) =>
      match type <$> pool !! entryRef with
      | Some ADMIN_ENTRY_TYPE_NAMESPACE | Some ADMIN_ENTRY_TYPE_PLACEHOLDER =>
          let resPtr := res_CreateOutput ty unitsStr in
          let pool :=
            ReplaceResource pool entryRef resPtr ADMIN_ENTRY_TYPE_OUTPUT in
          hub ← CallResourceTreeChangeHandlers (set_EntryPool hub pool)
                  entryRef ADMIN_ENTRY_TYPE_OUTPUT ADMIN_RESOURCE_ADDED;
          Some (hub, Some entryRef)
      | Some ADMIN_ENTRY_TYPE_INPUT
      | Some ADMIN_ENTRY_TYPE_OUTPUT     (* replace an Output with another *)
      | Some ADMIN_ENTRY_TYPE_OBSERVATION =>
          Some (set_EntryPool hub pool, None)
      | Some ADMIN_ENTRY_TYPE_NONE | None => None
      end
  end.

(** [ioService.c] calls [resTree_CreateInput] and [resTree_CreateOutput],
    the forms [resTree.h] declares, which report a result code; [resTree.c]
    has the bodies under their earlier names, returning the entry or NULL.
    NULL is reported as a bad parameter (the header: the path is
    malformed). *)
Definition resTree_CreateInput (hub : Hub) (baseNamespace : EntryRef)
    (path : string) (ty : io_DataType_t) (unitsStr : string)
  : option (le_result_t * Hub) :=
  match resTree_GetInput hub baseNamespace path ty unitsStr with
  | Some (hub', Some _) => Some (LE_OK, hub')
  | Some (hub', None) => Some (LE_BAD_PARAMETER, hub')
  | None => None
  end.
Definition resTree_CreateOutput (hub : Hub) (baseNamespace : EntryRef)
    (path : string) (ty : io_DataType_t) (unitsStr : string)
  : option (le_result_t * Hub) :=
  match resTree_GetOutput hub baseNamespace path ty unitsStr with
  | Some (hub', Some _) => Some (LE_OK, hub')
  | Some (hub', None) => Some (LE_BAD_PARAMETER, hub')
  | None => None
  end.

(** *** Deleting an Input or Output *)

(** [le_mem_Release] of an entry: the count drops by one; at the last
    reference [EntryDestructor] unlinks the entry from its parent and
    releases the parent, and the object leaves the pool.  [None]: an
    assertion of the destructor failed, or the object was not allocated. *)
Fixpoint le_mem_Release (pool : Pool) (entryPtr : EntryRef) : option Pool :=
  match entryPtr with
  | [] =>
      match pool !! [] with
      | Some ent =>
          match refCount ent with
          | S (S n) => Some (<[[] := set_refCount ent (S n)]> pool)
          | _ => None   (* LE_ASSERT(entryPtr->parentPtr != NULL) *)
          end
      | None => None
      end
  | link :: parent =>
      match pool !! (link :: parent) with
      | Some ent =>
          match refCount ent with
          | S (S n) =>
              Some (<[link :: parent := set_refCount ent (S n)]> pool)
          | 1 =>
              match childList ent, pool !! parent with
              | [], Some parentEnt =>
                  let unlinked :=
                    set_childList parentEnt
                      (filter (λ l, l ≠ link) (childList parentEnt)) in
                  pool ← le_mem_Release (<[parent := unlinked]> pool) parent;
                  Some (delete (link :: parent) pool)
              | _, _ => None
              end
          | 0 => None
          end
      | None => None
      end
  end.

(** Modelled from the spec: [snapshot.c] is not among the sources.  While
    deletions are tracked, a deleted entry is marked and kept (one more
    reference) as a tombstone until the next flush; otherwise nothing is
    recorded. *)
Definition snapshot_RecordNodeDeletion (hub : Hub) (nodeRef : EntryRef)
  : option Hub :=
  if TrackDeletions hub then
    ent ← EntryPool hub !! nodeRef;
    ent ← resTree_SetDeleted ent;
    Some (set_EntryPool hub
            (<[nodeRef := set_refCount ent (S (refCount ent))]>
               (EntryPool hub)))
  else Some hub.

(** [resTree_DeleteIO].  Releasing the I/O resource is the store that
    overwrites the union. *)
Definition resTree_DeleteIO (hub : Hub) (entryRef : EntryRef) : option Hub :=
  ent ← EntryPool hub !! entryRef;
  ioPtr ← resourcePtr_of ent;
  hub ←
    CallResourceTreeChangeHandlers hub entryRef (type ent)
      ADMIN_RESOURCE_REMOVED;
  if res_HasAdminSettings ioPtr then
    let placeholderPtr := res_CreatePlaceholder entryRef in
    Some (set_EntryPool hub
            (ReplaceResource (EntryPool hub) entryRef placeholderPtr
               ADMIN_ENTRY_TYPE_PLACEHOLDER))
  else
    let detached :=
      set_type_u ent ADMIN_ENTRY_TYPE_NAMESPACE (U_flags 0) in
    let hub := set_EntryPool hub (<[entryRef := detached]> (EntryPool hub)) in
    hub ← snapshot_RecordNodeDeletion hub entryRef;
    pool ← le_mem_Release (EntryPool hub) entryRef;
    Some (set_EntryPool hub pool).

End ResTree.

(** ** Handlers and the push pipeline *)

Section Push.
Context `{Col : Collaborators} `{Cfg : HubConfig} `{Res : ResourceModule}.

(** Modelled from the spec: the two conversions of [dataSample.c] that handler
    dispatch uses.  Printable string: trigger is the empty string, Boolean is
    [true] or [false], numeric is [%lf], string and JSON are verbatim.  JSON
    form: trigger is [null], a string is put between double quotes, the rest
    as before.  The result is an overflow ([None]) when the text and its
    terminator do not fit in [valueBuffSize] bytes. *)
Definition fits (valueBuffSize : nat) (text : string) : option string :=
  if decide (String.length text < valueBuffSize) then Some text else None.

Definition dataSample_ConvertToString (sampleRef : DataSample)
    (ty : io_DataType_t) (valueBuffSize : nat) : option string :=
  fits valueBuffSize
    match ty with
    | IO_DATA_TYPE_TRIGGER => ""
    | IO_DATA_TYPE_BOOLEAN =>
        if dataSample_GetBoolean sampleRef then "true" else "false"
    | IO_DATA_TYPE_NUMERIC => format_lf (dataSample_GetNumeric sampleRef)
    | IO_DATA_TYPE_STRING => dataSample_GetString sampleRef
    | IO_DATA_TYPE_JSON => dataSample_GetJson sampleRef
    end.

Definition dataSample_ConvertToJson (sampleRef : DataSample)
    (ty : io_DataType_t) (valueBuffSize : nat) : option string :=
  fits valueBuffSize
    match ty with
    | IO_DATA_TYPE_TRIGGER => "null"
    | IO_DATA_TYPE_BOOLEAN =>
        if dataSample_GetBoolean sampleRef then "true" else "false"
    | IO_DATA_TYPE_NUMERIC => format_lf (dataSample_GetNumeric sampleRef)
    | IO_DATA_TYPE_STRING =>
        text_of (DQUOTE :: chars (dataSample_GetString sampleRef) ++ [DQUOTE])
    | IO_DATA_TYPE_JSON => dataSample_GetJson sampleRef
    end.

(** The value a callback of type [ty] is handed when the sample has that
    type: what the typed getter reads. *)
Definition payload (ty : io_DataType_t) (sampleRef : DataSample) : SampleValue :=
  match ty with
  | IO_DATA_TYPE_TRIGGER => ValTrigger
  | IO_DATA_TYPE_BOOLEAN => ValBoolean (dataSample_GetBoolean sampleRef)
  | IO_DATA_TYPE_NUMERIC => ValNumeric (dataSample_GetNumeric sampleRef)
  | IO_DATA_TYPE_STRING => ValString (dataSample_GetString sampleRef)
  | IO_DATA_TYPE_JSON => ValJson (dataSample_GetJson sampleRef)
  end.

(** Modelled from the spec: [handler.c] is not among the sources.  A handler
    is called when its data type matches the sample's, or when it is a string
    or JSON handler, which gets the value converted to its encoding; a
    conversion that overflows makes no call.  The result is the calls made.
    This is the dispatch rule of the push pipeline (step 6 and the paragraph
    on per-handler dispatch), and what the sources that are present say of
    the absent function: [AddPushHandler] calls it with the comment "if it's
    a data type match", [handler.h] declares [handler_CallAll] as calling
    the handlers "that match a given data type", and [io.api] promises a
    conversion for JSON and string handlers only.  The first end-to-end
    scenario of the spec, a numeric handler called on a trigger Input,
    does not follow that rule and is not modelled. *)
Definition handler_Call (handlerPtr : Handler) (ty : io_DataType_t)
    (sampleRef : DataSample) : list Event :=
  let ts := dataSample_GetTimestamp sampleRef in
  if decide (handlerType handlerPtr = ty)
  then [PushHandlerCalled (handlerRef handlerPtr) ts (payload ty sampleRef)]
  else
    match handlerType handlerPtr with
    | IO_DATA_TYPE_STRING =>
        match dataSample_ConvertToString sampleRef ty HUB_MAX_STRING_BYTES with
        | Some text =>
            [PushHandlerCalled (handlerRef handlerPtr) ts (ValString text)]
        | None => []
        end
    | IO_DATA_TYPE_JSON =>
        match dataSample_ConvertToJson sampleRef ty HUB_MAX_STRING_BYTES with
        | Some text =>
            [PushHandlerCalled (handlerRef handlerPtr) ts (ValJson text)]
        | None => []
        end
    | _ => []
    end.

(** Handler lists are walked in registration order. *)
Definition handler_CallAll (handlers : list Handler) (ty : io_DataType_t)
    (sampleRef : DataSample) : list Event :=
  flat_map (λ h, handler_Call h ty sampleRef) handlers.

(** Modelled from the spec: [handler_Add] puts a new handler at the end of the
    list and returns its reference, or NULL when no handler object can be
    allocated.  [next] is the reference handed out. *)
Definition handler_Add (alloc : bool) (next : nat) (handlers : list Handler)
    (ty : io_DataType_t) : list Handler * option nat :=
  if alloc then (handlers ++ [mkHandler next ty], Some next)
  else (handlers, None).

(** Modelled from the spec: [res_Push] of [resource.c], as the push pipeline
    describes it, for the resource the sample is pushed to.
    - While an update is in progress the sample becomes the pending one.
    - An Input or Output coerces the sample to its declared type; a failure
      is returned and the current value stays.
    - An Observation filters and transforms; a dropped sample is a success.
    - An accepted sample becomes the current value (an Observation or a
      Placeholder takes the type of the sample it accepts) and the push
      handlers of the resource are called.
    The result says whether the sample was accepted.  What happens further
    down the routes (the resources whose source this one is) and in the
    buffer of an Observation is not part of this model. *)
Definition res_Push (now : float) (alloc : bool) (inProgress : bool)
    (entryType : admin_EntryType_t) (resPtr : res_Resource_t)
    (ty : io_DataType_t) (sampleRef : DataSample)
  : le_result_t * bool * res_Resource_t * list Event :=
  if inProgress then
    (LE_OK, false, set_pushedValue resPtr (Some (ty, sampleRef)), [])
  else
    let accept typed ty sampleRef :=
      (LE_OK, true, set_currentValue typed (Some sampleRef),
       handler_CallAll (pushHandlerList resPtr) ty sampleRef) in
    match entryType with
    | ADMIN_ENTRY_TYPE_INPUT | ADMIN_ENTRY_TYPE_OUTPUT =>
        match ioPoint_DoTypeCoercion now alloc resPtr ty sampleRef with
        | (LE_OK, ty, sampleRef) => accept resPtr ty sampleRef
        | (result, _, _) => (result, false, resPtr, [])
        end
    | ADMIN_ENTRY_TYPE_OBSERVATION =>
        match obs_Process resPtr ty sampleRef with
        | Some (ty, sampleRef) =>
            accept (set_dataType resPtr ty) ty sampleRef
        | None => (LE_OK, false, resPtr, [])
        end
    | _ => accept (set_dataType resPtr ty) ty sampleRef
    end.

(** [resTree_Push], with the result code [resTree.h] declares.  A sample
    pushed to a Namespace is thrown away.  [None]: [LE_FATAL], or an entry
    without its resource. *)
Definition resTree_Push (now : float) (alloc : bool) (hub : Hub)
    (entryRef : EntryRef) (ty : io_DataType_t) (dataSample : DataSample)
  : option (le_result_t * bool * Hub) :=
  ent ← EntryPool hub !! entryRef;
  match type ent with
  | ADMIN_ENTRY_TYPE_INPUT | ADMIN_ENTRY_TYPE_OUTPUT
  | ADMIN_ENTRY_TYPE_OBSERVATION | ADMIN_ENTRY_TYPE_PLACEHOLDER =>
      resPtr ← resourcePtr_of ent;
      let '(result, accepted, resPtr, evs) :=
        res_Push now alloc (UpdateInProgress hub) (type ent) resPtr ty
          dataSample in
      Some (result, accepted,
            log (set_EntryPool hub
                   (store_resource (EntryPool hub) entryRef resPtr)) evs)
  | ADMIN_ENTRY_TYPE_NAMESPACE => Some (LE_OK, false, hub)
  | ADMIN_ENTRY_TYPE_NONE => None
  end.

(** *** Routing *)

(** The source link of the resource of an entry. *)
Definition src_of (pool : Pool) (resPtr : EntryRef) : option EntryRef :=
  resource_at pool resPtr ≫= srcPtr.

(** The walk from the proposed source back through the source links: does it
    come to [destPtr]?  Each step to the next source takes one unit of
    [fuel]; [None]: the walk did not end before the fuel did. *)
Fixpoint walk_sources (fuel : nat) (pool : Pool) (resPtr : option EntryRef)
    (destPtr : EntryRef) : option bool :=
  match resPtr with
  | None => Some false
  | Some r =>
      if decide (r = destPtr) then Some true
      else match fuel with
           | 0 => None
           | S fuel => walk_sources fuel pool (src_of pool r) destPtr
           end
  end.

(** Modelled from the spec: [res_SetSource] of [resource.c].  Nothing is done
    when the route exists already; a route that would close a loop is a
    duplicate; otherwise the link is installed in place of any other.  The
    destination set of a resource is the set of resources whose source link
    names it, so it needs no store of its own.  A walk over an acyclic route
    graph passes each resource once, so one unit of fuel per allocated entry
    is enough. *)
Definition res_SetSource (pool : Pool) (destPtr : EntryRef)
    (newSrc : option EntryRef) : option (le_result_t * Pool) :=
  dest ← resource_at pool destPtr;
  if decide (srcPtr dest = newSrc) then Some (LE_OK, pool)
  else
    loop ← walk_sources (S (size pool)) pool newSrc destPtr;
    if loop : bool then Some (LE_DUPLICATE, pool)
    else Some (LE_OK, store_resource pool destPtr (set_srcPtr dest newSrc)).

(** [resTree_SetSource].  [srcEntry->u.resourcePtr] is read whatever the
    type of the source entry is.  When the union holds a resource pointer
    that pointer is passed on (NULL clears the source).  When it holds the
    flags of a Namespace the read has no resource pointer to give: the call
    has no defined result, [None], as for a failed assertion. *)
Definition resTree_SetSource (pool : Pool) (destEntry : EntryRef)
    (srcEntry : option EntryRef) : option (le_result_t * Pool) :=
  dest ← pool !! destEntry;
  if decide (type dest ≠ ADMIN_ENTRY_TYPE_NAMESPACE
             ∧ type dest ≠ ADMIN_ENTRY_TYPE_NONE)
  then
    srcRes ← match srcEntry with
             | None => Some None
             | Some s =>
                 src ← pool !! s;
                 match u src with
                 | U_resourcePtr (Some _) => Some (Some s)
                 | U_resourcePtr None => Some None
                 | U_flags _ => None
                 end
             end;
    res_SetSource pool destEntry srcRes
  else None.

Definition resTree_GetSource (pool : Pool) (destEntry : EntryRef)
  : option EntryRef :=
  ent ← pool !! destEntry;
  if resTree_IsResource ent then src_of pool destEntry else None.

End Push.

(** ** The I/O service ([ioService.c]) *)

Section IoService.
Context `{Col : Collaborators} `{Cfg : HubConfig} `{Res : ResourceModule}.

(** The namespace entry [hub_GetClientNamespace] gives for the session of the
    calling client (NULL: [None]); [dataHub.c] is not among the sources. *)
Variable nsRef : option EntryRef.

(** The clock reading during the call. *)
Variable now : float.

Definition is_io (entryType : admin_EntryType_t) : bool :=
  bool_decide (entryType = ADMIN_ENTRY_TYPE_INPUT
               ∨ entryType = ADMIN_ENTRY_TYPE_OUTPUT).

(** [FindResource]: the entry at [path] in the client's namespace when it is
    an Input or an Output, NULL otherwise. *)
Definition FindResource (hub : Hub) (path : string) : option EntryRef :=
  entryRef ← nsRef ≫= λ ns, resTree_FindEntry (EntryPool hub) ns path;
  ent ← EntryPool hub !! entryRef;
  let entryType := resTree_GetEntryType ent in
  if is_io entryType then Some entryRef else None.

(** [io_CreateInput]. *)
Definition io_CreateInput (hub : Hub) (path : string) (ty : io_DataType_t)
    (unitsStr : string) : option (le_result_t * Hub) :=
  let resRef := nsRef ≫= λ ns, resTree_FindEntry (EntryPool hub) ns path in
  (* Get/Create the Input resource. *)
  let create := ns ← nsRef; resTree_CreateInput hub ns path ty unitsStr in
  match resRef with
  | Some r =>
      ent ← EntryPool hub !! r;
      match resTree_GetEntryType ent with
      | ADMIN_ENTRY_TYPE_INPUT =>
          (* Check data type and units to see if they match. *)
          haveType ← resTree_GetDataType ent;
          haveUnits ← resTree_GetUnits ent;
          if decide (haveType ≠ ty ∨ unitsStr ≠ haveUnits)
          then Some (LE_DUPLICATE, hub)
          else Some (LE_OK, hub)
      | ADMIN_ENTRY_TYPE_OUTPUT | ADMIN_ENTRY_TYPE_OBSERVATION =>
          Some (LE_DUPLICATE, hub)   (* These conflict. *)
      | ADMIN_ENTRY_TYPE_NAMESPACE | ADMIN_ENTRY_TYPE_PLACEHOLDER => create
      | ADMIN_ENTRY_TYPE_NONE => None
      end
  | None => create
  end.

(** [io_CreateOutput]. *)
Definition io_CreateOutput (hub : Hub) (path : string) (ty : io_DataType_t)
    (unitsStr : string) : option (le_result_t * Hub) :=
  let resRef := nsRef ≫= λ ns, resTree_FindEntry (EntryPool hub) ns path in
  (* Create the Output resource. *)
  let create := ns ← nsRef; resTree_CreateOutput hub ns path ty unitsStr in
  match resRef with
  | Some r =>
      ent ← EntryPool hub !! r;
      match resTree_GetEntryType ent with
      | ADMIN_ENTRY_TYPE_OUTPUT =>
          (* Check data type and units to see if they match. *)
          haveType ← resTree_GetDataType ent;
          haveUnits ← resTree_GetUnits ent;
          if decide (haveType ≠ ty ∨ unitsStr ≠ haveUnits)
          then Some (LE_DUPLICATE, hub)
          else Some (LE_OK, hub)
      | ADMIN_ENTRY_TYPE_INPUT | ADMIN_ENTRY_TYPE_OBSERVATION =>
          Some (LE_DUPLICATE, hub)   (* These conflict. *)
      | ADMIN_ENTRY_TYPE_NAMESPACE | ADMIN_ENTRY_TYPE_PLACEHOLDER => create
      | ADMIN_ENTRY_TYPE_NONE => None
      end
  | None => create
  end.

Definition io_DeleteResource (hub : Hub) (path : string)
  : option (le_result_t * Hub) :=
  match FindResource hub path with
  | Some resRef => hub ← resTree_DeleteIO hub resRef; Some (LE_OK, hub)
  | None => Some (LE_NOT_FOUND, hub)
  end.

(** The common shape of the five push functions.  The resource is looked up
    first; [valid] is the JSON check that only [io_PushJson] makes; the sample
    is made only then ([sample] is the factory call, given whether its
    allocation succeeds) and pushed. *)
Definition Push (allocSample allocCoerce : bool) (hub : Hub) (path : string)
    (ty : io_DataType_t) (valid : bool) (sample : bool → option DataSample)
  : option (le_result_t * Hub) :=
  match FindResource hub path with
  | None => Some (LE_NOT_FOUND, hub)
  | Some resRef =>
      if valid then
        match sample allocSample with
        | Some sampleRef =>
            '(ret, _, hub) ← resTree_Push now allocCoerce hub resRef ty sampleRef;
            Some (ret, hub)
        | None => Some (LE_NO_MEMORY, hub)
        end
      else Some (LE_BAD_PARAMETER, hub)
  end.

Definition io_PushTrigger a1 a2 hub path (ts : float) :=
  Push a1 a2 hub path IO_DATA_TYPE_TRIGGER true
    (λ a, dataSample_CreateTrigger a now ts).
Definition io_PushBoolean a1 a2 hub path (ts : float) (v : bool) :=
  Push a1 a2 hub path IO_DATA_TYPE_BOOLEAN true
    (λ a, dataSample_CreateBoolean a now ts v).
Definition io_PushNumeric a1 a2 hub path (ts : float) (v : float) :=
  Push a1 a2 hub path IO_DATA_TYPE_NUMERIC true
    (λ a, dataSample_CreateNumeric a now ts v).
Definition io_PushString a1 a2 hub path (ts : float) (v : string) :=
  Push a1 a2 hub path IO_DATA_TYPE_STRING true
    (λ a, dataSample_CreateString a now ts v).
Definition io_PushJson a1 a2 hub path (ts : float) (v : string) :=
  Push a1 a2 hub path IO_DATA_TYPE_JSON (json_IsValid v)
    (λ a, dataSample_CreateJson a now ts v).

(** [AddPushHandler]: the hub afterwards and the handler reference (NULL:
    [None]).  [alloc]: whether [handler_Add] gets its object. *)
Definition AddPushHandler (alloc : bool) (hub : Hub) (path : string)
    (ty : io_DataType_t) : option (Hub * option nat) :=
  let full :=
    match DHUB_IO_PUSH_HANDLER_COUNT with
    | Some limit => bool_decide (limit ≤ PushHandlerCount hub)
    | None => false
    end in
  if full then Some (hub, None)
  else
    match nsRef with
    | None => Some (hub, None)
    | Some ns =>
        match resTree_FindEntry (EntryPool hub) ns path with
        | None => Some (hub, None)
        | Some resRef =>
            ent ← EntryPool hub !! resRef;
            if negb (is_io (resTree_GetEntryType ent)) then Some (hub, None)
            else
              resPtr ← resourcePtr_of ent;
              match handler_Add alloc (HandlerRefs hub)
                      (pushHandlerList resPtr) ty with
              | (_, None) => Some (hub, None)
              | (handlers, Some handlerRef) =>
                  let resPtr := set_pushHandlerList resPtr handlers in
                  let hub :=
                    set_handlers
                      (set_EntryPool hub
                         (store_resource (EntryPool hub) resRef resPtr))
                      (PushHandlerCount hub) (S (HandlerRefs hub)) in
                  (* If the resource has a current value call the push handler
                     now (if it's a data type match). *)
                  ent ← EntryPool hub !! resRef;
                  hub ←
                    match resTree_GetCurrentValue ent with
                    | Some sampleRef =>
                        haveType ← resTree_GetDataType ent;
                        Some (log hub
                                (handler_Call (mkHandler handlerRef ty) haveType
                                   sampleRef))
                    | None => Some hub
                    end;
                  Some (set_handlers hub (S (PushHandlerCount hub))
                          (HandlerRefs hub),
                        Some handlerRef)
              end
        end
    end.

Definition io_AddTriggerPushHandler a hub path :=
  AddPushHandler a hub path IO_DATA_TYPE_TRIGGER.
Definition io_AddBooleanPushHandler a hub path :=
  AddPushHandler a hub path IO_DATA_TYPE_BOOLEAN.
Definition io_AddNumericPushHandler a hub path :=
  AddPushHandler a hub path IO_DATA_TYPE_NUMERIC.
Definition io_AddStringPushHandler a hub path :=
  AddPushHandler a hub path IO_DATA_TYPE_STRING.
Definition io_AddJsonPushHandler a hub path :=
  AddPushHandler a hub path IO_DATA_TYPE_JSON.

(** [io_MarkOptional] returns nothing: the result is the hub afterwards. *)
Definition io_MarkOptional (hub : Hub) (path : string) : option Hub :=
  match FindResource hub path with
  | None => Some hub
  | Some resRef =>
      ent ← EntryPool hub !! resRef;
      if decide (resTree_GetEntryType ent ≠ ADMIN_ENTRY_TYPE_OUTPUT)
      then Some hub
      else
        resPtr ← resourcePtr_of ent;
        Some (set_EntryPool hub
                (store_resource (EntryPool hub) resRef
                   (ioPoint_MarkOptional resPtr)))
  end.

(** [resTree_HasDefault] reads the resource of the entry. *)
Definition resTree_HasDefault (resEntry : Entry_t) : option bool :=
  resPtr ← resourcePtr_of resEntry;
  Some (bool_decide (defaultValue resPtr ≠ None)).

(** [resTree_SetDefault], with the result code [resTree.h] declares. *)
Definition resTree_SetDefault (hub : Hub) (resEntry : EntryRef)
    (ty : io_DataType_t) (v : DataSample) : option (le_result_t * Hub) :=
  resPtr ← resource_at (EntryPool hub) resEntry;
  let '(ret, resPtr) := res_SetDefault resPtr ty v in
  Some (ret, set_EntryPool hub (store_resource (EntryPool hub) resEntry resPtr)).

(** The common shape of the default setters; [valid] is the JSON check that
    only [io_SetJsonDefault] makes, after it found that there is no default. *)
Definition SetDefault (alloc : bool) (hub : Hub) (path : string)
    (ty : io_DataType_t) (valid : bool) (v : SampleValue)
  : option (le_result_t * Hub) :=
  match FindResource hub path with
  | None => Some (LE_NOT_FOUND, hub)
  | Some resRef =>
      ent ← EntryPool hub !! resRef;
      haveType ← resTree_GetDataType ent;
      if decide (haveType ≠ ty) then Some (LE_BAD_PARAMETER, hub)
      else
        hasDefault ← resTree_HasDefault ent;
        if negb hasDefault then
          if valid then
            match CreateSample alloc now 0 v with
            | Some sampleRef => resTree_SetDefault hub resRef ty sampleRef
            | None => Some (LE_NO_MEMORY, hub)
            end
          else Some (LE_BAD_PARAMETER, hub)
        else Some (LE_DUPLICATE, hub)
  end.

Definition io_SetBooleanDefault a hub path (v : bool) :=
  SetDefault a hub path IO_DATA_TYPE_BOOLEAN true (ValBoolean v).
Definition io_SetNumericDefault a hub path (v : float) :=
  SetDefault a hub path IO_DATA_TYPE_NUMERIC true (ValNumeric v).
Definition io_SetStringDefault a hub path (v : string) :=
  SetDefault a hub path IO_DATA_TYPE_STRING true (ValString v).
Definition io_SetJsonDefault a hub path (v : string) :=
  SetDefault a hub path IO_DATA_TYPE_JSON (json_IsValid v) (ValJson v).

(** [GetCurrentValue]: NULL when the resource has another data type. *)
Definition GetCurrentValue (resRef : Entry_t) (ty : io_DataType_t)
  : option (option DataSample) :=
  haveType ← resTree_GetDataType resRef;
  if decide (haveType ≠ ty) then Some None
  else Some (resTree_GetCurrentValue resRef).

(** The getters.  An output parameter that was not written is [None]. *)
Definition io_GetTimestamp (hub : Hub) (path : string)
  : option (le_result_t * option float) :=
  match FindResource hub path with
  | None => Some (LE_NOT_FOUND, None)
  | Some resRef =>
      ent ← EntryPool hub !! resRef;
      match resTree_GetCurrentValue ent with
      | None => Some (LE_UNAVAILABLE, None)
      | Some currentValue =>
          Some (LE_OK, Some (dataSample_GetTimestamp currentValue))
      end
  end.

Definition io_GetBoolean (hub : Hub) (path : string)
  : option (le_result_t * option float * option bool) :=
  match FindResource hub path with
  | None => Some (LE_NOT_FOUND, None, None)
  | Some resRef =>
      ent ← EntryPool hub !! resRef;
      currentValue ← GetCurrentValue ent IO_DATA_TYPE_BOOLEAN;
      match currentValue with
      | None => Some (LE_UNAVAILABLE, None, None)
      | Some currentValue =>
          Some (LE_OK, Some (dataSample_GetTimestamp currentValue),
                Some (dataSample_GetBoolean currentValue))
      end
  end.

Definition io_GetNumeric (hub : Hub) (path : string)
  : option (le_result_t * option float * option float) :=
  match FindResource hub path with
  | None => Some (LE_NOT_FOUND, None, None)
  | Some resRef =>
      ent ← EntryPool hub !! resRef;
      currentValue ← GetCurrentValue ent IO_DATA_TYPE_NUMERIC;
      match currentValue with
      | None => Some (LE_UNAVAILABLE, None, None)
      | Some currentValue =>
          Some (LE_OK, Some (dataSample_GetTimestamp currentValue),
                Some (dataSample_GetNumeric currentValue))
      end
  end.

Definition io_GetString (hub : Hub) (path : string) (valueSize : nat)
  : option (le_result_t * option float * option string) :=
  match FindResource hub path with
  | None => Some (LE_NOT_FOUND, None, None)
  | Some resRef =>
      ent ← EntryPool hub !! resRef;
      currentValue ← GetCurrentValue ent IO_DATA_TYPE_STRING;
      match currentValue with
      | None => Some (LE_UNAVAILABLE, None, None)
      | Some currentValue =>
          let '(ret, text) :=
            copy_out (dataSample_GetString currentValue) valueSize in
          Some (ret, Some (dataSample_GetTimestamp currentValue), Some text)
      end
  end.

(** [io_GetJson] takes a value of any type; an overflowing conversion leaves
    the buffer as it was. *)
Definition io_GetJson (hub : Hub) (path : string) (valueSize : nat)
  : option (le_result_t * option float * option string) :=
  match FindResource hub path with
  | None => Some (LE_NOT_FOUND, None, None)
  | Some resRef =>
      ent ← EntryPool hub !! resRef;
      match resTree_GetCurrentValue ent with
      | None => Some (LE_UNAVAILABLE, None, None)
      | Some currentValue =>
          haveType ← resTree_GetDataType ent;
          let ts := Some (dataSample_GetTimestamp currentValue) in
          match dataSample_ConvertToJson currentValue haveType valueSize with
          | Some text => Some (LE_OK, ts, Some text)
          | None => Some (LE_OVERFLOW, ts, None)
          end
      end
  end.

End IoService.

(** ** A concrete hub *)

(** Stand-ins for the collaborators and for the absent modules, used to run
    the model on concrete inputs: a 64-bit target, 32-byte entry names, no
    limit on push handlers; a source link or a default value is an
    administrative setting. *)
Definition ex_collab : Collaborators := {|
  json_IsValid := λ _, true;
  json_ConvertToBoolean := λ s, negb (String.eqb s "false");
  json_ConvertToNumber := λ _, 1%float;
  format_lf := λ _, "1.000000";
  sizeof_ptr := 8;
|}.

Definition ex_config : HubConfig := {|
  HUB_MAX_ENTRY_NAME_BYTES := 32;
  RES_FLAG_NEW := 1;
  RES_FLAG_DELETED := 4;
  DHUB_IO_PUSH_HANDLER_COUNT := None;
|}.

Definition ex_resmod : ResourceModule := {|
  res_HasAdminSettings :=
    λ r, bool_decide (srcPtr r ≠ None ∨ defaultValue r ≠ None);
  res_CreatePlaceholder :=
    λ _, mkResource "" IO_DATA_TYPE_TRIGGER false None None None None None [];
  res_MoveAdminSettings :=
    λ original replacement _,
      set_defaultValue (set_srcPtr replacement (srcPtr original))
        (defaultValue original);
  obs_Process := λ _ ty s, Some (ty, s);
  res_SetDefault := λ r ty s, (LE_OK, set_defaultValue r (Some (ty, s)));
|}.

Definition ex_entry (children : list string) (t : admin_EntryType_t)
    (v : EntryUnion) : Entry_t := mkEntry children t v (S (length children)).

Definition ex_numeric : res_Resource_t :=
  mkResource "degC" IO_DATA_TYPE_NUMERIC false
    (Some (mkSample 5 (ValNumeric 21))) None
    (Some (IO_DATA_TYPE_NUMERIC, mkSample 1 (ValNumeric 20))) None None [].

Definition ex_json : res_Resource_t :=
  mkResource "" IO_DATA_TYPE_JSON true None None None None None [].

(** The client namespace of the example hub. *)
Definition ex_ns : EntryRef := ["app1"; "app"].

(** [/app/app1] with a numeric Input [temp] that has a current and a default
    value, a JSON Output [cfg] without a value, a Placeholder [ghost], two
    deleted entries [old] and [gone], and a Namespace [dir]. *)
Definition ex_pool : gmap EntryRef Entry_t :=
  list_to_map [
    ([], ex_entry ["app"] ADMIN_ENTRY_TYPE_NAMESPACE (U_flags 0));
    (["app"], ex_entry ["app1"] ADMIN_ENTRY_TYPE_NAMESPACE (U_flags 0));
    (ex_ns,
     ex_entry ["old"; "gone"; "temp"; "cfg"; "ghost"; "dir"]
       ADMIN_ENTRY_TYPE_NAMESPACE (U_flags 0));
    ("old" :: ex_ns, ex_entry [] ADMIN_ENTRY_TYPE_NAMESPACE (U_flags 4));
    ("gone" :: ex_ns, ex_entry [] ADMIN_ENTRY_TYPE_NAMESPACE (U_flags 4));
    ("temp" :: ex_ns,
     ex_entry [] ADMIN_ENTRY_TYPE_INPUT (U_resourcePtr (Some ex_numeric)));
    ("cfg" :: ex_ns,
     ex_entry [] ADMIN_ENTRY_TYPE_OUTPUT (U_resourcePtr (Some ex_json)));
    ("ghost" :: ex_ns,
     ex_entry [] ADMIN_ENTRY_TYPE_PLACEHOLDER
       (U_resourcePtr (Some (Create IO_DATA_TYPE_TRIGGER))));
    ("dir" :: ex_ns, ex_entry [] ADMIN_ENTRY_TYPE_NAMESPACE (U_flags 0))
  ].

Definition ex_hub : Hub := mkHub ex_pool [] 0 0 true false.

(** The example pool with one route: [temp] is the source of [cfg]. *)
Definition ex_routed : gmap EntryRef Entry_t :=
  store_resource ex_pool ("cfg" :: ex_ns)
    (set_srcPtr ex_json (Some ("temp" :: ex_ns))).

(** A string of [n] letters. *)
Definition letters (n : nat) : string := text_of (replicate n "a"%char).

(** ** Vocabulary of the statements *)

(** [result] is the timestamp a sample made from a sample stamped [ts]
    carries: [ts] itself, or the clock reading [now] when [ts] is [IO_NOW]. *)
Definition stamped (now ts result : float) : Prop :=
  result = ts ∨ (PrimFloat.eqb ts IO_NOW = true ∧ result = now).

(** Every I/O operation that takes a path answers, for [path], what it
    answers for a path where nothing is: not found, no output parameter
    written, the hub as it was. *)
Definition answers_not_found `{Col : Collaborators} `{Cfg : HubConfig}
    `{Res : ResourceModule} (nsRef : option EntryRef) (now : float)
    (hub : Hub) (path : string) : Prop :=
  (∀ a1 a2 ts,
     io_PushTrigger nsRef now a1 a2 hub path ts = Some (LE_NOT_FOUND, hub))
  ∧ (∀ a1 a2 ts v,
       io_PushBoolean nsRef now a1 a2 hub path ts v = Some (LE_NOT_FOUND, hub))
  ∧ (∀ a1 a2 ts v,
       io_PushNumeric nsRef now a1 a2 hub path ts v = Some (LE_NOT_FOUND, hub))
  ∧ (∀ a1 a2 ts v,
       io_PushString nsRef now a1 a2 hub path ts v = Some (LE_NOT_FOUND, hub))
  ∧ (∀ a1 a2 ts v,
       io_PushJson nsRef now a1 a2 hub path ts v = Some (LE_NOT_FOUND, hub))
  ∧ io_GetTimestamp nsRef hub path = Some (LE_NOT_FOUND, None)
  ∧ io_GetBoolean nsRef hub path = Some (LE_NOT_FOUND, None, None)
  ∧ io_GetNumeric nsRef hub path = Some (LE_NOT_FOUND, None, None)
  ∧ (∀ size, io_GetString nsRef hub path size = Some (LE_NOT_FOUND, None, None))
  ∧ (∀ size, io_GetJson nsRef hub path size = Some (LE_NOT_FOUND, None, None))
  ∧ io_DeleteResource nsRef hub path = Some (LE_NOT_FOUND, hub)
  ∧ io_MarkOptional nsRef hub path = Some hub
  ∧ (∀ a v, io_SetBooleanDefault nsRef now a hub path v
            = Some (LE_NOT_FOUND, hub))
  ∧ (∀ a v, io_SetNumericDefault nsRef now a hub path v
            = Some (LE_NOT_FOUND, hub))
  ∧ (∀ a v, io_SetStringDefault nsRef now a hub path v
            = Some (LE_NOT_FOUND, hub))
  ∧ (∀ a v, io_SetJsonDefault nsRef now a hub path v
            = Some (LE_NOT_FOUND, hub)).

(** Following the source links from [r] comes to [d], in no step or more. *)
Inductive reaches (pool : gmap EntryRef Entry_t) : EntryRef → EntryRef → Prop :=
  | reaches_here r : reaches pool r r
  | reaches_next r r' d :
      src_of pool r = Some r' → reaches pool r' d → reaches pool r d.

(** The route graph has no loop: no resource is upstream of itself. *)
Definition acyclic (pool : gmap EntryRef Entry_t) : Prop :=
  ∀ r r', src_of pool r = Some r' → ¬ reaches pool r' r.

(** ** More of the resource tree ([resTree.c]) *)

Section TreePaths.
Context `{Cfg : HubConfig} `{Res : ResourceModule}.

Definition resTree_GetRoot : EntryRef := RootPtr.

Definition resTree_GetEntryName (entryRef : EntryRef) : string := name entryRef.

(** [resTree_FindEntryAtAbsolutePath]: the path must start with a slash,
    which is skipped. *)
Definition resTree_FindEntryAtAbsolutePath (pool : Pool) (path : string)
  : option EntryRef :=
  match path with
  | String c rest =>
      if decide (c ≠ SLASH) then None
      else resTree_FindEntry pool resTree_GetRoot rest
  | EmptyString => None
  end.

End TreePaths.


(** ** The flags of an entry ([resTree.c]) *)

(** The third flag of [resource.h] and what [resource.c], which is not among
    the sources, keeps for a resource in place of the flags of a
    Namespace. *)
Class ResourceFlags := {
  RES_FLAG_RELEVANT : N;
  res_SetRelevance : res_Resource_t → bool → res_Resource_t;
  res_IsRelevant : res_Resource_t → bool;
  res_ClearNewness : res_Resource_t → res_Resource_t;
  res_IsNew : res_Resource_t → bool;
}.

Section TreeFlags.
Context `{Cfg : HubConfig} `{Flg : ResourceFlags}.

(** [flags |= flag] and [flags &= ~flag] on the 32-bit flags word. *)
Definition set_flag (flags flag : N) : N := N.lor flags flag.
Definition clear_flag (flags flag : N) : N := N.ldiff flags flag.

(** [resTree_SetRelevance]; [None]: the entry is no Namespace and has no
    resource. *)
Definition resTree_SetRelevance (resEntry : Entry_t) (relevant : bool)
  : option Entry_t :=
  if decide (type resEntry = ADMIN_ENTRY_TYPE_NAMESPACE) then
    let flags :=
      if relevant then set_flag (flags_of resEntry) RES_FLAG_RELEVANT
      else clear_flag (flags_of resEntry) RES_FLAG_RELEVANT in
    Some (set_type_u resEntry (type resEntry) (U_flags flags))
  else
    r ← resourcePtr_of resEntry;
    Some (set_type_u resEntry (type resEntry)
            (U_resourcePtr (Some (res_SetRelevance r relevant)))).

Definition resTree_IsRelevant (resEntry : Entry_t) : option bool :=
  if decide (type resEntry = ADMIN_ENTRY_TYPE_NAMESPACE)
  then Some (has_flag (flags_of resEntry) RES_FLAG_RELEVANT)
  else res_IsRelevant <$> resourcePtr_of resEntry.

Definition resTree_ClearNewness (resEntry : Entry_t) : option Entry_t :=
  if decide (type resEntry = ADMIN_ENTRY_TYPE_NAMESPACE) then
    Some (set_type_u resEntry (type resEntry)
            (U_flags (clear_flag (flags_of resEntry) RES_FLAG_NEW)))
  else
    r ← resourcePtr_of resEntry;
    Some (set_type_u resEntry (type resEntry)
            (U_resourcePtr (Some (res_ClearNewness r)))).

Definition resTree_IsNew (resEntry : Entry_t) : option bool :=
  if decide (type resEntry = ADMIN_ENTRY_TYPE_NAMESPACE)
  then Some (has_flag (flags_of resEntry) RES_FLAG_NEW)
  else res_IsNew <$> resourcePtr_of resEntry.

End TreeFlags.


(** ** Mandatory outputs ([resTree.c]) *)




(** ** Visiting every resource ([resTree.c]) *)

Section Traversal.
Context `{Cfg : HubConfig}.

(** [ForEachResourceUnder]: the calls of [func] in the order made, each
    given as the entry whose resource is handed over and the entry type.
    The recursion goes down the tree, one unit of [fuel] a level; [None]:
    the fuel ran out, or an entry on the way is not allocated. *)
Fixpoint ForEachResourceUnder (fuel : nat) (pool : Pool) (entryPtr : EntryRef)
  : option (list (EntryRef * admin_EntryType_t)) :=
  match fuel with
  | 0 => None
  | S fuel =>
      ent ← pool !! entryPtr;
      foldr
        (λ link later,
           let childPtr := link :: entryPtr in
           child ← pool !! childPtr;
           let call :=
             if decide (type child ≠ ADMIN_ENTRY_TYPE_NAMESPACE
                        ∧ resourcePtr_of child ≠ None)
             then [(childPtr, type child)] else [] in
           below ← ForEachResourceUnder fuel pool childPtr;
           (* Go to next sibling *)
           rest ← later;
           Some (call ++ below ++ rest))
        (Some []) (childList ent)
  end.

Definition resTree_ForEachResource (fuel : nat) (pool : Pool) :=
  ForEachResourceUnder fuel pool RootPtr.

End Traversal.

(** ** Vocabulary of the further statements *)

(** What one iteration of the loop of [GoToEntry] that is told to create does
    to the pool on its way from [cur] to the child called [nm]: nothing when
    the child is there, a resurrection when it is there as a deleted entry, a
    new entry linked to [cur] when it is not there. *)
Inductive descends `{Cfg : HubConfig} (pool : Pool) (cur : EntryRef)
    (nm : string) : Pool → Prop :=
  | descends_found ent child :
      pool !! cur = Some ent → nm ∈ childList ent →
      pool !! (nm :: cur) = Some child →
      resTree_IsDeleted child = false →
      descends pool cur nm pool
  | descends_resurrect ent child :
      pool !! cur = Some ent → nm ∈ childList ent →
      pool !! (nm :: cur) = Some child →
      resTree_IsDeleted child = true →
      childList child = [] →
      descends pool cur nm
        (<[nm :: cur := set_type_u child (type child) (U_flags RES_FLAG_NEW)]>
           pool)
  | descends_fresh ent :
      pool !! cur = Some ent →
      (nm ∉ childList ent ∨ pool !! (nm :: cur) = None) →
      descends pool cur nm
        (<[nm :: cur := mkEntry [] ADMIN_ENTRY_TYPE_NAMESPACE
                          (U_flags RES_FLAG_NEW) 1]>
           (<[cur := set_childList (set_refCount ent (S (refCount ent)))
                       (childList ent ++ [nm])]> pool)).

(** Entry names joined by slashes: a path, as [resTree_GetPath] prints it. *)
Fixpoint join_names (names : list string) : string :=
  match names with
  | [] => ""
  | [nm] => nm
  | nm :: rest => nm +:+ "/" +:+ join_names rest
  end.

(** A path without the slash it may start with. *)
Definition skip_slash (path : string) : string :=
  match path with
  | String c rest => if decide (c = SLASH) then rest else path
  | EmptyString => ""
  end.

(** The path of an entry relative to [baseNamespace] as [resTree_GetPath]
    prints it: below the Root, with a slash in front. *)
Definition printed (baseNamespace : EntryRef) (path : string) : string :=
  if decide (baseNamespace = RootPtr) then "/" +:+ path else path.

(** The shape of the tree that [AddChild] and [EntryDestructor] maintain: an
    allocated entry other than the Root has its parent allocated; the child
    list of an entry names each of its allocated children once and nothing
    else; every child holds a reference to its parent; and an allocated
    entry is referenced. *)
Definition tree_ok (pool : gmap EntryRef Entry_t) : Prop :=
  (∀ c p, is_Some (pool !! (c :: p)) → is_Some (pool !! p))
  ∧ ∀ p ent, pool !! p = Some ent →
      NoDup (childList ent)
      ∧ (∀ c, c ∈ childList ent ↔ is_Some (pool !! (c :: p)))
      ∧ length (childList ent) ≤ refCount ent
      ∧ 0 < refCount ent.

(** A string that can name an entry: not empty, shorter than the name
    buffer, without a slash and without the characters a path may not
    have. *)
Definition entry_name `{Cfg : HubConfig} (nm : string) : Prop :=
  nm ≠ ""
  ∧ String.length nm < HUB_MAX_ENTRY_NAME_BYTES
  ∧ ∀ c, c ∈ chars nm → c ∉ [SLASH; "."%char; "["%char; "]"%char].

(** The entry [k] holds a resource and has the type [t]: what
    [ForEachResourceUnder] hands to its callback. *)
Definition resource_entry (pool : gmap EntryRef Entry_t) (k : EntryRef)
    (t : admin_EntryType_t) : Prop :=
  ∃ ent, pool !! k = Some ent ∧ type ent = t
         ∧ t ≠ ADMIN_ENTRY_TYPE_NAMESPACE ∧ resourcePtr_of ent ≠ None.

(** In a list of calls, an entry comes no later than the entries below it. *)
Definition parents_first (calls : list (EntryRef * admin_EntryType_t)) : Prop :=
  ∀ i j k t k' t',
    calls !! i = Some (k, t) → calls !! j = Some (k', t') →
    k `suffix_of` k' → i ≤ j.


(** The tree after [a/b] has been made below the Root of a new tree. *)
Definition ex_grown : gmap EntryRef Entry_t :=
  list_to_map [
    ([], mkEntry ["a"] ADMIN_ENTRY_TYPE_NAMESPACE (U_flags 1) 2);
    (["a"], mkEntry ["b"] ADMIN_ENTRY_TYPE_NAMESPACE (U_flags 1) 2);
    (["b"; "a"], mkEntry [] ADMIN_ENTRY_TYPE_NAMESPACE (U_flags 1) 1)
  ].

(** A hub that has just been initialised; no deletion is tracked. *)
Definition ex_new_hub : Hub :=
  mkHub (resTree_Init (Cfg := ex_config)) [] 0 0 false false.

(** Stand-ins for the flags kept by [resource.c]: the relevance flag is the
    bit between the two of [ex_config]. *)
Definition ex_flags : ResourceFlags := {|
  RES_FLAG_RELEVANT := 2;
  res_SetRelevance := λ r _, r;
  res_IsRelevant := λ _, false;
  res_ClearNewness := λ r, r;
  res_IsNew := λ _, false;
|}.

(** The example hub after the Placeholder [ghost] was made a numeric Input. *)
Definition ex_upgraded : Hub :=
  mkHub
    (ReplaceResource (Res := ex_resmod) ex_pool ("ghost" :: ex_ns)
       (res_CreateInput IO_DATA_TYPE_NUMERIC "degC") ADMIN_ENTRY_TYPE_INPUT)
    [ResourceTreeChanged "/app/app1/ghost" ADMIN_ENTRY_TYPE_INPUT
       ADMIN_RESOURCE_ADDED]
    0 0 true false.

(** A build that allows one push handler, and a hub that has it already. *)
Definition ex_limited : HubConfig := {|
  HUB_MAX_ENTRY_NAME_BYTES := 32;
  RES_FLAG_NEW := 1;
  RES_FLAG_DELETED := 4;
  DHUB_IO_PUSH_HANDLER_COUNT := Some 1;
|}.

Definition ex_full_hub : Hub := mkHub ex_pool [] 1 1 true false.

(** The tree of a new hub after the numeric Input [room/temp] was made below
    the Root. *)
Definition ex_room : gmap EntryRef Entry_t :=
  list_to_map [
    ([], mkEntry ["room"] ADMIN_ENTRY_TYPE_NAMESPACE (U_flags 1) 2);
    (["room"], mkEntry ["temp"] ADMIN_ENTRY_TYPE_NAMESPACE (U_flags 1) 2);
    (["temp"; "room"],
     mkEntry [] ADMIN_ENTRY_TYPE_INPUT
       (U_resourcePtr (Some (res_CreateInput IO_DATA_TYPE_NUMERIC "degC"))) 1)
  ].

(** * Properties *)

(** ** Tombstones *)

Section Tombstones.
Context `{Cfg : HubConfig}.

Lemma has_flag_zero flag : has_flag 0 flag = false.
Proof. unfold has_flag. by rewrite N.land_0_l. Qed.

Lemma IsDeleted_flags resEntry :
  resTree_IsDeleted resEntry = true →
  type resEntry = ADMIN_ENTRY_TYPE_NAMESPACE
  ∧ ∃ flags, u resEntry = U_flags flags ∧ has_flag flags RES_FLAG_DELETED = true.
Proof.
  unfold resTree_IsDeleted, flags_of.
  case_decide as Hty; [|done].
  destruct (u resEntry) as [flags|r] eqn:Hu.
  - eauto.
  - by rewrite has_flag_zero.
Qed.

Lemma FindChild_loop_Some pool nsRef nm withZombies links c :
  FindChild_loop pool nsRef nm withZombies links = Some c →
  ∃ child, pool !! c = Some child
           ∧ (withZombies = false → resTree_IsDeleted child = false).
Proof.
  induction links as [|link rest IH]; simpl; [done|].
  destruct (pool !! (link :: nsRef)) as [child|] eqn:Hchild; [|done].
  destruct ((withZombies || negb (resTree_IsDeleted child))
            && strncmp_eq HUB_MAX_ENTRY_NAME_BYTES nm link) eqn:Htest; [|done].
  intros [= <-]. exists child. split; [done|]. intros ->.
  apply andb_true_iff in Htest as [Hdel _]. simpl in Hdel.
  by apply negb_true_iff.
Qed.

Lemma FindChildEx_Some pool nsRef nm withZombies c :
  resTree_FindChildEx pool nsRef nm withZombies = Some c →
  ∃ child, pool !! c = Some child
           ∧ (withZombies = false → resTree_IsDeleted child = false).
Proof.
  unfold resTree_FindChildEx. destruct (pool !! nsRef); [|done].
  apply FindChild_loop_Some.
Qed.

Lemma GetFirstChildEx_Some pool entryRef withZombies c :
  resTree_GetFirstChildEx pool entryRef withZombies = Some c →
  ∃ child, pool !! c = Some child
           ∧ (withZombies = false → resTree_IsDeleted child = false).
Proof.
  unfold resTree_GetFirstChildEx.
  destruct (pool !! entryRef) as [ent|]; [|done].
  destruct (childList ent) as [|link ?]; [done|].
  destruct (pool !! (link :: entryRef)) as [child|] eqn:Hchild; [|done].
  destruct (withZombies || negb (resTree_IsDeleted child)) eqn:Htest; [|done].
  intros [= <-]. exists child. split; [done|]. intros ->.
  by apply negb_true_iff.
Qed.

Lemma GetNextSiblingEx_Some pool entryRef withZombies c :
  resTree_GetNextSiblingEx pool entryRef withZombies = Some c →
  ∃ child, pool !! c = Some child
           ∧ (withZombies = false → resTree_IsDeleted child = false).
Proof.
  unfold resTree_GetNextSiblingEx.
  destruct (parentPtr entryRef) as [parent|]; [|done].
  destruct (pool !! parent) as [parentEnt|]; [|done].
  destruct (le_dls_PeekNext _ _) as [link|]; [|done].
  destruct (pool !! (link :: parent)) as [child|] eqn:Hchild; [|done].
  destruct (withZombies || negb (resTree_IsDeleted child)) eqn:Htest; [|done].
  intros [= <-]. exists child. split; [done|]. intros ->.
  by apply negb_true_iff.
Qed.

End Tombstones.

(** C7. An entry whose deleted flag is set is a Namespace whose union holds
    flags, so it has no resource body; [resTree_FindChild],
    [resTree_GetFirstChild] and [resTree_GetNextSibling] return allocated
    entries that are not deleted; and in the example pool the three
    [withZombies] forms each return a deleted entry where the plain forms
    return none. *)
Theorem tombstones_are_bare_and_hidden `{Cfg : HubConfig} :
  (∀ resEntry,
     resTree_IsDeleted resEntry = true →
     type resEntry = ADMIN_ENTRY_TYPE_NAMESPACE
     ∧ resourcePtr_of resEntry = None
     ∧ resTree_IsResource resEntry = false)
  ∧ (∀ pool nsRef nm c,
       resTree_FindChild pool nsRef nm = Some c →
       ∃ child, pool !! c = Some child ∧ resTree_IsDeleted child = false)
  ∧ (∀ pool entryRef c,
       resTree_GetFirstChild pool entryRef = Some c →
       ∃ child, pool !! c = Some child ∧ resTree_IsDeleted child = false)
  ∧ (∀ pool entryRef c,
       resTree_GetNextSibling pool entryRef = Some c →
       ∃ child, pool !! c = Some child ∧ resTree_IsDeleted child = false)
  ∧ (∃ child,
       ex_pool !! ("old" :: ex_ns) = Some child
       ∧ resTree_IsDeleted (Cfg := ex_config) child = true
       ∧ resTree_FindChildEx (Cfg := ex_config) ex_pool ex_ns "old" true
         = Some ("old" :: ex_ns)
       ∧ resTree_GetFirstChildEx (Cfg := ex_config) ex_pool ex_ns true
         = Some ("old" :: ex_ns)
       ∧ resTree_GetNextSiblingEx (Cfg := ex_config) ex_pool ("old" :: ex_ns)
           true
         = Some ("gone" :: ex_ns)
       ∧ resTree_FindChild (Cfg := ex_config) ex_pool ex_ns "old" = None
       ∧ resTree_GetFirstChild (Cfg := ex_config) ex_pool ex_ns = None).
Proof.
  split_and!.
  - intros resEntry Hdel.
    destruct (IsDeleted_flags _ Hdel) as (Hty & flags & Hu & _).
    unfold resTree_IsResource, resourcePtr_of. rewrite Hu.
    split_and!; [done..|]. by case_decide.
  - intros pool nsRef nm c Hfind.
    destruct (FindChildEx_Some _ _ _ _ _ Hfind) as (child & ? & Hdel). eauto.
  - intros pool entryRef c Hfind.
    destruct (GetFirstChildEx_Some _ _ _ _ Hfind) as (child & ? & Hdel). eauto.
  - intros pool entryRef c Hfind.
    destruct (GetNextSiblingEx_Some _ _ _ _ Hfind) as (child & ? & Hdel). eauto.
  - eexists. split; [by vm_compute|]. by vm_compute.
Qed.

(** ** Type coercion *)

Section CoercionFacts.
Context `{Col : Collaborators}.

Lemma CreateSample_Some alloc now ts v s :
  CreateSample alloc now ts v = Some s →
  alloc = true ∧ value s = v ∧ stamped now ts (timestamp s).
Proof.
  unfold CreateSample, stamped. destruct alloc; [|done]. intros [= <-]. simpl.
  destruct (PrimFloat.eqb ts IO_NOW); auto.
Qed.

(** An accepted coercion yields the declared type, a sample of that type and
    the timestamp of the sample that came in. *)
Lemma DoTypeCoercion_ok now alloc resPtr fromType fromSample toType toSample :
  sample_type fromSample = fromType →
  ioPoint_DoTypeCoercion now alloc resPtr fromType fromSample
  = (LE_OK, toType, toSample) →
  toType = dataType resPtr
  ∧ sample_type toSample = dataType resPtr
  ∧ stamped now (timestamp fromSample) (timestamp toSample).
Proof.
  intros Hfrom. unfold ioPoint_DoTypeCoercion.
  unfold dataSample_CreateTrigger, dataSample_CreateBoolean,
    dataSample_CreateNumeric, dataSample_CreateString, dataSample_CreateJson,
    dataSample_GetTimestamp.
  destruct (dataType resPtr) eqn:Hto, fromType eqn:Hty; simpl;
    repeat case_decide; try done;
    try (intros [= <- <-]; rewrite Hfrom; unfold stamped; by auto);
    match goal with
    | |- context [CreateSample ?a ?n ?t ?v] =>
        destruct (CreateSample a n t v) as [s|] eqn:Hs;
        [ apply CreateSample_Some in Hs as (_ & Hv & Hts);
          intros [= <- <-]; unfold sample_type; rewrite Hv; by auto
        | by destruct a ]
    end.
Qed.

(** With memory available every one of the 25 coercions succeeds. *)
Lemma DoTypeCoercion_alloc now resPtr fromType fromSample :
  ∃ toType toSample,
    ioPoint_DoTypeCoercion now true resPtr fromType fromSample
    = (LE_OK, toType, toSample).
Proof.
  unfold ioPoint_DoTypeCoercion.
  destruct (dataType resPtr), fromType; simpl; repeat case_decide; eauto.
Qed.

End CoercionFacts.

Section BufferFacts.

Lemma cstr_terminated (l rest : list ascii) :
  NUL ∉ l → cstr (l ++ NUL :: rest) = l.
Proof.
  induction l as [|c l IH]; intros Hnul.
  - done.
  - apply not_elem_of_cons in Hnul as [Hc Hl].
    change (cstr ((c :: l) ++ NUL :: rest))
      with (if decide (c = NUL) then [] else c :: cstr (l ++ NUL :: rest)).
    case_decide; [congruence|]. by rewrite IH.
Qed.

Lemma snprintf_fits buf size text :
  length text < size →
  snprintf buf size text
  = (text ++ NUL :: drop (S (length text)) buf, length text).
Proof.
  intros Hlen. destruct size as [|room]; [lia|]. unfold snprintf.
  rewrite take_ge by lia. rewrite length_app. simpl.
  rewrite Nat.add_1_r. by rewrite <- app_assoc.
Qed.

Lemma length_chars (s : string) : length (chars s) = String.length s.
Proof. induction s as [|c s IH]; simpl; [done|]. by rewrite <- IH. Qed.

(** A C string ends at or before any NUL of its buffer. *)
Lemma cstr_length_le (buf : list ascii) (i : nat) :
  buf !! i = Some NUL → length (cstr buf) ≤ i.
Proof.
  revert i. induction buf as [|c buf IH]; intros i Hi; [done|].
  change (cstr (c :: buf)) with (if decide (c = NUL) then [] else c :: cstr buf).
  case_decide; simpl; [lia|].
  destruct i as [|i]; simpl in Hi; [congruence|].
  specialize (IH i Hi). lia.
Qed.

Lemma length_text_of (l : list ascii) : String.length (text_of l) = length l.
Proof. induction l as [|c l IH]; simpl; [done|]. by rewrite IH. Qed.

End BufferFacts.

Section QuoteFacts.
Context `{Col : Collaborators}.

(** The quoted form of a string that leaves room for both quotes and the
    terminator is stored whole. *)
Lemma quote_string_fits (oldValue : string) :
  NUL ∉ chars oldValue →
  String.length oldValue + 2 < HUB_MAX_STRING_BYTES →
  quote_string oldValue = text_of (DQUOTE :: chars oldValue ++ [DQUOTE]).
Proof.
  intros Hnul Hlen. unfold quote_string.
  assert (length (DQUOTE :: chars oldValue ++ [DQUOTE])
          = String.length oldValue + 2) as Hl.
  { simpl. rewrite length_app, length_chars. simpl. lia. }
  rewrite snprintf_fits by lia. rewrite Hl.
  case_decide; [lia|]. f_equal.
  apply cstr_terminated.
  rewrite not_elem_of_cons, not_elem_of_app, not_elem_of_cons.
  split_and!; [done|done|done|apply not_elem_of_nil].
Qed.

(** Whatever the string, the text left in the conversion buffer is shorter
    than the buffer. *)
Lemma quote_string_bounded (oldValue : string) :
  String.length (quote_string oldValue) < HUB_MAX_STRING_BYTES.
Proof.
  unfold quote_string.
  set (T := DQUOTE :: chars oldValue ++ [DQUOTE]).
  unfold snprintf, HUB_MAX_STRING_BYTES at 1.
  set (B := (take IO_MAX_STRING_VALUE_LEN T ++ [NUL]) ++ _).
  rewrite length_text_of.
  assert (length B = HUB_MAX_STRING_BYTES) as HB.
  { unfold B. rewrite !length_app, length_drop, length_take. unfold new_buffer.
    rewrite length_replicate. change (length [NUL]) with 1.
    unfold HUB_MAX_STRING_BYTES. lia. }
  case_decide as Hn.
  - destruct (decide (sizeof_ptr < HUB_MAX_STRING_BYTES)) as [Hp|Hp].
    + eapply Nat.le_lt_trans; [|exact Hp].
      apply cstr_length_le. apply list_lookup_insert_eq.
      rewrite length_insert. lia.
    + rewrite !list_insert_ge by (rewrite ?length_insert; lia).
      enough (length (cstr B) ≤ IO_MAX_STRING_VALUE_LEN)
        by (unfold HUB_MAX_STRING_BYTES; lia).
      apply cstr_length_le. unfold B.
      assert (length (take IO_MAX_STRING_VALUE_LEN T)
              = IO_MAX_STRING_VALUE_LEN) as Htake.
      { rewrite length_take. unfold HUB_MAX_STRING_BYTES in Hn. lia. }
      rewrite <- app_assoc. rewrite lookup_app_r by lia.
      by rewrite Htake, Nat.sub_diag.
  - assert (length T < HUB_MAX_STRING_BYTES) as Hlt by lia.
    enough (length (cstr B) ≤ length T) by lia.
    apply cstr_length_le. unfold B.
    rewrite take_ge by (unfold HUB_MAX_STRING_BYTES in Hlt; lia).
    rewrite <- app_assoc. rewrite lookup_app_r by lia.
    by rewrite Nat.sub_diag.
Qed.

End QuoteFacts.

(** ** Pushing to an Input or Output *)

Section PushFacts.
Context `{Col : Collaborators} `{Cfg : HubConfig} `{Res : ResourceModule}.

Lemma store_resource_at (pool : gmap EntryRef Entry_t) entryRef ent r :
  pool !! entryRef = Some ent →
  resource_at (store_resource pool entryRef r) entryRef = Some r.
Proof.
  intros Hent. unfold resource_at, store_resource. rewrite Hent.
  by rewrite lookup_insert_eq.
Qed.

Lemma is_io_cases entryType :
  is_io entryType = true →
  entryType = ADMIN_ENTRY_TYPE_INPUT ∨ entryType = ADMIN_ENTRY_TYPE_OUTPUT.
Proof. unfold is_io. by intros ?%bool_decide_eq_true. Qed.

(** What [res_Push] does with a sample pushed to an Input or Output. *)
Lemma res_Push_io now alloc inProgress entryType resPtr fromType fromSample :
  is_io entryType = true →
  sample_type fromSample = fromType →
  ∃ result accepted resPtr' evs,
    res_Push now alloc inProgress entryType resPtr fromType fromSample
    = (result, accepted, resPtr', evs)
    ∧ dataType resPtr' = dataType resPtr
    ∧ (accepted = true →
       result = LE_OK
       ∧ ∃ toSample,
           ioPoint_DoTypeCoercion now alloc resPtr fromType fromSample
           = (LE_OK, dataType resPtr, toSample)
           ∧ currentValue resPtr' = Some toSample)
    ∧ (alloc = true → inProgress = false → accepted = true).
Proof.
  intros Hio Hfrom. unfold res_Push. destruct inProgress.
  { eexists _, _, _, _. split; [done|]. by split_and!. }
  destruct (ioPoint_DoTypeCoercion now alloc resPtr fromType fromSample)
    as [[result toType] toSample] eqn:Hco.
  destruct (decide (result = LE_OK)) as [-> | Hbad].
  - destruct (DoTypeCoercion_ok _ _ _ _ _ _ _ Hfrom Hco) as (-> & _ & _).
    eexists _, _, _, _. split.
    { by destruct (is_io_cases _ Hio) as [-> | ->]. }
    split_and!; [done| |done]. intros _. split; [done|]. by eexists.
  - exists result, false, resPtr, []. split.
    { by destruct (is_io_cases _ Hio) as [-> | ->], result. }
    split_and!; [done|done|]. intros -> _.
    destruct (DoTypeCoercion_alloc now resPtr fromType fromSample)
      as (? & ? & Hok). congruence.
Qed.

Lemma resTree_Push_io now alloc hub entryRef ent resPtr ty sampleRef :
  EntryPool hub !! entryRef = Some ent →
  is_io (type ent) = true →
  resourcePtr_of ent = Some resPtr →
  resTree_Push now alloc hub entryRef ty sampleRef
  = let '(result, accepted, resPtr', evs) :=
      res_Push now alloc (UpdateInProgress hub) (type ent) resPtr ty sampleRef in
    Some (result, accepted,
          log (set_EntryPool hub
                 (store_resource (EntryPool hub) entryRef resPtr')) evs).
Proof.
  intros Hent Hio Hres. unfold resTree_Push. rewrite Hent. simpl.
  destruct (is_io_cases _ Hio) as [-> | ->]; by rewrite Hres.
Qed.

End PushFacts.

(** C1. A sample of any of the five types pushed to an Input or Output of any
    declared type: the push returns; if the sample is accepted, the current
    value of the resource is a sample of the declared type (which the push
    does not change) carrying the timestamp of the pushed sample (the clock
    reading, had that timestamp been [IO_NOW]); and the sample is accepted
    whenever memory is available and no update is in progress. *)
Theorem push_stores_declared_type_and_timestamp
    `{Col : Collaborators} `{Res : ResourceModule}
    now alloc hub entryRef ent resPtr fromType fromSample :
  EntryPool hub !! entryRef = Some ent →
  is_io (type ent) = true →
  resourcePtr_of ent = Some resPtr →
  sample_type fromSample = fromType →
  ∃ result accepted hub',
    resTree_Push now alloc hub entryRef fromType fromSample
    = Some (result, accepted, hub')
    ∧ (accepted = true →
       result = LE_OK
       ∧ ∃ resPtr' current,
           resource_at (EntryPool hub') entryRef = Some resPtr'
           ∧ dataType resPtr' = dataType resPtr
           ∧ currentValue resPtr' = Some current
           ∧ sample_type current = dataType resPtr
           ∧ stamped now (timestamp fromSample) (timestamp current))
    ∧ (alloc = true → UpdateInProgress hub = false → accepted = true).
Proof.
  intros Hent Hio Hres Hfrom.
  rewrite (resTree_Push_io _ _ _ _ _ _ _ _ Hent Hio Hres).
  destruct (res_Push_io now alloc (UpdateInProgress hub) (type ent) resPtr
              fromType fromSample Hio Hfrom)
    as (result & accepted & resPtr' & evs & -> & Hty & Hacc & Hlive).
  eexists _, _, _. split; [done|]. split; [|done].
  intros Htrue. destruct (Hacc Htrue) as (-> & toSample & Hco & Hcur).
  split; [done|]. exists resPtr', toSample. simpl.
  destruct (DoTypeCoercion_ok _ _ _ _ _ _ _ Hfrom Hco) as (_ & ? & ?).
  split_and!; try done. by eapply store_resource_at.
Qed.

Lemma push_stores_declared_type_and_timestamp_witness :
  (EntryPool ex_hub !! ("temp" :: ex_ns)
   = Some (ex_entry [] ADMIN_ENTRY_TYPE_INPUT (U_resourcePtr (Some ex_numeric)))
   ∧ is_io ADMIN_ENTRY_TYPE_INPUT = true
   ∧ sample_type (mkSample 7 (ValBoolean true)) = IO_DATA_TYPE_BOOLEAN)
  ∧ ∃ result accepted hub',
      resTree_Push (Col := ex_collab) (Res := ex_resmod) 9 true ex_hub
        ("temp" :: ex_ns) IO_DATA_TYPE_BOOLEAN (mkSample 7 (ValBoolean true))
      = Some (result, accepted, hub')
      ∧ (accepted = true →
         result = LE_OK
         ∧ ∃ resPtr' current,
             resource_at (EntryPool hub') ("temp" :: ex_ns) = Some resPtr'
             ∧ dataType resPtr' = dataType ex_numeric
             ∧ currentValue resPtr' = Some current
             ∧ sample_type current = dataType ex_numeric
             ∧ stamped 9 7 (timestamp current))
      ∧ (true = true → UpdateInProgress ex_hub = false → accepted = true).
Proof.
  split.
  - by vm_compute.
  - apply (push_stores_declared_type_and_timestamp (Col := ex_collab)
             (Res := ex_resmod) 9 true ex_hub
             ("temp" :: ex_ns)
             (ex_entry [] ADMIN_ENTRY_TYPE_INPUT
                (U_resourcePtr (Some ex_numeric)))
             ex_numeric IO_DATA_TYPE_BOOLEAN (mkSample 7 (ValBoolean true)));
      by vm_compute.
Defined.

(** C6, as amended. A string without NUL bytes pushed to a JSON-typed Input
    or Output: the push returns; if the sample is accepted the current value
    is a JSON sample with the timestamp of the pushed sample, whose text is
    shorter than the 1024-byte conversion buffer and, when the string leaves
    room for the two quotes and the terminator (at most 1021 bytes), is the
    string between double quotes; and the sample is accepted whenever memory
    is available and no update is in progress. *)
Theorem string_pushed_to_json_is_quoted_if_it_fits
    `{Col : Collaborators} `{Res : ResourceModule}
    now alloc hub entryRef ent resPtr (ts : float) (text : string) :
  EntryPool hub !! entryRef = Some ent →
  is_io (type ent) = true →
  resourcePtr_of ent = Some resPtr →
  dataType resPtr = IO_DATA_TYPE_JSON →
  NUL ∉ chars text →
  ∃ result accepted hub',
    resTree_Push now alloc hub entryRef IO_DATA_TYPE_STRING
      (mkSample ts (ValString text))
    = Some (result, accepted, hub')
    ∧ (accepted = true →
       result = LE_OK
       ∧ ∃ current stored,
           resource_at (EntryPool hub') entryRef ≫= currentValue = Some current
           ∧ value current = ValJson stored
           ∧ String.length stored < HUB_MAX_STRING_BYTES
           ∧ (String.length text + 2 < HUB_MAX_STRING_BYTES →
              stored = text_of (DQUOTE :: chars text ++ [DQUOTE]))
           ∧ stamped now ts (timestamp current))
    ∧ (alloc = true → UpdateInProgress hub = false → accepted = true).
Proof.
  intros Hent Hio Hres Hjson Hnul.
  rewrite (resTree_Push_io _ _ _ _ _ _ _ _ Hent Hio Hres).
  destruct (res_Push_io now alloc (UpdateInProgress hub) (type ent) resPtr
              IO_DATA_TYPE_STRING (mkSample ts (ValString text)) Hio eq_refl)
    as (result & accepted & resPtr' & evs & -> & Hty & Hacc & Hlive).
  eexists _, _, _. split; [done|]. split; [|done].
  intros Htrue. destruct (Hacc Htrue) as (-> & toSample & Hco & Hcur).
  split; [done|]. exists toSample, (quote_string text). simpl.
  rewrite (store_resource_at _ _ _ _ Hent). simpl. split; [done|].
  revert Hco. unfold ioPoint_DoTypeCoercion. rewrite Hjson. simpl.
  unfold dataSample_CreateJson.
  destruct (CreateSample _ _ _ _) as [s|] eqn:Hs; [|done].
  apply CreateSample_Some in Hs as (_ & Hv & Hts).
  intros [= <-]. split_and!; [done|apply quote_string_bounded| |done].
  intros Hlen. by apply quote_string_fits.
Qed.

Lemma string_pushed_to_json_is_quoted_if_it_fits_witness :
  (EntryPool ex_hub !! ("cfg" :: ex_ns)
   = Some (ex_entry [] ADMIN_ENTRY_TYPE_OUTPUT (U_resourcePtr (Some ex_json)))
   ∧ is_io ADMIN_ENTRY_TYPE_OUTPUT = true
   ∧ dataType ex_json = IO_DATA_TYPE_JSON
   ∧ (NUL ∉ chars "on"))
  ∧ ∃ result accepted hub',
      resTree_Push (Col := ex_collab) (Res := ex_resmod) 9 true ex_hub
        ("cfg" :: ex_ns) IO_DATA_TYPE_STRING (mkSample 7 (ValString "on"))
      = Some (result, accepted, hub')
      ∧ (accepted = true →
         result = LE_OK
         ∧ ∃ current stored,
             resource_at (EntryPool hub') ("cfg" :: ex_ns) ≫= currentValue
             = Some current
             ∧ value current = ValJson stored
             ∧ String.length stored < HUB_MAX_STRING_BYTES
             ∧ (String.length "on" + 2 < HUB_MAX_STRING_BYTES →
                stored = text_of (DQUOTE :: chars "on" ++ [DQUOTE]))
             ∧ stamped 9 7 (timestamp current))
      ∧ (true = true → UpdateInProgress ex_hub = false → accepted = true).
Proof.
  assert (NUL ∉ chars "on") as Hnul by (by apply (bool_decide_unpack _)).
  split.
  - split_and!; [by vm_compute|by vm_compute|by vm_compute|done].
  - apply (string_pushed_to_json_is_quoted_if_it_fits (Col := ex_collab)
             (Res := ex_resmod) 9 true ex_hub ("cfg" :: ex_ns)
             (ex_entry [] ADMIN_ENTRY_TYPE_OUTPUT
                (U_resourcePtr (Some ex_json)))
             ex_json 7 "on");
      [by vm_compute|by vm_compute|by vm_compute|by vm_compute|done].
Defined.

(** C6 fails for the longest strings. A string of 1022 letters pushed to the
    JSON Output of the example hub (64-bit target, memory available, no update
    in progress) is accepted, and the stored JSON text is a double quote and
    the first seven letters: neither the quoted string nor valid JSON. *)
Lemma long_string_pushed_to_json_is_cut :
  ∃ hub' current,
    resTree_Push (Col := ex_collab) (Res := ex_resmod) 9 true ex_hub
      ("cfg" :: ex_ns) IO_DATA_TYPE_STRING
      (mkSample 7 (ValString (letters 1022)))
    = Some (LE_OK, true, hub')
    ∧ resource_at (EntryPool hub') ("cfg" :: ex_ns) ≫= currentValue
      = Some current
    ∧ timestamp current = 7%float
    ∧ value current = ValJson (String.String DQUOTE (letters 7))
    ∧ value current
      ≠ ValJson (text_of (DQUOTE :: chars (letters 1022) ++ [DQUOTE])).
Proof.
  eexists _, _. split; [by vm_compute|]. split; [by vm_compute|].
  split; [by vm_compute|]. split; [by vm_compute|].
  vm_compute. discriminate.
Qed.

(** ** The I/O service *)

Section IoFacts.
Context `{Col : Collaborators} `{Cfg : HubConfig} `{Res : ResourceModule}.
Variable nsRef : option EntryRef.

Lemma FindResource_None_answers now hub path :
  FindResource nsRef hub path = None → answers_not_found nsRef now hub path.
Proof.
  intros Hfind. unfold answers_not_found.
  unfold io_PushTrigger, io_PushBoolean, io_PushNumeric, io_PushString,
    io_PushJson, Push, io_GetTimestamp, io_GetBoolean, io_GetNumeric,
    io_GetString, io_GetJson, io_DeleteResource, io_MarkOptional,
    io_SetBooleanDefault, io_SetNumericDefault, io_SetStringDefault,
    io_SetJsonDefault, SetDefault.
  rewrite Hfind. by split_and!.
Qed.

(** [FindResource] on an entry that is there. *)
Lemma FindResource_found hub path ns entryRef ent :
  nsRef = Some ns →
  resTree_FindEntry (EntryPool hub) ns path = Some entryRef →
  EntryPool hub !! entryRef = Some ent →
  FindResource nsRef hub path
  = if is_io (type ent) then Some entryRef else None.
Proof.
  intros -> Hfind Hent. unfold FindResource. simpl. rewrite Hfind. simpl.
  by rewrite Hent.
Qed.

Lemma FindResource_absent hub path ns :
  nsRef = Some ns →
  resTree_FindEntry (EntryPool hub) ns path = None →
  FindResource nsRef hub path = None.
Proof. intros -> Hfind. unfold FindResource. simpl. by rewrite Hfind. Qed.

Lemma FindResource_Some hub path resRef :
  FindResource nsRef hub path = Some resRef →
  ∃ ent, EntryPool hub !! resRef = Some ent ∧ is_io (type ent) = true.
Proof.
  unfold FindResource.
  destruct (nsRef ≫= _) as [entryRef|]; [simpl|done].
  destruct (EntryPool hub !! entryRef) as [ent|] eqn:Hent; [simpl|done].
  unfold resTree_GetEntryType. destruct (is_io (type ent)) eqn:Hio; [|done].
  intros [= <-]. eauto.
Qed.

Lemma io_entry_IsResource ent resPtr :
  is_io (type ent) = true →
  resourcePtr_of ent = Some resPtr →
  resTree_IsResource ent = true.
Proof.
  intros Hio Hres. unfold resTree_IsResource. rewrite Hres.
  destruct (is_io_cases _ Hio) as [-> | ->]; by case_decide.
Qed.

End IoFacts.

(** C9. When the path names an entry of the client's namespace that is a
    Namespace, a Placeholder or an Observation, every push, every getter,
    the deletion, mark-optional and every default setter answer not found
    (the two without a result do nothing) and leave the hub as it was; these
    are the answers for a path where there is no entry. *)
Theorem non_io_entry_is_treated_as_absent
    `{Col : Collaborators} `{Cfg : HubConfig} `{Res : ResourceModule}
    nsRef now hub path ns entryRef ent :
  nsRef = Some ns →
  resTree_FindEntry (EntryPool hub) ns path = Some entryRef →
  EntryPool hub !! entryRef = Some ent →
  type ent = ADMIN_ENTRY_TYPE_NAMESPACE
  ∨ type ent = ADMIN_ENTRY_TYPE_PLACEHOLDER
  ∨ type ent = ADMIN_ENTRY_TYPE_OBSERVATION →
  answers_not_found nsRef now hub path
  ∧ ∀ nowhere,
      resTree_FindEntry (EntryPool hub) ns nowhere = None →
      answers_not_found nsRef now hub nowhere.
Proof.
  intros Hns Hfind Hent Hkind. split.
  - apply FindResource_None_answers.
    rewrite (FindResource_found _ _ _ _ _ _ Hns Hfind Hent).
    by destruct Hkind as [-> | [-> | ->]].
  - intros nowhere Hnone. apply FindResource_None_answers.
    by eapply FindResource_absent.
Qed.

Lemma non_io_entry_is_treated_as_absent_witness :
  (Some ex_ns = Some ex_ns
   ∧ resTree_FindEntry (Cfg := ex_config) (EntryPool ex_hub) ex_ns "ghost"
     = Some ("ghost" :: ex_ns)
   ∧ EntryPool ex_hub !! ("ghost" :: ex_ns)
     = Some (ex_entry [] ADMIN_ENTRY_TYPE_PLACEHOLDER
               (U_resourcePtr (Some (Create IO_DATA_TYPE_TRIGGER)))))
  ∧ answers_not_found (Col := ex_collab) (Cfg := ex_config) (Res := ex_resmod)
      (Some ex_ns) 9 ex_hub "ghost"
  ∧ ∀ nowhere,
      resTree_FindEntry (Cfg := ex_config) (EntryPool ex_hub) ex_ns nowhere
      = None →
      answers_not_found (Col := ex_collab) (Cfg := ex_config)
        (Res := ex_resmod) (Some ex_ns) 9 ex_hub nowhere.
Proof.
  split.
  - by vm_compute.
  - apply (non_io_entry_is_treated_as_absent (Col := ex_collab)
             (Cfg := ex_config) (Res := ex_resmod) (Some ex_ns) 9 ex_hub
             "ghost" ex_ns ("ghost" :: ex_ns)
             (ex_entry [] ADMIN_ENTRY_TYPE_PLACEHOLDER
                (U_resourcePtr (Some (Create IO_DATA_TYPE_TRIGGER)))));
      [done|by vm_compute|by vm_compute|by right; left].
Defined.

Section GetterFacts.
Context `{Col : Collaborators} `{Cfg : HubConfig} `{Res : ResourceModule}.

Lemma GetCurrentValue_other_type ent haveType ty :
  resTree_GetDataType ent = Some haveType →
  haveType ≠ ty →
  GetCurrentValue ent ty = Some None.
Proof.
  intros Hty Hne. unfold GetCurrentValue. rewrite Hty. simpl.
  by case_decide.
Qed.

End GetterFacts.

(** C8, as amended. A typed getter called for an Input or Output whose
    declared data type is not the getter's answers that the value is
    unavailable, and writes neither output parameter. *)
Theorem typed_getter_on_other_type_is_unavailable `{Cfg : HubConfig}
    nsRef hub path resRef ent haveType :
  FindResource nsRef hub path = Some resRef →
  EntryPool hub !! resRef = Some ent →
  resTree_GetDataType ent = Some haveType →
  (haveType ≠ IO_DATA_TYPE_BOOLEAN →
   io_GetBoolean nsRef hub path = Some (LE_UNAVAILABLE, None, None))
  ∧ (haveType ≠ IO_DATA_TYPE_NUMERIC →
     io_GetNumeric nsRef hub path = Some (LE_UNAVAILABLE, None, None))
  ∧ (haveType ≠ IO_DATA_TYPE_STRING →
     ∀ valueSize,
       io_GetString nsRef hub path valueSize
       = Some (LE_UNAVAILABLE, None, None)).
Proof.
  intros Hfind Hent Hty.
  unfold io_GetBoolean, io_GetNumeric, io_GetString.
  rewrite Hfind, Hent. simpl.
  split_and!; intros Hne; intros;
    by rewrite (GetCurrentValue_other_type _ _ _ Hty Hne).
Qed.

Lemma typed_getter_on_other_type_is_unavailable_witness :
  (FindResource (Cfg := ex_config) (Some ex_ns) ex_hub "temp"
   = Some ("temp" :: ex_ns)
   ∧ EntryPool ex_hub !! ("temp" :: ex_ns)
     = Some (ex_entry [] ADMIN_ENTRY_TYPE_INPUT
               (U_resourcePtr (Some ex_numeric)))
   ∧ resTree_GetDataType
       (ex_entry [] ADMIN_ENTRY_TYPE_INPUT (U_resourcePtr (Some ex_numeric)))
     = Some IO_DATA_TYPE_NUMERIC)
  ∧ (IO_DATA_TYPE_NUMERIC ≠ IO_DATA_TYPE_BOOLEAN →
     io_GetBoolean (Cfg := ex_config) (Some ex_ns) ex_hub "temp"
     = Some (LE_UNAVAILABLE, None, None))
  ∧ (IO_DATA_TYPE_NUMERIC ≠ IO_DATA_TYPE_NUMERIC →
     io_GetNumeric (Cfg := ex_config) (Some ex_ns) ex_hub "temp"
     = Some (LE_UNAVAILABLE, None, None))
  ∧ (IO_DATA_TYPE_NUMERIC ≠ IO_DATA_TYPE_STRING →
     ∀ valueSize,
       io_GetString (Cfg := ex_config) (Some ex_ns) ex_hub "temp" valueSize
       = Some (LE_UNAVAILABLE, None, None)).
Proof.
  split.
  - by vm_compute.
  - apply (typed_getter_on_other_type_is_unavailable (Cfg := ex_config)
             (Some ex_ns) ex_hub "temp" ("temp" :: ex_ns)
             (ex_entry [] ADMIN_ENTRY_TYPE_INPUT
                (U_resourcePtr (Some ex_numeric)))
             IO_DATA_TYPE_NUMERIC); by vm_compute.
Defined.

(** C8 fails as stated. In the example hub [temp] is a numeric Input with a
    current value; [io_GetBoolean] on it answers unavailable, not a format
    error. *)
Lemma boolean_getter_on_numeric_input :
  FindResource (Cfg := ex_config) (Some ex_ns) ex_hub "temp"
  = Some ("temp" :: ex_ns)
  ∧ resource_at ex_pool ("temp" :: ex_ns) = Some ex_numeric
  ∧ dataType ex_numeric = IO_DATA_TYPE_NUMERIC
  ∧ io_GetBoolean (Cfg := ex_config) (Some ex_ns) ex_hub "temp"
    = Some (LE_UNAVAILABLE, None, None)
  ∧ io_GetBoolean (Cfg := ex_config) (Some ex_ns) ex_hub "temp"
    ≠ Some (LE_FORMAT_ERROR, None, None).
Proof. split_and!; by vm_compute. Qed.

Section DefaultFacts.
Context `{Col : Collaborators} `{Cfg : HubConfig} `{Res : ResourceModule}.

(** The default setters on an Input or Output that was found. *)
Lemma SetDefault_found nsRef now alloc hub path resRef ent resPtr ty valid v :
  FindResource nsRef hub path = Some resRef →
  EntryPool hub !! resRef = Some ent →
  resourcePtr_of ent = Some resPtr →
  SetDefault nsRef now alloc hub path ty valid v
  = if decide (dataType resPtr ≠ ty) then Some (LE_BAD_PARAMETER, hub)
    else if bool_decide (defaultValue resPtr ≠ None)
         then Some (LE_DUPLICATE, hub)
         else if valid then
                match CreateSample alloc now 0 v with
                | Some sampleRef => resTree_SetDefault hub resRef ty sampleRef
                | None => Some (LE_NO_MEMORY, hub)
                end
              else Some (LE_BAD_PARAMETER, hub).
Proof.
  intros Hfind Hent Hres. unfold SetDefault. rewrite Hfind, Hent. simpl.
  destruct (FindResource_Some _ _ _ _ Hfind) as (ent' & Hent' & Hio).
  assert (ent' = ent) as -> by congruence.
  unfold resTree_GetDataType, resTree_HasDefault.
  rewrite (io_entry_IsResource _ _ Hio Hres), Hres. simpl.
  case_decide; [done|]. by destruct (bool_decide _).
Qed.

End DefaultFacts.

(** C10, as amended. On an Input or Output that has a default value, a typed
    default setter answers duplicate when the declared type is the setter's
    and bad parameter when it is not, and leaves the hub as it was; and
    whenever a default setter changes the hub, the resource had no default
    and its declared type is the setter's. *)
Theorem default_setters_keep_an_existing_default
    `{Col : Collaborators} `{Cfg : HubConfig} `{Res : ResourceModule}
    nsRef now alloc hub path resRef ent resPtr :
  FindResource nsRef hub path = Some resRef →
  EntryPool hub !! resRef = Some ent →
  resourcePtr_of ent = Some resPtr →
  let answer ty :=
    Some (if decide (dataType resPtr = ty) then LE_DUPLICATE
          else LE_BAD_PARAMETER, hub) in
  let installs ty (ret : option (le_result_t * Hub)) :=
    ∀ result hub', ret = Some (result, hub') → hub' ≠ hub →
      defaultValue resPtr = None ∧ dataType resPtr = ty in
  (defaultValue resPtr ≠ None →
   (∀ v, io_SetBooleanDefault nsRef now alloc hub path v
         = answer IO_DATA_TYPE_BOOLEAN)
   ∧ (∀ v, io_SetNumericDefault nsRef now alloc hub path v
           = answer IO_DATA_TYPE_NUMERIC)
   ∧ (∀ v, io_SetStringDefault nsRef now alloc hub path v
           = answer IO_DATA_TYPE_STRING)
   ∧ (∀ v, io_SetJsonDefault nsRef now alloc hub path v
           = answer IO_DATA_TYPE_JSON))
  ∧ (∀ v, installs IO_DATA_TYPE_BOOLEAN
            (io_SetBooleanDefault nsRef now alloc hub path v))
  ∧ (∀ v, installs IO_DATA_TYPE_NUMERIC
            (io_SetNumericDefault nsRef now alloc hub path v))
  ∧ (∀ v, installs IO_DATA_TYPE_STRING
            (io_SetStringDefault nsRef now alloc hub path v))
  ∧ (∀ v, installs IO_DATA_TYPE_JSON
            (io_SetJsonDefault nsRef now alloc hub path v)).
Proof.
  intros Hfind Hent Hres answer installs.
  assert (∀ ty valid v,
            defaultValue resPtr ≠ None →
            SetDefault nsRef now alloc hub path ty valid v = answer ty)
    as Hkeep.
  { intros ty valid v Hdef.
    rewrite (SetDefault_found _ _ _ _ _ _ _ _ _ _ _ Hfind Hent Hres).
    unfold answer. rewrite (bool_decide_eq_true_2 _ Hdef).
    by repeat case_decide. }
  assert (∀ ty valid v,
            installs ty (SetDefault nsRef now alloc hub path ty valid v))
    as Hinst.
  { intros ty valid v result hub'.
    rewrite (SetDefault_found _ _ _ _ _ _ _ _ _ _ _ Hfind Hent Hres).
    case_decide as Hty; [by intros [= _ <-]|].
    try apply dec_stable in Hty.
    destruct (bool_decide _) eqn:Hdef; [by intros [= _ <-]|].
    apply bool_decide_eq_false in Hdef. try apply dec_stable in Hdef.
    by intros _ _. }
  unfold io_SetBooleanDefault, io_SetNumericDefault, io_SetStringDefault,
    io_SetJsonDefault.
  split_and!; try (intros; by apply Hinst).
  intros Hdef. split_and!; intros; by apply Hkeep.
Qed.

Section DefaultExamples.
#[local] Existing Instances ex_collab ex_config ex_resmod.

Lemma default_setters_keep_an_existing_default_witness :
  (FindResource (Some ex_ns) ex_hub "temp" = Some ("temp" :: ex_ns)
   ∧ EntryPool ex_hub !! ("temp" :: ex_ns)
     = Some (ex_entry [] ADMIN_ENTRY_TYPE_INPUT
               (U_resourcePtr (Some ex_numeric)))
   ∧ defaultValue ex_numeric ≠ None)
  ∧ (∀ v, io_SetBooleanDefault (Some ex_ns) 9 true ex_hub "temp" v
          = Some (LE_BAD_PARAMETER, ex_hub))
  ∧ (∀ v, io_SetNumericDefault (Some ex_ns) 9 true ex_hub "temp" v
          = Some (LE_DUPLICATE, ex_hub)).
Proof.
  split.
  - by vm_compute.
  - pose proof (default_setters_keep_an_existing_default (Some ex_ns) 9 true
                  ex_hub "temp" ("temp" :: ex_ns)
                  (ex_entry [] ADMIN_ENTRY_TYPE_INPUT
                     (U_resourcePtr (Some ex_numeric)))
                  ex_numeric) as Hkeep.
    destruct Hkeep as [Hkeep _]; [by vm_compute..|].
    destruct Hkeep as (Hbool & Hnum & _); [by vm_compute|].
    split; [apply Hbool|apply Hnum].
Defined.

(** C10 fails as stated. In the example hub the numeric Input [temp] has a
    default value; [io_SetBooleanDefault] on it answers bad parameter, not
    duplicate (and leaves the hub as it was). *)
Lemma boolean_default_on_numeric_input_with_default :
  FindResource (Some ex_ns) ex_hub "temp" = Some ("temp" :: ex_ns)
  ∧ resource_at ex_pool ("temp" :: ex_ns) = Some ex_numeric
  ∧ defaultValue ex_numeric
    = Some (IO_DATA_TYPE_NUMERIC, mkSample 1 (ValNumeric 20))
  ∧ io_SetBooleanDefault (Some ex_ns) 9 true ex_hub "temp" true
    = Some (LE_BAD_PARAMETER, ex_hub)
  ∧ io_SetBooleanDefault (Some ex_ns) 9 true ex_hub "temp" true
    ≠ Some (LE_DUPLICATE, ex_hub).
Proof.
  assert (io_SetBooleanDefault (Some ex_ns) 9 true ex_hub "temp" true
          = Some (LE_BAD_PARAMETER, ex_hub)) as Hset by (by vm_compute).
  split_and!; [by vm_compute|by vm_compute|by vm_compute|done|].
  by rewrite Hset.
Qed.

End DefaultExamples.

(** C4. At a path where the client's namespace already has an entry with a
    resource: [io_CreateInput] answers OK on an Input of the same data type
    and units, duplicate on an Input that differs in either, and duplicate on
    an Output or Observation, and [io_CreateOutput] does the same with Input
    and Output exchanged; in each case the hub is left as it was. *)
Theorem create_over_existing_resource
    `{Cfg : HubConfig} `{Res : ResourceModule}
    nsRef hub path ns entryRef ent resPtr ty unitsStr :
  nsRef = Some ns →
  resTree_FindEntry (EntryPool hub) ns path = Some entryRef →
  EntryPool hub !! entryRef = Some ent →
  resourcePtr_of ent = Some resPtr →
  let same :=
    if decide (dataType resPtr = ty ∧ units resPtr = unitsStr)
    then LE_OK else LE_DUPLICATE in
  (type ent = ADMIN_ENTRY_TYPE_INPUT →
   io_CreateInput nsRef hub path ty unitsStr = Some (same, hub)
   ∧ io_CreateOutput nsRef hub path ty unitsStr = Some (LE_DUPLICATE, hub))
  ∧ (type ent = ADMIN_ENTRY_TYPE_OUTPUT →
     io_CreateOutput nsRef hub path ty unitsStr = Some (same, hub)
     ∧ io_CreateInput nsRef hub path ty unitsStr = Some (LE_DUPLICATE, hub))
  ∧ (type ent = ADMIN_ENTRY_TYPE_OBSERVATION →
     io_CreateInput nsRef hub path ty unitsStr = Some (LE_DUPLICATE, hub)
     ∧ io_CreateOutput nsRef hub path ty unitsStr = Some (LE_DUPLICATE, hub)).
Proof.
  intros -> Hfind Hent Hres same.
  assert (∀ kind, type ent = kind → is_io kind = true →
            resTree_GetDataType ent = Some (dataType resPtr)
            ∧ resTree_GetUnits ent = Some (units resPtr)) as Hread.
  { intros kind Hkind Hio. rewrite <- Hkind in Hio.
    unfold resTree_GetDataType, resTree_GetUnits.
    by rewrite (io_entry_IsResource _ _ Hio Hres), Hres. }
  assert ((if decide (dataType resPtr ≠ ty ∨ unitsStr ≠ units resPtr)
           then Some (LE_DUPLICATE, hub) else Some (LE_OK, hub))
          = Some (same, hub)) as Hsame.
  { unfold same.
    destruct (decide (dataType resPtr = ty)) as [Hty|Hty],
             (decide (units resPtr = unitsStr)) as [Hun|Hun];
      destruct (decide (_ ∧ _)) as [[? ?]|Hand];
      destruct (decide (_ ∨ _)) as [[?|?]|Hor]; try done; try congruence.
    - destruct Hand; done.
    - destruct Hor. by right.
    - destruct Hor. by left.
    - destruct Hor. by left. }
  unfold io_CreateInput, io_CreateOutput. simpl. rewrite Hfind, Hent. simpl.
  unfold resTree_GetEntryType.
  split_and!; intros Hkind; rewrite Hkind; try done.
  - destruct (Hread _ Hkind eq_refl) as [-> ->]. done.
  - destruct (Hread _ Hkind eq_refl) as [-> ->]. done.
Qed.

Section CreateExamples.
#[local] Existing Instances ex_collab ex_config ex_resmod.

Lemma create_over_existing_resource_witness :
  (resTree_FindEntry (EntryPool ex_hub) ex_ns "temp" = Some ("temp" :: ex_ns)
   ∧ EntryPool ex_hub !! ("temp" :: ex_ns)
     = Some (ex_entry [] ADMIN_ENTRY_TYPE_INPUT
               (U_resourcePtr (Some ex_numeric))))
  ∧ io_CreateInput (Some ex_ns) ex_hub "temp" IO_DATA_TYPE_NUMERIC "degC"
    = Some (LE_OK, ex_hub)
  ∧ io_CreateInput (Some ex_ns) ex_hub "temp" IO_DATA_TYPE_NUMERIC "degF"
    = Some (LE_DUPLICATE, ex_hub)
  ∧ io_CreateOutput (Some ex_ns) ex_hub "temp" IO_DATA_TYPE_NUMERIC "degC"
    = Some (LE_DUPLICATE, ex_hub).
Proof.
  split.
  - by vm_compute.
  - pose proof (λ ty unitsStr,
                  create_over_existing_resource (Some ex_ns) ex_hub "temp"
                    ex_ns ("temp" :: ex_ns)
                    (ex_entry [] ADMIN_ENTRY_TYPE_INPUT
                       (U_resourcePtr (Some ex_numeric)))
                    ex_numeric ty unitsStr eq_refl) as Hcreate.
    destruct (Hcreate IO_DATA_TYPE_NUMERIC "degC") as [Hc _];
      [by vm_compute..|].
    destruct (Hcreate IO_DATA_TYPE_NUMERIC "degF") as [Hf _];
      [by vm_compute..|].
    destruct (Hc eq_refl) as [Hin Hout]. destruct (Hf eq_refl) as [Hin' _].
    split_and!; [exact Hin|exact Hin'|exact Hout].
Defined.

End CreateExamples.

Section HandlerFacts.
Context `{Col : Collaborators} `{Cfg : HubConfig} `{Res : ResourceModule}.

(** A sample of type [ty] hands its own value to a callback of that type. *)
Lemma payload_value ty sampleRef :
  sample_type sampleRef = ty → payload ty sampleRef = value sampleRef.
Proof.
  unfold sample_type, payload, dataSample_GetBoolean, dataSample_GetNumeric,
    dataSample_GetString, dataSample_GetJson.
  intros <-. by destruct (value sampleRef).
Qed.

Lemma handler_Call_match h ty sampleRef :
  handlerType h = ty →
  sample_type sampleRef = ty →
  handler_Call h ty sampleRef
  = [PushHandlerCalled (handlerRef h) (timestamp sampleRef) (value sampleRef)].
Proof.
  intros Hh Hs. unfold handler_Call. rewrite decide_True by done.
  by rewrite (payload_value _ _ Hs).
Qed.

Lemma handler_Call_mismatch h ty sampleRef :
  handlerType h ≠ ty →
  handlerType h = IO_DATA_TYPE_TRIGGER
  ∨ handlerType h = IO_DATA_TYPE_BOOLEAN
  ∨ handlerType h = IO_DATA_TYPE_NUMERIC →
  handler_Call h ty sampleRef = [].
Proof.
  intros Hne Hkind. unfold handler_Call. rewrite decide_False by done.
  by destruct Hkind as [-> | [-> | ->]].
Qed.

(** A string handler on a sample of another type gets the printable form. *)
Lemma handler_Call_string h ty sampleRef :
  handlerType h ≠ ty →
  handlerType h = IO_DATA_TYPE_STRING →
  handler_Call h ty sampleRef
  = match dataSample_ConvertToString sampleRef ty HUB_MAX_STRING_BYTES with
    | Some text =>
        [PushHandlerCalled (handlerRef h) (timestamp sampleRef)
           (ValString text)]
    | None => []
    end.
Proof.
  intros Hne Hkind. unfold handler_Call. rewrite decide_False by done.
  by rewrite Hkind.
Qed.

(** A JSON handler on a sample of another type gets the JSON form. *)
Lemma handler_Call_json h ty sampleRef :
  handlerType h ≠ ty →
  handlerType h = IO_DATA_TYPE_JSON →
  handler_Call h ty sampleRef
  = match dataSample_ConvertToJson sampleRef ty HUB_MAX_STRING_BYTES with
    | Some text =>
        [PushHandlerCalled (handlerRef h) (timestamp sampleRef)
           (ValJson text)]
    | None => []
    end.
Proof.
  intros Hne Hkind. unfold handler_Call. rewrite decide_False by done.
  by rewrite Hkind.
Qed.

(** [AddPushHandler] on an Input or Output, with room for the handler. *)
Lemma AddPushHandler_registers nsRef hub path ty ns resRef ent resPtr :
  nsRef = Some ns →
  resTree_FindEntry (EntryPool hub) ns path = Some resRef →
  EntryPool hub !! resRef = Some ent →
  is_io (type ent) = true →
  resourcePtr_of ent = Some resPtr →
  (∀ limit, DHUB_IO_PUSH_HANDLER_COUNT = Some limit →
            PushHandlerCount hub < limit) →
  let handlerRef := HandlerRefs hub in
  let registered :=
    set_pushHandlerList resPtr
      (pushHandlerList resPtr ++ [mkHandler handlerRef ty]) in
  AddPushHandler nsRef true hub path ty
  = Some (mkHub (store_resource (EntryPool hub) resRef registered)
            (calls hub
             ++ match currentValue resPtr with
                | Some sampleRef =>
                    handler_Call (mkHandler handlerRef ty) (dataType resPtr)
                      sampleRef
                | None => []
                end)
            (S (PushHandlerCount hub)) (S (HandlerRefs hub))
            (TrackDeletions hub) (UpdateInProgress hub),
          Some handlerRef).
Proof.
  intros -> Hfind Hent Hio Hres Hroom handlerRef registered.
  unfold AddPushHandler.
  assert (match DHUB_IO_PUSH_HANDLER_COUNT with
          | Some limit => bool_decide (limit ≤ PushHandlerCount hub)
          | None => false
          end = false) as ->.
  { destruct DHUB_IO_PUSH_HANDLER_COUNT as [limit|]; [|done].
    apply bool_decide_eq_false. specialize (Hroom limit eq_refl). lia. }
  rewrite Hfind, Hent. simpl. unfold resTree_GetEntryType.
  rewrite Hio, Hres. simpl.
  unfold store_resource at 1 2 3. rewrite Hent, lookup_insert_eq. simpl.
  unfold resTree_GetCurrentValue, resTree_GetDataType, resTree_IsResource,
    resourcePtr_of. simpl.
  assert (type ent ≠ ADMIN_ENTRY_TYPE_NAMESPACE) as Hns.
  { by destruct (is_io_cases _ Hio) as [-> | ->]. }
  rewrite decide_False by done.
  unfold store_resource. rewrite Hent.
  destruct (currentValue resPtr) as [sampleRef|]; simpl;
    by rewrite ?app_nil_r.
Qed.

End HandlerFacts.

(** C3, as amended. A push handler added to an Input or Output (with a
    handler object available and the handler limit not reached) is
    registered at the end of the handler list of the resource.  Before the
    registration returns, a handler whose data type is the declared type of
    the resource has been called exactly once, with the timestamp and the
    value of the current value; a string or JSON handler on a resource of
    another type has been called exactly once, with that timestamp and the
    value converted to a printable string or to JSON text, unless the
    converted text does not fit the value buffer, when it has not been
    called; a trigger, Boolean or numeric handler on a resource of another
    type has not been called; and no handler has been called when the
    resource has no current value. *)
Theorem push_handler_replay_on_registration
    `{Col : Collaborators} `{Cfg : HubConfig}
    nsRef hub path ty ns resRef ent resPtr :
  nsRef = Some ns →
  resTree_FindEntry (EntryPool hub) ns path = Some resRef →
  EntryPool hub !! resRef = Some ent →
  is_io (type ent) = true →
  resourcePtr_of ent = Some resPtr →
  (∀ limit, DHUB_IO_PUSH_HANDLER_COUNT = Some limit →
            PushHandlerCount hub < limit) →
  ∃ hub' handlerRef resPtr',
    AddPushHandler nsRef true hub path ty = Some (hub', Some handlerRef)
    ∧ handlerRef = HandlerRefs hub
    ∧ resource_at (EntryPool hub') resRef = Some resPtr'
    ∧ pushHandlerList resPtr'
      = pushHandlerList resPtr ++ [mkHandler handlerRef ty]
    ∧ currentValue resPtr' = currentValue resPtr
    ∧ match currentValue resPtr with
      | Some current =>
          (ty = dataType resPtr → sample_type current = dataType resPtr →
           calls hub'
           = calls hub
             ++ [PushHandlerCalled handlerRef (timestamp current)
                   (value current)])
          ∧ (ty ≠ dataType resPtr → ty = IO_DATA_TYPE_STRING →
             calls hub'
             = calls hub
               ++ match dataSample_ConvertToString current (dataType resPtr)
                          HUB_MAX_STRING_BYTES with
                  | Some text =>
                      [PushHandlerCalled handlerRef (timestamp current)
                         (ValString text)]
                  | None => []
                  end)
          ∧ (ty ≠ dataType resPtr → ty = IO_DATA_TYPE_JSON →
             calls hub'
             = calls hub
               ++ match dataSample_ConvertToJson current (dataType resPtr)
                          HUB_MAX_STRING_BYTES with
                  | Some text =>
                      [PushHandlerCalled handlerRef (timestamp current)
                         (ValJson text)]
                  | None => []
                  end)
          ∧ (ty ≠ dataType resPtr →
             ty = IO_DATA_TYPE_TRIGGER ∨ ty = IO_DATA_TYPE_BOOLEAN
             ∨ ty = IO_DATA_TYPE_NUMERIC →
             calls hub' = calls hub)
      | None => calls hub' = calls hub
      end.
Proof.
  intros Hns Hfind Hent Hio Hres Hroom.
  rewrite (AddPushHandler_registers _ _ _ ty _ _ _ _ Hns Hfind Hent Hio Hres
             Hroom).
  eexists _, _, _. split; [done|]. simpl.
  rewrite (store_resource_at _ _ _ _ Hent).
  split_and!; [done..|].
  destruct (currentValue resPtr) as [current|]; [|by rewrite app_nil_r].
  split_and!.
  - intros -> Hs. by rewrite handler_Call_match.
  - intros Hne Hkind. by rewrite handler_Call_string.
  - intros Hne Hkind. by rewrite handler_Call_json.
  - intros Hne Hkind. rewrite handler_Call_mismatch; [|done..].
    by rewrite app_nil_r.
Qed.

Section HandlerExamples.
#[local] Existing Instances ex_collab ex_config ex_resmod.

Lemma push_handler_replay_on_registration_witness :
  (resTree_FindEntry (EntryPool ex_hub) ex_ns "temp" = Some ("temp" :: ex_ns)
   ∧ EntryPool ex_hub !! ("temp" :: ex_ns)
     = Some (ex_entry [] ADMIN_ENTRY_TYPE_INPUT
               (U_resourcePtr (Some ex_numeric)))
   ∧ is_io ADMIN_ENTRY_TYPE_INPUT = true
   ∧ DHUB_IO_PUSH_HANDLER_COUNT = None)
  ∧ ∃ hub',
      io_AddNumericPushHandler (Some ex_ns) true ex_hub "temp"
      = Some (hub', Some 0)
      ∧ calls hub' = [PushHandlerCalled 0 5 (ValNumeric 21)].
Proof.
  split.
  - by vm_compute.
  - destruct (push_handler_replay_on_registration (Some ex_ns) ex_hub "temp"
                IO_DATA_TYPE_NUMERIC ex_ns ("temp" :: ex_ns)
                (ex_entry [] ADMIN_ENTRY_TYPE_INPUT
                   (U_resourcePtr (Some ex_numeric)))
                ex_numeric)
      as (hub' & handlerRef & resPtr' & Hadd & -> & _ & _ & _ & Hcall & _);
      [by vm_compute..|].
    exists hub'. split; [exact Hadd|]. by rewrite Hcall.
Defined.

(** What a string and a JSON handler added to the numeric Input [temp] are
    given: one call each, with the timestamp of the current value and its
    number printed by the stand-in for [%lf]; a trigger handler gets no
    call. *)
Lemma other_handlers_on_numeric_input :
  (calls ∘ fst <$> io_AddStringPushHandler (Some ex_ns) true ex_hub "temp")
  = Some [PushHandlerCalled 0 5 (ValString "1.000000")]
  ∧ (calls ∘ fst <$> io_AddJsonPushHandler (Some ex_ns) true ex_hub "temp")
    = Some [PushHandlerCalled 0 5 (ValJson "1.000000")]
  ∧ (calls ∘ fst <$> io_AddTriggerPushHandler (Some ex_ns) true ex_hub "temp")
    = Some [].
Proof. split_and!; by vm_compute. Qed.

(** C3 fails as stated. In the example hub the numeric Input [temp] has a
    current value; a Boolean push handler added to it is registered (the
    call returns its reference) and no callback is made. *)
Lemma boolean_handler_on_numeric_input_is_not_called :
  resource_at ex_pool ("temp" :: ex_ns) = Some ex_numeric
  ∧ currentValue ex_numeric = Some (mkSample 5 (ValNumeric 21))
  ∧ ∃ hub',
      io_AddBooleanPushHandler (Some ex_ns) true ex_hub "temp"
      = Some (hub', Some 0)
      ∧ (pushHandlerList <$> resource_at (EntryPool hub') ("temp" :: ex_ns))
        = Some [mkHandler 0 IO_DATA_TYPE_BOOLEAN]
      ∧ calls hub' = calls ex_hub.
Proof.
  split; [by vm_compute|]. split; [by vm_compute|].
  eexists. split; [by vm_compute|]. split; by vm_compute.
Qed.

End HandlerExamples.

(** ** Deleting an Input or Output *)

Section DeleteFacts.
Context `{Cfg : HubConfig} `{Res : ResourceModule}.

(** Releasing an object that has other references only lowers its count. *)
Lemma le_mem_Release_shared (pool : gmap EntryRef Entry_t) entryPtr ent n :
  pool !! entryPtr = Some ent →
  refCount ent = S (S n) →
  le_mem_Release pool entryPtr
  = Some (<[entryPtr := set_refCount ent (S n)]> pool).
Proof.
  intros Hent Hcount. destruct entryPtr as [|link parent]; simpl;
    by rewrite Hent, Hcount.
Qed.

(** Releasing the last reference to a childless entry whose parent has other
    references: the entry leaves its parent's list and the pool, and the
    parent loses the reference the entry held. *)
Lemma le_mem_Release_last (pool : gmap EntryRef Entry_t) link parent ent
    parentEnt m :
  pool !! (link :: parent) = Some ent →
  refCount ent = 1 →
  childList ent = [] →
  pool !! parent = Some parentEnt →
  refCount parentEnt = S (S m) →
  le_mem_Release pool (link :: parent)
  = Some (delete (link :: parent)
            (<[parent := mkEntry (filter (λ l, l ≠ link) (childList parentEnt))
                           (type parentEnt) (u parentEnt) (S m)]> pool)).
Proof.
  intros Hent Hcount Hchildren Hparent Hpcount. simpl.
  rewrite Hent, Hcount, Hchildren, Hparent.
  erewrite le_mem_Release_shared; [|apply lookup_insert_eq|done].
  simpl. by rewrite insert_insert_eq.
Qed.

(** The last reference to an entry that still has children cannot be
    released: the destructor asserts an empty child list. *)
Lemma le_mem_Release_with_children (pool : gmap EntryRef Entry_t) entryPtr
    ent :
  pool !! entryPtr = Some ent →
  refCount ent = 1 →
  childList ent ≠ [] →
  le_mem_Release pool entryPtr = None.
Proof.
  intros Hent Hcount Hchildren. destruct entryPtr as [|link parent]; simpl;
    rewrite Hent, Hcount; [done|].
  by destruct (childList ent).
Qed.

(** With room for the terminator, [resTree_GetPath] returns. *)
Lemma resTree_GetPath_returns (stringBuffSize : nat) baseNamespace entryRef :
  0 < stringBuffSize →
  ∃ result written,
    resTree_GetPath stringBuffSize baseNamespace entryRef
    = Some (result, written).
Proof.
  intros Hsize. induction entryRef as [|link parent IH]; simpl.
  - destruct (decide ([] = baseNamespace)); [by rewrite decide_True; eauto|].
    eauto.
  - destruct (decide (link :: parent = baseNamespace));
      [by rewrite decide_True; eauto|].
    destruct (decide (Some parent = Some baseNamespace)).
    + destruct (decide (baseNamespace = RootPtr)).
      * destruct (copy_out "/" stringBuffSize) as [[] ?]; eauto;
          destruct (copy_out link (stringBuffSize - 1)) as [[] ?]; eauto.
      * destruct (copy_out link stringBuffSize) as [[] ?]; eauto.
    + destruct IH as (result & written & ->).
      destruct result as [result|]; [|eauto].
      destruct (copy_out "/" (stringBuffSize - result)) as [[] sep]; eauto;
        destruct (copy_out link _) as [[] ?]; eauto.
Qed.

(** The tree change handlers are always called, with the text
    [resTree_GetPath] leaves in the path buffer. *)
Lemma CallResourceTreeChangeHandlers_calls hub entryRef entryType op :
  ∃ result absolutePath,
    resTree_GetPath HUB_MAX_RESOURCE_PATH_BYTES RootPtr entryRef
    = Some (result, absolutePath)
    ∧ CallResourceTreeChangeHandlers hub entryRef entryType op
      = Some (log hub [ResourceTreeChanged absolutePath entryType op]).
Proof.
  destruct (resTree_GetPath_returns HUB_MAX_RESOURCE_PATH_BYTES RootPtr
              entryRef) as (result & absolutePath & Hpath).
  { unfold HUB_MAX_RESOURCE_PATH_BYTES. lia. }
  exists result, absolutePath. split; [done|].
  unfold CallResourceTreeChangeHandlers. by rewrite Hpath.
Qed.

(** Where a deletion goes through.  Deleting an allocated Input or Output
    entry returns, after one resource-removed notification carrying the text
    in the path buffer and the kind of the entry.  If the resource has
    administrative settings the entry becomes a Placeholder that holds a new
    placeholder resource with the settings moved over.  Otherwise the
    resource body is dropped and the entry becomes a Namespace with no flags;
    with deletion tracking on it is then marked deleted and kept (the
    tombstone holds the reference the deletion gives up); with tracking off
    the entry loses one reference, and when that was the last one of a
    childless entry it leaves its parent's child list and the pool. *)
Lemma resTree_DeleteIO_done hub entryRef ent ioPtr :
  EntryPool hub !! entryRef = Some ent →
  is_io (type ent) = true →
  resourcePtr_of ent = Some ioPtr →
  0 < refCount ent →
  (refCount ent = 1 → TrackDeletions hub = false →
   childList ent = []
   ∧ ∃ parentEnt, parentPtr entryRef ≫= (EntryPool hub !!.) = Some parentEnt
                  ∧ 1 < refCount parentEnt) →
  ∃ hub' result absolutePath,
    resTree_DeleteIO hub entryRef = Some hub'
    ∧ resTree_GetPath HUB_MAX_RESOURCE_PATH_BYTES RootPtr entryRef
      = Some (result, absolutePath)
    ∧ calls hub'
      = calls hub
        ++ [ResourceTreeChanged absolutePath (type ent) ADMIN_RESOURCE_REMOVED]
    ∧ if res_HasAdminSettings ioPtr then
        EntryPool hub'
        = <[entryRef :=
              mkEntry (childList ent) ADMIN_ENTRY_TYPE_PLACEHOLDER
                (U_resourcePtr
                   (Some (res_MoveAdminSettings ioPtr
                            (res_CreatePlaceholder entryRef)
                            ADMIN_ENTRY_TYPE_PLACEHOLDER)))
                (refCount ent)]> (EntryPool hub)
      else if TrackDeletions hub then
        EntryPool hub'
        = <[entryRef :=
              mkEntry (childList ent) ADMIN_ENTRY_TYPE_NAMESPACE
                (U_flags RES_FLAG_DELETED) (refCount ent)]> (EntryPool hub)
      else
        match refCount ent, entryRef with
        | 1, link :: parent =>
            EntryPool hub' !! entryRef = None
            ∧ ∃ parentEnt,
                EntryPool hub !! parent = Some parentEnt
                ∧ EntryPool hub'
                  = delete entryRef
                      (<[parent :=
                           mkEntry
                             (filter (λ l, l ≠ link) (childList parentEnt))
                             (type parentEnt) (u parentEnt)
                             (pred (refCount parentEnt))]> (EntryPool hub))
        | _, _ =>
            EntryPool hub'
            = <[entryRef :=
                  mkEntry (childList ent) ADMIN_ENTRY_TYPE_NAMESPACE
                    (U_flags 0) (pred (refCount ent))]> (EntryPool hub)
        end.
Proof.
  intros Hent Hio Hres Hcount Hlast.
  unfold resTree_DeleteIO. rewrite Hent. simpl. rewrite Hres. simpl.
  destruct (CallResourceTreeChangeHandlers_calls hub entryRef (type ent)
              ADMIN_RESOURCE_REMOVED)
    as (result & absolutePath & Hpath & ->). simpl.
  assert (type ent ≠ ADMIN_ENTRY_TYPE_NAMESPACE) as Hns.
  { by destruct (is_io_cases _ Hio) as [-> | ->]. }
  destruct (res_HasAdminSettings ioPtr).
  { eexists _, result, absolutePath. split; [done|]. split; [done|].
    split; [done|]. simpl.
    unfold ReplaceResource. rewrite Hent, Hres.
    by rewrite decide_True by done. }
  unfold snapshot_RecordNodeDeletion. simpl.
  destruct (TrackDeletions hub) eqn:Htrack; simpl.
  - rewrite lookup_insert_eq. simpl.
    unfold resTree_SetDeleted, flags_of. simpl.
    assert (S (pred (refCount ent)) = refCount ent) as Hpred by lia.
    erewrite (le_mem_Release_shared _ _ _ (pred (refCount ent)));
      [|apply lookup_insert_eq|simpl; lia].
    eexists _, result, absolutePath. split; [done|]. split; [done|].
    split; [done|]. simpl.
    rewrite !insert_insert_eq. unfold set_refCount. simpl.
    by rewrite Hpred, N.lor_0_l.
  - destruct (refCount ent) as [|[|n]] eqn:Hn; [lia| |].
    + destruct (Hlast eq_refl eq_refl) as (Hchildren & parentEnt & Hparent & Hp).
      destruct entryRef as [|link parent]; [done|]. simpl in Hparent.
      destruct (refCount parentEnt) as [|[|m]] eqn:Hm; [lia|lia|].
      assert (link :: parent ≠ parent) as Hne.
      { intros Heq. apply (f_equal length) in Heq. simpl in Heq. lia. }
      erewrite le_mem_Release_last;
        [|apply lookup_insert_eq|done|done
         |by rewrite lookup_insert_ne|done].
      eexists _, result, absolutePath. split; [done|]. split; [done|].
      split; [done|]. simpl.
      split; [apply lookup_delete_eq|].
      exists parentEnt. split; [done|].
      rewrite (insert_insert_ne _ parent (link :: parent)) by done.
      by rewrite delete_insert_eq, Hm.
    + erewrite le_mem_Release_shared; [|apply lookup_insert_eq|done].
      eexists _, result, absolutePath. split; [done|]. split; [done|].
      split; [done|]. simpl.
      rewrite insert_insert_eq. by destruct entryRef.
Qed.

(** Where it does not.  An Input or Output without administrative settings
    whose only reference is the one a child holds cannot be deleted while
    deletions are not tracked: the release takes the last reference and the
    destructor finds the child. *)
Lemma resTree_DeleteIO_with_children hub entryRef ent ioPtr :
  EntryPool hub !! entryRef = Some ent →
  resourcePtr_of ent = Some ioPtr →
  res_HasAdminSettings ioPtr = false →
  TrackDeletions hub = false →
  refCount ent = 1 →
  childList ent ≠ [] →
  resTree_DeleteIO hub entryRef = None.
Proof.
  intros Hent Hres Hadmin Htrack Hcount Hchildren.
  unfold resTree_DeleteIO. rewrite Hent. simpl. rewrite Hres. simpl.
  destruct (CallResourceTreeChangeHandlers_calls hub entryRef (type ent)
              ADMIN_RESOURCE_REMOVED) as (? & ? & _ & ->). simpl.
  rewrite Hadmin. unfold snapshot_RecordNodeDeletion. simpl.
  rewrite Htrack. simpl.
  by erewrite le_mem_Release_with_children; [|apply lookup_insert_eq|..].
Qed.

End DeleteFacts.

Section DeleteExamples.
#[local] Existing Instances ex_collab ex_config ex_resmod.

(** C5 fails on the code.  On a new tree with the client namespace
    [/app/app1] and no deletion tracking, a client creates the Input [a] and
    the Input [a/b], deletes [a], creates [a] again as an Output and deletes
    it.  The first four calls return [LE_OK].  The first deletion gives up
    the reference [a] was allocated with, so that the Output [a] is kept by
    the reference of its child alone; the second deletion notifies the
    removal and then releases that reference, and the destructor of the
    entry stops the process on its assertion that the child list is empty:
    the entry is neither converted nor released. *)
Theorem deleting_an_output_kept_by_its_child_aborts :
  ∃ pool hub1 hub2 hub3 hub4 a,
    resTree_GetEntry resTree_Init RootPtr "app/app1" = Some (pool, Some ex_ns)
    ∧ io_CreateInput (Some ex_ns) (mkHub pool [] 0 0 false false) "a"
        IO_DATA_TYPE_NUMERIC "" = Some (LE_OK, hub1)
    ∧ io_CreateInput (Some ex_ns) hub1 "a/b" IO_DATA_TYPE_NUMERIC ""
      = Some (LE_OK, hub2)
    ∧ io_DeleteResource (Some ex_ns) hub2 "a" = Some (LE_OK, hub3)
    ∧ io_CreateOutput (Some ex_ns) hub3 "a" IO_DATA_TYPE_NUMERIC ""
      = Some (LE_OK, hub4)
    ∧ EntryPool hub4 !! ("a" :: ex_ns) = Some a
    ∧ type a = ADMIN_ENTRY_TYPE_OUTPUT
    ∧ childList a = ["b"]
    ∧ refCount a = 1
    ∧ io_DeleteResource (Some ex_ns) hub4 "a" = None.
Proof.
  eexists _, _, _, _, _, _.
  split; [by vm_compute|]. split; [by vm_compute|].
  split; [by vm_compute|]. split; [by vm_compute|].
  split; [by vm_compute|]. split; [by vm_compute|].
  split; [done|]. split; [done|]. split; [done|]. by vm_compute.
Qed.

(** The outcomes of a deletion that goes through, run on the example hub:
    with deletion tracking on, [cfg] becomes a tombstone; [temp] has a
    default value, an administrative setting for the stand-in resource
    module, and becomes a Placeholder that keeps it; with deletion tracking
    off, deleting [cfg] takes the entry out of the pool and out of the child
    list of the client namespace. *)
Lemma deleting_tracked_leaves_tombstone :
  (λ hub', (calls hub', EntryPool hub' !! ("cfg" :: ex_ns)))
    <$> resTree_DeleteIO ex_hub ("cfg" :: ex_ns)
  = Some ([ResourceTreeChanged "/app/app1/cfg" ADMIN_ENTRY_TYPE_OUTPUT
             ADMIN_RESOURCE_REMOVED],
          Some (mkEntry [] ADMIN_ENTRY_TYPE_NAMESPACE
                  (U_flags RES_FLAG_DELETED) 1)).
Proof. by vm_compute. Qed.

Lemma deleting_with_settings_leaves_placeholder :
  (λ hub', type <$> EntryPool hub' !! ("temp" :: ex_ns))
    <$> resTree_DeleteIO ex_hub ("temp" :: ex_ns)
  = Some (Some ADMIN_ENTRY_TYPE_PLACEHOLDER)
  ∧ (λ hub', resource_at (EntryPool hub') ("temp" :: ex_ns) ≫= defaultValue)
      <$> resTree_DeleteIO ex_hub ("temp" :: ex_ns)
    = Some (defaultValue ex_numeric).
Proof. split; by vm_compute. Qed.

Lemma deleting_untracked_frees_entry :
  let hub := mkHub ex_pool [] 0 0 false false in
  (λ hub', (EntryPool hub' !! ("cfg" :: ex_ns),
            childList <$> EntryPool hub' !! ex_ns,
            refCount <$> EntryPool hub' !! ex_ns))
    <$> resTree_DeleteIO hub ("cfg" :: ex_ns)
  = Some (None, Some ["old"; "gone"; "temp"; "ghost"; "dir"], Some 6).
Proof. by vm_compute. Qed.

(** The path handed to the tree change handlers is cut at the size of the
    path buffer.  A client path of 72 bytes below [/app/app1] makes an
    absolute path of 82 bytes; the notification of the new Input carries
    its first 79 bytes. *)
Lemma long_path_is_cut_in_the_notification :
  let path := letters 30 +:+ "/" +:+ letters 30 +:+ "/" +:+ letters 10 in
  (λ '(ret, hub'), (ret, calls hub'))
    <$> io_CreateInput (Some ex_ns) ex_hub path IO_DATA_TYPE_NUMERIC ""
  = Some (LE_OK,
          [ResourceTreeChanged
             ("/app/app1/" +:+ letters 30 +:+ "/" +:+ letters 30 +:+ "/"
              +:+ letters 7)
             ADMIN_ENTRY_TYPE_INPUT ADMIN_RESOURCE_ADDED]).
Proof. by vm_compute. Qed.

End DeleteExamples.

(** ** Routing *)

Section RouteFacts.
Implicit Types pool : gmap EntryRef Entry_t.

Lemma reaches_trans pool a b c :
  reaches pool a b → reaches pool b c → reaches pool a c.
Proof.
  induction 1 as [|r r' d Hsrc _ IH]; [done|].
  intros Hc. eapply reaches_next; [done|]. by apply IH.
Qed.

Lemma reaches_step pool r r' : src_of pool r = Some r' → reaches pool r r'.
Proof. intros Hsrc. eapply reaches_next; [done|]. apply reaches_here. Qed.

(** Away from its start a walk continues from the source of the start. *)
Lemma reaches_inv pool r d :
  reaches pool r d →
  r = d ∨ ∃ r', src_of pool r = Some r' ∧ reaches pool r' d.
Proof. destruct 1; eauto. Qed.

Lemma src_of_allocated pool r r' : src_of pool r = Some r' → r ∈ dom pool.
Proof.
  unfold src_of, resource_at. intros Hsrc. apply elem_of_dom.
  destruct (pool !! r); [eauto|done].
Qed.

(** Distinct allocated entries are no more than the pool holds. *)
Lemma distinct_allocated pool (visited : list EntryRef) :
  NoDup visited →
  (∀ v, v ∈ visited → v ∈ dom pool) →
  length visited ≤ size pool.
Proof.
  intros Hnodup Hdom. rewrite <- size_dom. unfold size, set_size. simpl.
  apply submseteq_length, NoDup_submseteq; [done|].
  intros v Hv. apply elem_of_elements. by apply Hdom.
Qed.

(** The walk of [res_SetSource] ends and decides [reaches], given one unit of
    fuel for every allocated entry it has not passed yet. *)
Lemma walk_sources_decides pool d :
  acyclic pool →
  ∀ fuel r visited,
    NoDup visited →
    (∀ v, v ∈ visited →
          ∃ v', src_of pool v = Some v' ∧ reaches pool v' r) →
    size pool < length visited + fuel →
    ∃ b, walk_sources fuel pool (Some r) d = Some b
         ∧ (b = true ↔ reaches pool r d).
Proof.
  intros Hacyclic fuel.
  induction fuel as [|fuel IH]; intros r visited Hnodup Hvisited Hfuel.
  { assert (length visited ≤ size pool); [|lia].
    apply distinct_allocated; [done|].
    intros v Hv. destruct (Hvisited v Hv) as (v' & Hsrc & _).
    by eapply src_of_allocated. }
  simpl. case_decide as Hrd.
  { subst. exists true. split; [done|]. split; [|done].
    intros _. apply reaches_here. }
  destruct (src_of pool r) as [r'|] eqn:Hsrc.
  - destruct (IH r' (r :: visited)) as (b & Hwalk & Hb).
    + apply NoDup_cons. split; [|done]. intros Hv.
      destruct (Hvisited r Hv) as (v' & Hsrc' & Hback).
      by apply (Hacyclic r v').
    + intros v [-> | Hv]%elem_of_cons.
      * exists r'. split; [done|]. apply reaches_here.
      * destruct (Hvisited v Hv) as (v' & Hsrc' & Hto).
        exists v'. split; [done|].
        eapply reaches_trans; [done|]. by apply reaches_step.
    + simpl. lia.
    + exists b. split; [done|]. rewrite Hb. split.
      * intros Hto. by eapply reaches_next.
      * intros [?|(r'' & Hsrc'' & Hto)]%reaches_inv; [done|]. congruence.
  - exists false. split; [by destruct fuel|]. split; [done|].
    intros [?|(r'' & Hsrc'' & _)]%reaches_inv; [done|congruence].
Qed.

(** The source links after the link of [B] was set to [A]. *)
Lemma src_of_store pool B dest newSrc r :
  resource_at pool B = Some dest →
  src_of (store_resource pool B (set_srcPtr dest newSrc)) r
  = if decide (r = B) then newSrc else src_of pool r.
Proof.
  unfold src_of, resource_at, store_resource at 1. intros Hdest.
  destruct (pool !! B) as [ent|] eqn:Hent; [|done].
  case_decide as Hr.
  - subst. by rewrite lookup_insert_eq.
  - by rewrite lookup_insert_ne.
Qed.

(** A walk in the new graph is a walk in the old one, or passes the new
    link. *)
Lemma reaches_after_store pool A B dest x y :
  resource_at pool B = Some dest →
  reaches (store_resource pool B (set_srcPtr dest (Some A))) x y →
  reaches pool x y ∨ (reaches pool x B ∧ reaches pool A y).
Proof.
  intros Hdest.
  induction 1 as [x|x x' y Hsrc _ IH]; [left; apply reaches_here|].
  rewrite (src_of_store _ _ _ _ _ Hdest) in Hsrc.
  case_decide as Hx.
  - subst. injection Hsrc as <-. right. split; [apply reaches_here|].
    by destruct IH as [?|[_ ?]].
  - destruct IH as [Hold|[HtoB HfromA]].
    + left. by eapply reaches_next.
    + right. split; [by eapply reaches_next|done].
Qed.

Lemma acyclic_after_store pool A B dest :
  acyclic pool →
  resource_at pool B = Some dest →
  ¬ reaches pool A B →
  acyclic (store_resource pool B (set_srcPtr dest (Some A))).
Proof.
  intros Hacyclic Hdest Hloop r r' Hsrc Hback.
  rewrite (src_of_store _ _ _ _ _ Hdest) in Hsrc.
  apply (reaches_after_store _ _ _ _ _ _ Hdest) in Hback.
  case_decide as Hr.
  - subst. injection Hsrc as <-. by destruct Hback as [?|[? _]].
  - destruct Hback as [Hold|[HtoB HfromA]]; [by apply (Hacyclic r r')|].
    apply Hloop. eapply reaches_trans; [done|].
    by eapply reaches_next.
Qed.

End RouteFacts.

(** C2. In a hub whose route graph has no loop, setting the source of a
    resource B to a resource A returns.  When the source links from A lead to
    B the answer is duplicate and the pool is as it was; otherwise the answer
    is OK, the source of B is A whatever it was, no other entry is touched
    and the graph still has no loop; and when A is the source of B already
    the pool is as it was. *)
Theorem set_source_rejects_loops (pool : gmap EntryRef Entry_t) A B destEnt :
  acyclic pool →
  pool !! B = Some destEnt →
  type destEnt ≠ ADMIN_ENTRY_TYPE_NAMESPACE →
  type destEnt ≠ ADMIN_ENTRY_TYPE_NONE →
  is_Some (resource_at pool A) →
  is_Some (resource_at pool B) →
  (reaches pool A B →
   resTree_SetSource pool B (Some A) = Some (LE_DUPLICATE, pool))
  ∧ (¬ reaches pool A B →
     ∃ pool',
       resTree_SetSource pool B (Some A) = Some (LE_OK, pool')
       ∧ src_of pool' B = Some A
       ∧ (∀ r, r ≠ B → pool' !! r = pool !! r)
       ∧ acyclic pool')
  ∧ (src_of pool B = Some A →
     resTree_SetSource pool B (Some A) = Some (LE_OK, pool)).
Proof.
  intros Hacyclic Hent Hns Hnone [src HA] [dest HB].
  assert (resTree_SetSource pool B (Some A)
          = res_SetSource pool B (Some A)) as ->.
  { unfold resTree_SetSource. rewrite Hent. simpl.
    rewrite decide_True by done.
    unfold resource_at, resourcePtr_of in HA.
    destruct (pool !! A) as [srcEnt|]; [|done]. simpl in *.
    by destruct (u srcEnt) as [|[]]. }
  destruct (walk_sources_decides pool B Hacyclic (S (size pool)) A [])
    as (b & Hwalk & Hb).
  { apply NoDup_nil_2. } { by intros v ?%elem_of_nil. } { simpl. lia. }
  unfold res_SetSource. rewrite HB, Hwalk. simpl.
  assert (src_of pool B = srcPtr dest) as HsrcB.
  { unfold src_of. by rewrite HB. }
  split_and!.
  - intros Hloop. case_decide as Hsame.
    { destruct (Hacyclic B A); [congruence|done]. }
    apply Hb in Hloop. by subst.
  - intros Hloop. case_decide as Hsame.
    + exists pool. split_and!; [done|congruence|done|done].
    + destruct b; [by destruct Hloop; apply Hb|].
      eexists. split; [done|]. split_and!.
      * rewrite (src_of_store _ _ _ _ _ HB). by rewrite decide_True.
      * intros r Hr. unfold store_resource. rewrite Hent.
        by rewrite lookup_insert_ne.
      * by apply acyclic_after_store.
  - intros Hsrc. rewrite decide_True; [done|congruence].
Qed.

Section RouteExamples.
#[local] Existing Instances ex_collab ex_config ex_resmod.

(** The only source link of the routed example pool. *)
Lemma ex_routed_links r r' :
  src_of ex_routed r = Some r' → r = "cfg" :: ex_ns ∧ r' = "temp" :: ex_ns.
Proof.
  unfold src_of, resource_at. intros Hsrc.
  destruct (ex_routed !! r) as [ent|] eqn:Hent; [|done].
  apply elem_of_map_to_list in Hent.
  remember (map_to_list ex_routed) as all eqn:Hall.
  vm_compute in Hall. subst all.
  repeat (apply elem_of_cons in Hent as [[= -> ->]|Hent];
          [by (discriminate Hsrc || (injection Hsrc as <-))|]).
  by apply elem_of_nil in Hent.
Qed.

Lemma ex_routed_acyclic : acyclic ex_routed.
Proof.
  intros r r' [-> ->]%ex_routed_links Hback.
  apply reaches_inv in Hback as [?|(r'' & Hsrc & _)]; [done|].
  by apply ex_routed_links in Hsrc as [? _].
Qed.

Lemma set_source_rejects_loops_witness :
  (acyclic ex_routed
   ∧ src_of ex_routed ("cfg" :: ex_ns) = Some ("temp" :: ex_ns)
   ∧ reaches ex_routed ("cfg" :: ex_ns) ("temp" :: ex_ns))
  ∧ resTree_SetSource ex_routed ("temp" :: ex_ns) (Some ("cfg" :: ex_ns))
    = Some (LE_DUPLICATE, ex_routed)
  ∧ resTree_SetSource ex_routed ("cfg" :: ex_ns) (Some ("temp" :: ex_ns))
    = Some (LE_OK, ex_routed).
Proof.
  assert (reaches ex_routed ("cfg" :: ex_ns) ("temp" :: ex_ns)) as Hloop.
  { apply reaches_step. by vm_compute. }
  split.
  - split; [apply ex_routed_acyclic|]. split; [by vm_compute|done].
  - assert (∀ r res, resource_at ex_routed r = Some res →
              is_Some (resource_at ex_routed r)) as Hsome by eauto.
    split.
    + eapply (set_source_rejects_loops ex_routed ("cfg" :: ex_ns)
                ("temp" :: ex_ns));
        [apply ex_routed_acyclic|by vm_compute|by vm_compute|by vm_compute
        |eapply Hsome; by vm_compute|eapply Hsome; by vm_compute|done].
    + eapply (set_source_rejects_loops ex_routed ("temp" :: ex_ns)
                ("cfg" :: ex_ns));
        [apply ex_routed_acyclic|by vm_compute|by vm_compute|by vm_compute
        |eapply Hsome; by vm_compute|eapply Hsome; by vm_compute
        |by vm_compute].
Defined.

(** A source entry that is a Namespace holds flags where the call reads a
    resource pointer: the model gives the call no result. *)
Lemma namespace_source_is_not_defined :
  resTree_SetSource ex_pool ("cfg" :: ex_ns) (Some ("dir" :: ex_ns)) = None.
Proof. by vm_compute. Qed.

End RouteExamples.

(** * Further properties of the resource tree and the I/O service *)

(** ** Path resolution *)

Section PathFacts.
Context `{Cfg : HubConfig}.

Lemma chars_inj (a b : string) : chars a = chars b → a = b.
Proof.
  intros H. rewrite <- (String.string_of_list_ascii_of_string a),
    <- (String.string_of_list_ascii_of_string b). unfold chars in H.
  by rewrite H.
Qed.

Lemma chars_text_of (l : list ascii) : chars (text_of l) = l.
Proof. apply String.list_ascii_of_string_of_list_ascii. Qed.

(** On a name shorter than the buffer [strncmp] is string equality. *)
Lemma strncmp_eq_short n (a b : string) :
  String.length a < n → strncmp_eq n a b = bool_decide (a = b).
Proof.
  intros Hlen. unfold strncmp_eq. apply bool_decide_ext.
  rewrite <- length_chars in Hlen.
  rewrite (take_ge (chars a)) by lia. split.
  - intros Heq. apply chars_inj.
    destruct (decide (length (chars b) ≤ n)) as [Hb|Hb].
    + by rewrite take_ge in Heq by lia.
    + assert (length (take n (chars b)) = n) as Hn
        by (rewrite length_take; lia).
      rewrite <- Heq in Hn. lia.
  - intros ->. by rewrite take_ge by lia.
Qed.

Lemma FindChild_loop_zombies pool ns (nm : string) links :
  String.length nm < HUB_MAX_ENTRY_NAME_BYTES →
  FindChild_loop pool ns nm true links
  = if decide (nm ∈ links ∧ is_Some (pool !! (nm :: ns)))
    then Some (nm :: ns) else None.
Proof.
  intros Hlen. induction links as [|link rest IH]; simpl.
  - done.
  - rewrite IH. rewrite strncmp_eq_short by done.
    destruct (pool !! (link :: ns)) as [child|] eqn:Hchild.
    + case_bool_decide as Heq; simpl.
      * subst link. rewrite decide_True; [done|].
        split; [apply elem_of_cons; by left|by eexists].
      * apply decide_ext. rewrite elem_of_cons. split.
        -- intros [Hin Hsome]. split; [by right|done].
        -- intros [[->|Hin] Hsome]; [done|by split].
    + apply decide_ext. rewrite elem_of_cons. split.
      * intros [Hin Hsome]. split; [by right|done].
      * intros [[->|Hin] Hsome]; [|done].
        rewrite Hchild in Hsome. by destruct Hsome.
Qed.

Lemma FindChildEx_zombies pool ns (nm : string) :
  String.length nm < HUB_MAX_ENTRY_NAME_BYTES →
  resTree_FindChildEx pool ns nm true
  = match pool !! ns with
    | Some ent =>
        if decide (nm ∈ childList ent ∧ is_Some (pool !! (nm :: ns)))
        then Some (nm :: ns) else None
    | None => None
    end.
Proof.
  intros Hlen. unfold resTree_FindChildEx.
  destruct (pool !! ns); [|done]. by apply FindChild_loop_zombies.
Qed.

Lemma le_utf8_Copy_short (nm : string) n :
  String.length nm < n → le_utf8_Copy nm n = nm.
Proof.
  intros Hlen. unfold le_utf8_Copy. rewrite <- length_chars in Hlen.
  rewrite take_ge by lia. apply String.string_of_list_ascii_of_string.
Qed.

End PathFacts.

Section LoopFacts.
Context `{Cfg : HubConfig}.

(** The iteration for a well-formed name that names a live child. *)
Lemma GoToEntry_loop_found pool cur en rest doCreate ent child :
  0 < length en < HUB_MAX_ENTRY_NAME_BYTES →
  pool !! cur = Some ent → text_of en ∈ childList ent →
  pool !! (text_of en :: cur) = Some child →
  resTree_IsDeleted child = false →
  GoToEntry_loop pool cur (en :: rest) doCreate
  = GoToEntry_loop pool (text_of en :: cur) rest doCreate.
Proof.
  intros [Hpos Hlen] Hcur Hin Hchild Hlive. simpl.
  rewrite decide_False by lia. rewrite decide_False by lia.
  rewrite FindChildEx_zombies by (by rewrite length_text_of).
  rewrite Hcur. rewrite decide_True by (split; [done|by eexists]).
  simpl. rewrite Hchild. simpl. by rewrite Hlive.
Qed.

(** What a creating iteration that goes on has done. *)
Lemma GoToEntry_loop_create_inv pool cur en rest pool' r :
  GoToEntry_loop pool cur (en :: rest) true = Some (pool', r) →
  (pool' = pool ∧ r = None
   ∧ (length en = 0 ∨ HUB_MAX_ENTRY_NAME_BYTES ≤ length en))
  ∨ (0 < length en < HUB_MAX_ENTRY_NAME_BYTES
     ∧ ∃ pool1,
         descends pool cur (text_of en) pool1
         ∧ GoToEntry_loop pool1 (text_of en :: cur) rest true
           = Some (pool', r)).
Proof.
  simpl. case_decide as Hzero; [intros [= <- <-]; left; auto|].
  case_decide as Hlong; [intros [= <- <-]; left; auto|].
  assert (String.length (text_of en) < HUB_MAX_ENTRY_NAME_BYTES) as Hshort
    by (rewrite length_text_of; lia).
  intros Hloop. right. split; [lia|]. revert Hloop.
  unfold AddChild. rewrite !FindChildEx_zombies by done.
  rewrite le_utf8_Copy_short by done.
  destruct (pool !! cur) as [ent|] eqn:Hcur; simpl; [|done].
  case_decide as Hfound; simpl.
  - destruct Hfound as [Hin [child Hchild]]. rewrite Hchild. simpl.
    destruct (resTree_IsDeleted child) eqn:Hdel.
    + rewrite Hchild.
      destruct (decide (type child = ADMIN_ENTRY_TYPE_NAMESPACE
                        ∧ Some cur = Some cur ∧ childList child = []))
        as [(Hty & _ & Hempty)|]; [|done].
      intros Hloop. eexists. split; [|exact Hloop].
      by eapply descends_resurrect.
    + intros Hloop. eexists. split; [|exact Hloop].
      by eapply descends_found.
  - intros Hloop. eexists. split; [|exact Hloop].
    eapply descends_fresh; [done|].
    destruct (decide (text_of en ∈ childList ent)) as [Hin|Hin]; [|by left].
    right. destruct (pool !! (text_of en :: cur)) eqn:Hc; [|done].
    destruct Hfound. split; [done|by eexists].
Qed.

(** A lookup that arrives has found a live child at every step. *)
Lemma GoToEntry_loop_find_inv pool cur en rest pool' e :
  GoToEntry_loop pool cur (en :: rest) false = Some (pool', Some e) →
  0 < length en < HUB_MAX_ENTRY_NAME_BYTES
  ∧ (∃ ent child,
       pool !! cur = Some ent ∧ text_of en ∈ childList ent
       ∧ pool !! (text_of en :: cur) = Some child
       ∧ resTree_IsDeleted child = false)
  ∧ GoToEntry_loop pool (text_of en :: cur) rest false = Some (pool', Some e).
Proof.
  simpl. case_decide as Hzero; [done|]. case_decide as Hlong; [done|].
  assert (String.length (text_of en) < HUB_MAX_ENTRY_NAME_BYTES) as Hshort
    by (rewrite length_text_of; lia).
  rewrite FindChildEx_zombies by done.
  destruct (pool !! cur) as [ent|] eqn:Hcur; simpl; [|done].
  case_decide as Hfound; simpl; [|done].
  destruct Hfound as [Hin [child Hchild]]. rewrite Hchild. simpl.
  destruct (resTree_IsDeleted child) eqn:Hdel; [done|].
  intros Hloop. split; [lia|]. split; [|done]. by exists ent, child.
Qed.

(** A lookup changes nothing. *)
Lemma GoToEntry_loop_find_pool elements : ∀ pool cur pool' r,
  GoToEntry_loop pool cur elements false = Some (pool', r) → pool' = pool.
Proof.
  induction elements as [|en rest IH]; intros pool cur pool' r; simpl.
  - by intros [= <- _].
  - repeat case_decide; try by intros [= <- _].
    destruct (_ ≫= _) as [[c child]|]; [|by intros [= <- _]].
    destruct (resTree_IsDeleted child); [by intros [= <- _]|]. apply IH.
Qed.

End LoopFacts.

Section DescendFacts.
Context `{Cfg : HubConfig}.

Lemma IsDeleted_same (a b : Entry_t) :
  type a = type b → u a = u b → resTree_IsDeleted a = resTree_IsDeleted b.
Proof.
  intros Hty Hu. unfold resTree_IsDeleted, flags_of. by rewrite Hty, Hu.
Qed.

Lemma descends_frame pool cur nm pool1 :
  descends pool cur nm pool1 →
  ∀ k, k ≠ cur → k ≠ nm :: cur → pool1 !! k = pool !! k.
Proof.
  intros Hstep k Hk Hc. destruct Hstep; [done|..].
  - by rewrite lookup_insert_ne.
  - by rewrite !lookup_insert_ne.
Qed.

Lemma descends_cur pool cur nm pool1 ent :
  descends pool cur nm pool1 → pool !! cur = Some ent →
  ∃ ent1, pool1 !! cur = Some ent1 ∧ type ent1 = type ent ∧ u ent1 = u ent
          ∧ childList ent ⊆ childList ent1.
Proof.
  assert (nm :: cur ≠ cur) as Hne.
  { intros Heq. apply (f_equal length) in Heq. simpl in Heq. lia. }
  intros Hstep Hcur. destruct Hstep as [| |ent0 Hcur0 _].
  - by exists ent.
  - exists ent. by rewrite lookup_insert_ne.
  - rewrite Hcur in Hcur0. injection Hcur0 as <-. eexists.
    rewrite lookup_insert_ne by done. rewrite lookup_insert_eq.
    split; [done|]. simpl. split_and!; [done|done|].
    intros x Hx. apply elem_of_app. by left.
Qed.

(** After the iteration the child is there, linked and live, provided the
    flag of a new entry is not the flag of a deleted one. *)
Lemma descends_linked pool cur nm pool1 :
  has_flag RES_FLAG_NEW RES_FLAG_DELETED = false →
  descends pool cur nm pool1 →
  ∃ ent1 child1,
    pool1 !! cur = Some ent1 ∧ nm ∈ childList ent1
    ∧ pool1 !! (nm :: cur) = Some child1
    ∧ resTree_IsDeleted child1 = false.
Proof.
  assert (nm :: cur ≠ cur) as Hne.
  { intros Heq. apply (f_equal length) in Heq. simpl in Heq. lia. }
  intros Hflags Hstep.
  destruct Hstep as [ent child Hcur Hin Hchild Hlive
                    |ent child Hcur Hin Hchild Hdel Hempty
                    |ent Hcur Hnew].
  - by exists ent, child.
  - exists ent. eexists. rewrite lookup_insert_ne by done.
    rewrite lookup_insert_eq. split_and!; [done|done|done|].
    unfold resTree_IsDeleted in *. simpl.
    case_decide; [|done]. done.
  - eexists _, _. rewrite lookup_insert_ne by done.
    rewrite !lookup_insert_eq. split_and!; [done| |done|].
    + simpl. apply elem_of_app. right. apply elem_of_cons; by left.
    + unfold resTree_IsDeleted. simpl. done.
Qed.

(** A creating resolution touches only the entries at and below the one it
    starts from, and leaves the kind and the union of that one alone. *)
Lemma GoToEntry_loop_frame elements : ∀ pool cur pool' r,
  GoToEntry_loop pool cur elements true = Some (pool', r) →
  (∀ k, ¬ cur `suffix_of` k → pool' !! k = pool !! k)
  ∧ (∀ ent, pool !! cur = Some ent →
       ∃ ent', pool' !! cur = Some ent' ∧ type ent' = type ent
               ∧ u ent' = u ent).
Proof.
  induction elements as [|en rest IH]; intros pool cur pool' r Hloop.
  - simpl in Hloop. injection Hloop as <- _. split; [done|]. eauto.
  - apply GoToEntry_loop_create_inv in Hloop
      as [(-> & _ & _)|(Hlen & pool1 & Hstep & Hloop)].
    { split; [done|]. eauto. }
    destruct (IH _ _ _ _ Hloop) as [Hframe Hc].
    assert (∀ k, text_of en :: cur `suffix_of` k → cur `suffix_of` k)
      as Hsuf.
    { intros k [l ->]. exists (l ++ [text_of en]). by rewrite <- app_assoc. }
    assert (¬ text_of en :: cur `suffix_of` cur) as Hne.
    { intros Hs. apply suffix_length in Hs. simpl in Hs. lia. }
    split.
    + intros k Hk. rewrite Hframe by auto.
      apply (descends_frame _ _ _ _ Hstep).
      * intros ->. by apply Hk.
      * intros ->. apply Hk. by apply suffix_cons_r.
    + intros ent Hcur. rewrite Hframe by done.
      destruct (descends_cur _ _ _ _ _ Hstep Hcur)
        as (ent1 & ? & ? & ? & _). eauto.
Qed.

Lemma GoToEntry_loop_find_after_create elements :
  has_flag RES_FLAG_NEW RES_FLAG_DELETED = false →
  ∀ pool cur pool' e,
    GoToEntry_loop pool cur elements true = Some (pool', Some e) →
    GoToEntry_loop pool' cur elements false = Some (pool', Some e).
Proof.
  intros Hflags.
  induction elements as [|en rest IH]; intros pool cur pool' e Hloop.
  - simpl in *. by injection Hloop as <- <-.
  - apply GoToEntry_loop_create_inv in Hloop
      as [(_ & [=] & _)|(Hlen & pool1 & Hstep & Hloop)].
    destruct (descends_linked _ _ _ _ Hflags Hstep)
      as (ent1 & child1 & Hcur & Hin & Hchild & Hlive).
    destruct (GoToEntry_loop_frame _ _ _ _ _ Hloop) as [Hframe Hc].
    destruct (Hc _ Hchild) as (child' & Hchild' & Hty & Hu).
    erewrite GoToEntry_loop_found; [eapply IH; exact Hloop|done|..|exact Hchild'|].
    + rewrite Hframe; [exact Hcur|].
      intros Hs. apply suffix_length in Hs. simpl in Hs. lia.
    + done.
    + rewrite <- Hlive. by apply IsDeleted_same.
Qed.

Lemma GoToEntry_loop_create_existing elements : ∀ pool cur pool' e,
  GoToEntry_loop pool cur elements false = Some (pool', Some e) →
  GoToEntry_loop pool cur elements true = Some (pool, Some e).
Proof.
  induction elements as [|en rest IH]; intros pool cur pool' e Hloop.
  - simpl in *. by injection Hloop as _ <-.
  - apply GoToEntry_loop_find_inv in Hloop
      as (Hlen & (ent & child & Hcur & Hin & Hchild & Hlive) & Hloop).
    erewrite GoToEntry_loop_found by done. by eapply IH.
Qed.

End DescendFacts.

(** ** Printing paths *)

Section PrintFacts.
Context `{Cfg : HubConfig}.

Lemma length_append (a b : string) :
  String.length (a +:+ b) = String.length a + String.length b.
Proof.
  induction a as [|c a IH]; [done|].
  change (S (String.length (a +:+ b)) = S (String.length a) + String.length b).
  by rewrite IH.
Qed.

Lemma append_assoc (a b c : string) : (a +:+ b) +:+ c = a +:+ (b +:+ c).
Proof.
  induction a as [|x a IH]; [done|].
  change (String x ((a +:+ b) +:+ c) = String x (a +:+ (b +:+ c))).
  by rewrite IH.
Qed.

Lemma copy_out_fits (src : string) size :
  String.length src < size → copy_out src size = (LE_OK, src).
Proof. intros Hlen. unfold copy_out. by rewrite decide_True. Qed.

Lemma copy_out_overflow (src : string) size :
  size ≤ String.length src →
  copy_out src size = (LE_OVERFLOW, le_utf8_Copy src size).
Proof. intros Hlen. unfold copy_out. by rewrite decide_False by lia. Qed.

Lemma join_names_snoc names (nm : string) :
  names ≠ [] →
  join_names (names ++ [nm]) = join_names names +:+ "/" +:+ nm.
Proof.
  induction names as [|a names IH]; [done|]. intros _.
  destruct names as [|b names]; [done|].
  change (join_names ((a :: b :: names) ++ [nm]))
    with (a +:+ "/" +:+ join_names ((b :: names) ++ [nm])).
  rewrite IH by done.
  change (join_names (a :: b :: names))
    with (a +:+ "/" +:+ join_names (b :: names)).
  by rewrite !append_assoc.
Qed.

End PrintFacts.

Section GetPathFacts.
Context `{Cfg : HubConfig}.

(** One level above the entry whose parent is the base namespace. *)
Lemma GetPath_child size (base : EntryRef) (nm : string) :
  resTree_GetPath size base (nm :: base)
  = if decide (base = RootPtr) then
      match copy_out "/" size with
      | (LE_OK, written) =>
          match copy_out nm (size - 1) with
          | (LE_OK, text) =>
              Some (inl (1 + String.length text), written +:+ text)
          | (_, text) => Some (inr LE_OVERFLOW, written +:+ text)
          end
      | (_, written) => Some (inr LE_OVERFLOW, written)
      end
    else
      match copy_out nm size with
      | (LE_OK, text) => Some (inl (String.length text), text)
      | (_, text) => Some (inr LE_OVERFLOW, text)
      end.
Proof.
  assert (nm :: base ≠ base) as Hne.
  { intros Heq. apply (f_equal length) in Heq. simpl in Heq. lia. }
  cbn [resTree_GetPath]. rewrite decide_False by done.
  cbn [parentPtr]. rewrite decide_True by done.
  case_decide; [|done]. by destruct (copy_out "/" size) as [[] ?].
Qed.

(** Further up: the path of the parent, a slash, the name. *)
Lemma GetPath_deeper size (base parent : EntryRef) (nm : string) :
  nm :: parent ≠ base → parent ≠ base →
  resTree_GetPath size base (nm :: parent)
  = match resTree_GetPath size base parent with
    | Some (inl result, written) =>
        match copy_out "/" (size - result) with
        | (LE_OK, sep) =>
            match copy_out nm (size - result - String.length sep) with
            | (LE_OK, text) =>
                Some (inl (result + String.length sep + String.length text),
                      written +:+ sep +:+ text)
            | (_, text) => Some (inr LE_OVERFLOW, written +:+ sep +:+ text)
            end
        | (_, sep) => Some (inr LE_OVERFLOW, written +:+ sep)
        end
    | failed => failed
    end.
Proof.
  intros Hne Hparent. cbn [resTree_GetPath]. rewrite decide_False by done.
  cbn [parentPtr]. rewrite decide_False by congruence. done.
Qed.

(** The Root is reached: the entry is not below the base namespace. *)
Lemma GetPath_outside size (base entry : EntryRef) :
  ¬ base `suffix_of` entry →
  resTree_GetPath size base entry = Some (inr LE_NOT_FOUND, "").
Proof.
  induction entry as [|nm parent IH]; intros Hout.
  - cbn [resTree_GetPath]. rewrite decide_False.
    + cbn [parentPtr]. by rewrite decide_False.
    + intros <-. by apply Hout.
  - rewrite GetPath_deeper.
    + rewrite IH; [done|]. intros Hs. apply Hout. by apply suffix_cons_r.
    + intros <-. by apply Hout.
    + intros <-. apply Hout. by apply suffix_cons_r.
Qed.

Lemma GetPath_names size (base : EntryRef) (names : list string) :
  names ≠ [] →
  let text := printed base (join_names names) in
  (String.length text < size →
   resTree_GetPath size base (reverse names ++ base)
   = Some (inl (String.length text), text))
  ∧ (size ≤ String.length text →
     ∃ partial,
       resTree_GetPath size base (reverse names ++ base)
       = Some (inr LE_OVERFLOW, partial)).
Proof.
  induction names as [|nm init IH] using rev_ind; [done|]. intros _.
  rewrite reverse_snoc. cbn [app].
  destruct (decide (init = [])) as [->|Hinit].
  - rewrite reverse_nil. cbn [app join_names]. rewrite GetPath_child.
    unfold printed. case_decide as Hroot.
    + cbn zeta. rewrite length_append. cbn [String.length].
      split; intros Hlen.
      * rewrite copy_out_fits by (simpl; lia).
        by rewrite copy_out_fits by lia.
      * destruct (decide (size ≤ 1)).
        -- rewrite copy_out_overflow by (simpl; lia). eauto.
        -- rewrite copy_out_fits by (simpl; lia).
           rewrite copy_out_overflow by lia. eauto.
    + cbn zeta. split; intros Hlen.
      * by rewrite copy_out_fits by lia.
      * rewrite copy_out_overflow by lia. eauto.
  - specialize (IH Hinit). cbn zeta in IH. destruct IH as [IHfits IHover].
    rewrite GetPath_deeper.
    2:{ intros Heq. apply (f_equal length) in Heq. simpl in Heq.
        rewrite length_app in Heq. lia. }
    2:{ intros Heq. apply (f_equal length) in Heq.
        rewrite length_app, length_reverse in Heq.
        destruct init; [done|]. simpl in Heq. lia. }
    rewrite join_names_snoc by done. cbn zeta.
    assert (printed base (join_names init +:+ "/" +:+ nm)
            = printed base (join_names init) +:+ "/" +:+ nm) as ->.
    { unfold printed. case_decide; [|done]. by rewrite !append_assoc. }
    rewrite !length_append. cbn [String.length].
    split; intros Hlen.
    + rewrite IHfits by lia. rewrite copy_out_fits by (simpl; lia).
      cbn [String.length]. rewrite copy_out_fits by lia.
      do 3 f_equal. lia.
    + destruct (decide (String.length (printed base (join_names init))
                        < size)) as [Hfit|Hfit].
      * rewrite IHfits by done.
        destruct (decide (size - String.length
                                   (printed base (join_names init)) ≤ 1)).
        -- rewrite copy_out_overflow by (simpl; lia). eauto.
        -- rewrite copy_out_fits by (simpl; lia). cbn [String.length].
           rewrite copy_out_overflow by lia. eauto.
      * destruct IHover as [partial ->]; [lia|]. eauto.
Qed.

End GetPathFacts.

Section SplitFacts.
Context `{Cfg : HubConfig}.

Lemma split_slash_nonempty l : split_slash l ≠ [].
Proof.
  destruct l as [|c rest]; simpl; [done|].
  case_decide; [done|]. by destruct (split_slash rest).
Qed.

(** Joining the pieces of a byte string with slashes gives the string. *)
Lemma split_slash_join l :
  join_names (text_of <$> split_slash l) = text_of l.
Proof.
  induction l as [|c rest IH]; [done|]. cbn [split_slash].
  pose proof (split_slash_nonempty rest) as Hne.
  case_decide as Hc.
  - subst c. destruct (split_slash rest) as [|piece pieces]; [done|].
    change (text_of <$> [] :: piece :: pieces)
      with ("" :: text_of piece :: (text_of <$> pieces)).
    change (join_names ("" :: text_of piece :: (text_of <$> pieces)))
      with ("" +:+ "/" +:+ join_names (text_of <$> piece :: pieces)).
    by rewrite IH.
  - destruct (split_slash rest) as [|piece pieces]; [done|].
    destruct pieces as [|piece' pieces].
    + change (text_of piece = text_of rest) in IH.
      change (String c (text_of piece) = String c (text_of rest)).
      by rewrite IH.
    + change (text_of piece +:+ "/"
              +:+ join_names (text_of <$> piece' :: pieces)
              = text_of rest) in IH.
      change (String c (text_of piece +:+ "/"
                        +:+ join_names (text_of <$> piece' :: pieces))
              = String c (text_of rest)).
      by rewrite IH.
Qed.

Lemma text_of_chars (s : string) : text_of (chars s) = s.
Proof. apply String.string_of_list_ascii_of_string. Qed.

Lemma path_elements_join (path : string) :
  path ≠ "" →
  path_elements (chars path) ≠ []
  ∧ join_names (text_of <$> path_elements (chars path)) = skip_slash path.
Proof.
  destruct path as [|c rest]; [done|]. intros _.
  change (chars (String c rest)) with (c :: chars rest).
  cbn [path_elements skip_slash]. case_decide.
  - split; [apply split_slash_nonempty|].
    by rewrite split_slash_join, text_of_chars.
  - split; [apply split_slash_nonempty|].
    rewrite split_slash_join. apply (text_of_chars (String c rest)).
Qed.

(** The entry a resolution arrives at is the one the names spell. *)
Lemma GoToEntry_loop_ref elements : ∀ pool cur pool' e doCreate,
  GoToEntry_loop pool cur elements doCreate = Some (pool', Some e) →
  e = reverse (text_of <$> elements) ++ cur.
Proof.
  induction elements as [|en rest IH]; intros pool cur pool' e doCreate Hloop.
  - simpl in Hloop. by injection Hloop as _ <-.
  - rewrite fmap_cons, reverse_cons, <- app_assoc. cbn [app].
    destruct doCreate.
    + apply GoToEntry_loop_create_inv in Hloop
        as [(_ & [=] & _)|(_ & pool1 & _ & Hloop)]. by eapply IH.
    + apply GoToEntry_loop_find_inv in Hloop as (_ & _ & Hloop).
      by eapply IH.
Qed.

Lemma FindEntry_inv pool base path e :
  resTree_FindEntry pool base path = Some e →
  has_illegal_char (chars path) = false
  ∧ GoToEntry_loop pool base (path_elements (chars path)) false
    = Some (pool, Some e).
Proof.
  unfold resTree_FindEntry, GoToEntry.
  destruct (has_illegal_char (chars path)); [done|].
  destruct (GoToEntry_loop _ _ _ _) as [[pool' r]|] eqn:Hloop; [|done].
  intros ->. split; [done|].
  by rewrite (GoToEntry_loop_find_pool _ _ _ _ _ Hloop).
Qed.

(** A path that resolves and the same path without (or with) the slash it
    may start with have the same elements. *)
Lemma path_elements_skip pool base path e :
  resTree_FindEntry pool base path = Some e → path ≠ "" →
  has_illegal_char (chars (skip_slash path)) = false
  ∧ path_elements (chars (skip_slash path)) = path_elements (chars path)
  ∧ path_elements (SLASH :: chars (skip_slash path))
    = path_elements (chars path).
Proof.
  intros Hfind Hpath. apply FindEntry_inv in Hfind as [Hlegal Hloop].
  destruct path as [|c rest]; [done|].
  change (chars (String c rest)) with (c :: chars rest) in *.
  cbn [skip_slash path_elements] in *. case_decide as Hc.
  - subst c. split; [by simpl in Hlegal|].
    cbn [path_elements]. rewrite decide_True by done. split; [|done].
    destruct rest as [|c' rest'].
    + by simpl in Hloop.
    + change (chars (String c' rest')) with (c' :: chars rest') in *.
      cbn [path_elements]. case_decide as Hc'; [|done]. subst c'.
      cbn [split_slash] in Hloop. rewrite decide_True in Hloop by done.
      by simpl in Hloop.
  - change (chars (String c rest)) with (c :: chars rest).
    split; [done|]. cbn [path_elements]. rewrite decide_False by done.
    split; [done|]. by rewrite decide_True.
Qed.

End SplitFacts.

(** X1. An entry that [resTree_GetEntry] returns is found by
    [resTree_FindEntry] at the same path afterwards, provided the flag a new
    entry carries is not the flag of a deleted one. *)
Theorem created_entry_is_found `{Cfg : HubConfig}
    (pool : gmap EntryRef Entry_t) base path pool' e :
  has_flag RES_FLAG_NEW RES_FLAG_DELETED = false →
  resTree_GetEntry pool base path = Some (pool', Some e) →
  resTree_FindEntry pool' base path = Some e.
Proof.
  intros Hflags. unfold resTree_GetEntry, resTree_FindEntry, GoToEntry.
  destruct (has_illegal_char (chars path)); [done|]. intros Hloop.
  by rewrite (GoToEntry_loop_find_after_create _ Hflags _ _ _ _ Hloop).
Qed.

Lemma created_entry_is_found_witness :
  (has_flag (RES_FLAG_NEW (HubConfig := ex_config))
     (RES_FLAG_DELETED (HubConfig := ex_config)) = false
   ∧ resTree_GetEntry (Cfg := ex_config) (resTree_Init (Cfg := ex_config))
       [] "a/b"
     = Some (ex_grown, Some ["b"; "a"]))
  ∧ resTree_FindEntry (Cfg := ex_config) ex_grown [] "a/b"
    = Some ["b"; "a"].
Proof.
  split; [split; by vm_compute|].
  apply (created_entry_is_found (Cfg := ex_config)
           (resTree_Init (Cfg := ex_config)) [] "a/b" ex_grown ["b"; "a"]);
    by vm_compute.
Defined.

(** X2. When [resTree_FindEntry] finds an entry at a path,
    [resTree_GetEntry] returns that entry for the path and leaves the tree
    as it is: nothing is created on the way. *)
Theorem existing_entry_is_not_recreated `{Cfg : HubConfig}
    (pool : gmap EntryRef Entry_t) base path e :
  resTree_FindEntry pool base path = Some e →
  resTree_GetEntry pool base path = Some (pool, Some e).
Proof.
  intros Hfind. apply FindEntry_inv in Hfind as [Hlegal Hloop].
  unfold resTree_GetEntry, GoToEntry. rewrite Hlegal.
  by eapply GoToEntry_loop_create_existing.
Qed.

Lemma existing_entry_is_not_recreated_witness :
  resTree_FindEntry (Cfg := ex_config) ex_pool ex_ns "temp"
  = Some ("temp" :: ex_ns)
  ∧ resTree_GetEntry (Cfg := ex_config) ex_pool ex_ns "temp"
    = Some (ex_pool, Some ("temp" :: ex_ns)).
Proof.
  split; [by vm_compute|].
  apply (existing_entry_is_not_recreated (Cfg := ex_config) ex_pool ex_ns
           "temp" ("temp" :: ex_ns)).
  by vm_compute.
Defined.

(** X3. The path of an entry found at [path] below [base], as
    [resTree_GetPath] prints it, is [path] without the slash it may start
    with, and with a slash in front when [base] is the Root.  When that text
    and its terminator fit the buffer, the text is written and its length is
    returned; when they do not, the result is [LE_OVERFLOW]. *)
Theorem path_of_found_entry `{Cfg : HubConfig}
    (pool : gmap EntryRef Entry_t) base path e size :
  resTree_FindEntry pool base path = Some e →
  path ≠ "" →
  0 < size →
  let text := printed base (skip_slash path) in
  (String.length text < size →
   resTree_GetPath size base e = Some (inl (String.length text), text))
  ∧ (size ≤ String.length text →
     ∃ partial, resTree_GetPath size base e = Some (inr LE_OVERFLOW, partial)).
Proof.
  intros Hfind Hpath _. apply FindEntry_inv in Hfind as [_ Hloop].
  apply GoToEntry_loop_ref in Hloop as ->.
  destruct (path_elements_join path Hpath) as [Hne <-].
  apply GetPath_names. by destruct (path_elements (chars path)).
Qed.

Lemma path_of_found_entry_witness :
  (resTree_FindEntry (Cfg := ex_config) ex_pool [] "app/app1/temp"
   = Some ("temp" :: ex_ns)
   ∧ "app/app1/temp" ≠ "" ∧ 0 < 15)
  ∧ (String.length "/app/app1/temp" < 15 →
     resTree_GetPath 15 [] ("temp" :: ex_ns)
     = Some (inl (String.length "/app/app1/temp"), "/app/app1/temp"))
  ∧ (15 ≤ String.length "/app/app1/temp" →
     ∃ partial,
       resTree_GetPath 15 [] ("temp" :: ex_ns)
       = Some (inr LE_OVERFLOW, partial)).
Proof.
  split; [split_and!; [by vm_compute|done|lia]|].
  apply (path_of_found_entry (Cfg := ex_config) ex_pool [] "app/app1/temp"
           ("temp" :: ex_ns) 15); [by vm_compute|done|lia].
Defined.

(** X4. The text [resTree_GetPath] prints for an entry found below [base]
    resolves to that entry again: [resTree_FindEntry] finds it from [base],
    and when [base] is the Root [resTree_FindEntryAtAbsolutePath] finds it
    too.  The count returned is the length of the text. *)
Theorem printed_path_resolves `{Cfg : HubConfig}
    (pool : gmap EntryRef Entry_t) base path e size n text :
  resTree_FindEntry pool base path = Some e →
  path ≠ "" →
  resTree_GetPath size base e = Some (inl n, text) →
  n = String.length text
  ∧ resTree_FindEntry pool base text = Some e
  ∧ (base = resTree_GetRoot →
     resTree_FindEntryAtAbsolutePath pool text = Some e).
Proof.
  intros Hfind Hpath Hprint.
  destruct (path_elements_skip _ _ _ _ Hfind Hpath)
    as (Hlegal & Hskip & Hslash).
  pose proof Hfind as Hloop. apply FindEntry_inv in Hloop as [_ Hloop].
  pose proof (GoToEntry_loop_ref _ _ _ _ _ _ Hloop) as ->.
  destruct (path_elements_join path Hpath) as [Hne Hjoin].
  destruct (GetPath_names size base (text_of <$> path_elements (chars path)))
    as [Hfits Hover]; [by destruct (path_elements (chars path))|].
  cbn zeta in Hfits, Hover. rewrite Hjoin in Hfits, Hover.
  destruct (decide (String.length (printed base (skip_slash path)) < size))
    as [Hlen|Hlen].
  2:{ destruct Hover as [partial Hover]; [lia|]. congruence. }
  rewrite Hfits in Hprint by done. injection Hprint as <- <-.
  split; [done|].
  assert (resTree_FindEntry pool base (skip_slash path)
          = Some (reverse (text_of <$> path_elements (chars path)) ++ base))
    as Hplain.
  { unfold resTree_FindEntry, GoToEntry. by rewrite Hlegal, Hskip, Hloop. }
  unfold printed, resTree_GetRoot. case_decide as Hroot.
  - subst base. split; [|intros _].
    + unfold resTree_FindEntry, GoToEntry.
      change (chars ("/" +:+ skip_slash path))
        with (SLASH :: chars (skip_slash path)).
      change (has_illegal_char (SLASH :: chars (skip_slash path)))
        with (has_illegal_char (chars (skip_slash path))).
      by rewrite Hlegal, Hslash, Hloop.
    + change ("/" +:+ skip_slash path) with (String SLASH (skip_slash path)).
      cbn [resTree_FindEntryAtAbsolutePath].
      rewrite decide_False by (intros H; by apply H). exact Hplain.
  - split; [exact Hplain|done].
Qed.

Lemma printed_path_resolves_witness :
  (resTree_FindEntry (Cfg := ex_config) ex_pool [] "app/app1/temp"
   = Some ("temp" :: ex_ns)
   ∧ "app/app1/temp" ≠ ""
   ∧ resTree_GetPath 15 [] ("temp" :: ex_ns)
     = Some (inl 14, "/app/app1/temp"))
  ∧ 14 = String.length "/app/app1/temp"
  ∧ resTree_FindEntry (Cfg := ex_config) ex_pool [] "/app/app1/temp"
    = Some ("temp" :: ex_ns)
  ∧ ([] = resTree_GetRoot →
     resTree_FindEntryAtAbsolutePath (Cfg := ex_config) ex_pool
       "/app/app1/temp"
     = Some ("temp" :: ex_ns)).
Proof.
  split; [split_and!; [by vm_compute|done|by vm_compute]|].
  apply (printed_path_resolves (Cfg := ex_config) ex_pool [] "app/app1/temp"
           ("temp" :: ex_ns) 15 14 "/app/app1/temp");
    [by vm_compute|done|by vm_compute].
Defined.

(** X5. For an entry that is neither the base namespace nor below it,
    [resTree_GetPath] returns [LE_NOT_FOUND] and writes nothing, whatever the
    size of the buffer. *)
Theorem path_outside_base_is_not_found (size : nat) (base entry : EntryRef) :
  ¬ base `suffix_of` entry →
  resTree_GetPath size base entry = Some (inr LE_NOT_FOUND, "").
Proof. apply GetPath_outside. Qed.

Lemma path_outside_base_is_not_found_witness :
  ¬ ex_ns `suffix_of` ["sensor"; "app2"; "app"]
  ∧ resTree_GetPath 64 ex_ns ["sensor"; "app2"; "app"]
    = Some (inr LE_NOT_FOUND, "").
Proof.
  assert (¬ ex_ns `suffix_of` ["sensor"; "app2"; "app"]) as Hout.
  { intros [l Hl]. apply (f_equal reverse) in Hl.
    rewrite reverse_app in Hl. by vm_compute in Hl. }
  split; [done|].
  by apply (path_outside_base_is_not_found 64 ex_ns ["sensor"; "app2"; "app"]).
Defined.

(** ** The shape of the tree *)

Section ShapeFacts.
Context `{Cfg : HubConfig} `{Res : ResourceModule}.

Lemma tree_ok_Init : tree_ok resTree_Init.
Proof.
  unfold resTree_Init, RootPtr. split.
  - intros c p [ent Hent]. by rewrite lookup_insert_ne, lookup_empty in Hent.
  - intros p ent Hent.
    destruct (decide (p = [])) as [->|Hp].
    + rewrite lookup_insert_eq in Hent. injection Hent as <-. simpl.
      split_and!; [apply NoDup_nil_2| |lia|lia].
      intros c. rewrite lookup_insert_ne, lookup_empty by done. split.
      * intros H. by apply elem_of_nil in H.
      * by intros [? ?].
    + by rewrite lookup_insert_ne, lookup_empty in Hent.
Qed.

(** Storing another kind or union in an entry keeps the shape. *)
Lemma tree_ok_set_type_u pool e ent t v :
  tree_ok pool → pool !! e = Some ent →
  tree_ok (<[e := set_type_u ent t v]> pool).
Proof.
  intros [Hclosed Hshape] Hent.
  assert (∀ k, is_Some (<[e := set_type_u ent t v]> pool !! k)
               ↔ is_Some (pool !! k)) as Hkeys.
  { intros k. destruct (decide (k = e)) as [->|Hk].
    - rewrite lookup_insert_eq, Hent. split; by eexists.
    - by rewrite lookup_insert_ne. }
  split.
  - intros c p. rewrite !Hkeys. apply Hclosed.
  - intros p ent' Hent'.
    assert (∃ ent0, pool !! p = Some ent0
                    ∧ childList ent' = childList ent0
                    ∧ refCount ent' = refCount ent0) as (ent0 & Hp & -> & ->).
    { destruct (decide (p = e)) as [->|Hp].
      - rewrite lookup_insert_eq in Hent'. injection Hent' as <-. eauto.
      - rewrite lookup_insert_ne in Hent' by done. eauto. }
    destruct (Hshape _ _ Hp) as (Hdup & Hlinks & Hrefs & Hpos).
    split_and!; [done| |done|done]. intros c. rewrite Hkeys. apply Hlinks.
Qed.

Lemma descends_tree_ok pool cur nm pool1 :
  tree_ok pool → descends pool cur nm pool1 → tree_ok pool1.
Proof.
  intros Hok Hstep.
  destruct Hstep as [|ent child Hcur Hin Hchild Hdel Hempty|ent Hcur Hnew];
    [done|by apply tree_ok_set_type_u|].
  destruct Hok as [Hclosed Hshape].
  destruct (Hshape _ _ Hcur) as (Hdup & Hlinks & Hrefs & Hpos).
  assert (pool !! (nm :: cur) = None) as Hfree.
  { destruct Hnew as [Hnew|Hnew]; [|done].
    destruct (pool !! (nm :: cur)) eqn:Hc; [|done].
    destruct Hnew. apply Hlinks. by eexists. }
  assert (nm ∉ childList ent) as Hnot.
  { intros Hin. apply Hlinks in Hin. rewrite Hfree in Hin. by destruct Hin. }
  assert (nm :: cur ≠ cur) as Hne.
  { intros Heq. apply (f_equal length) in Heq. simpl in Heq. lia. }
  set (parentEnt := set_childList (set_refCount ent (S (refCount ent)))
                      (childList ent ++ [nm])).
  set (fresh := mkEntry [] ADMIN_ENTRY_TYPE_NAMESPACE (U_flags RES_FLAG_NEW) 1).
  assert (∀ k, is_Some (<[nm :: cur := fresh]> (<[cur := parentEnt]> pool)
                          !! k)
               ↔ k = nm :: cur ∨ is_Some (pool !! k)) as Hkeys.
  { intros k. destruct (decide (k = nm :: cur)) as [->|Hk].
    - rewrite lookup_insert_eq. split; [by left|by eexists].
    - rewrite lookup_insert_ne by done.
      destruct (decide (k = cur)) as [->|Hk'].
      + rewrite lookup_insert_eq, Hcur. split; [right|]; by eexists.
      + rewrite lookup_insert_ne by done. split; [by right|].
        by intros [?|?]. }
  split.
  - intros c p. rewrite !Hkeys. intros [[= -> ->]|Hsome].
    + right. by eexists.
    + right. by eapply Hclosed.
  - intros p ent' Hent'.
    destruct (decide (p = nm :: cur)) as [->|Hp].
    { rewrite lookup_insert_eq in Hent'. injection Hent' as <-. simpl.
      split_and!; [apply NoDup_nil_2| |lia|lia].
      intros c. rewrite Hkeys. split.
      - intros H. by apply elem_of_nil in H.
      - intros [Heq|Hsome].
        + apply (f_equal length) in Heq. simpl in Heq. lia.
        + apply Hclosed in Hsome. rewrite Hfree in Hsome. by destruct Hsome. }
    rewrite lookup_insert_ne in Hent' by done.
    destruct (decide (p = cur)) as [->|Hp'].
    { rewrite lookup_insert_eq in Hent'. injection Hent' as <-. simpl.
      split_and!.
      - apply NoDup_app. split_and!; [done| |apply NoDup_singleton].
        intros x Hx Hx'. apply elem_of_cons in Hx' as [->|Hx']; [done|].
        by apply elem_of_nil in Hx'.
      - intros c. rewrite Hkeys, elem_of_app, elem_of_cons, Hlinks. split.
        + intros [Hsome|[->|Hnil]]; [by right|by left|].
          by apply elem_of_nil in Hnil.
        + intros [[= ->]|Hsome]; [right; by left|by left].
      - rewrite length_app. simpl. lia.
      - lia. }
    rewrite lookup_insert_ne in Hent' by done.
    destruct (Hshape _ _ Hent') as (Hdup' & Hlinks' & Hrefs' & Hpos').
    split_and!; [done| |done|done].
    intros c. rewrite Hkeys, Hlinks'. split; [by right|].
    intros [[= _ ->]|Hsome]; [done|done].
Qed.

Lemma GoToEntry_loop_tree_ok elements : ∀ pool cur pool' r,
  tree_ok pool →
  GoToEntry_loop pool cur elements true = Some (pool', r) →
  tree_ok pool'.
Proof.
  induction elements as [|en rest IH]; intros pool cur pool' r Hok Hloop.
  - simpl in Hloop. by injection Hloop as <- _.
  - apply GoToEntry_loop_create_inv in Hloop
      as [(-> & _ & _)|(_ & pool1 & Hstep & Hloop)]; [done|].
    eapply IH; [|exact Hloop]. by eapply descends_tree_ok.
Qed.

Lemma GoToEntry_tree_ok pool base path pool' r :
  tree_ok pool → GoToEntry pool base path true = Some (pool', r) →
  tree_ok pool'.
Proof.
  intros Hok. unfold GoToEntry.
  destruct (has_illegal_char (chars path)); [by intros [= <- _]|].
  by apply GoToEntry_loop_tree_ok.
Qed.

Lemma ReplaceResource_tree_ok pool e r t :
  tree_ok pool → tree_ok (ReplaceResource pool e r t).
Proof.
  intros Hok. unfold ReplaceResource.
  destruct (pool !! e) as [ent|] eqn:Hent; [|done].
  by apply tree_ok_set_type_u.
Qed.

End ShapeFacts.

Section ReleaseFacts.
Context `{Cfg : HubConfig}.

(** Releasing an entry looks at the entry and its ancestors only. *)
Lemma le_mem_Release_delete (e : EntryRef) : ∀ (pool : gmap EntryRef Entry_t) k,
  ¬ k `suffix_of` e →
  le_mem_Release (delete k pool) e = delete k <$> le_mem_Release pool e.
Proof.
  induction e as [|link parent IH]; intros pool k Hk.
  - assert (k ≠ []) as Hne by (intros ->; by apply Hk).
    simpl. rewrite lookup_delete_ne by done.
    destruct (pool !! []) as [ent|]; [|done].
    destruct (refCount ent) as [|[|n]]; [done|done|]. simpl.
    by rewrite delete_insert_ne.
  - assert (k ≠ link :: parent) as Hne by (intros ->; by apply Hk).
    assert (¬ k `suffix_of` parent) as Hparent.
    { intros Hs. apply Hk. by apply suffix_cons_r. }
    assert (k ≠ parent) as Hne' by (intros ->; by apply Hparent).
    cbn [le_mem_Release]. rewrite !lookup_delete_ne by done.
    destruct (pool !! (link :: parent)) as [ent|]; [|done].
    destruct (refCount ent) as [|[|n]]; [done| |].
    + destruct (childList ent); [|done].
      destruct (pool !! parent) as [parentEnt|]; [|done].
      rewrite <- delete_insert_ne by done. rewrite IH by done.
      destruct (le_mem_Release _ parent) as [pool2|]; [|done]. simpl.
      f_equal. apply delete_delete.
    + simpl. by rewrite delete_insert_ne.
Qed.

(** The last reference of a leaf goes: the entry leaves the pool and its
    parent's list, and the shape is kept with the parent still holding the
    reference of the child that left. *)
Lemma tree_ok_unlink (pool : gmap EntryRef Entry_t) link parent ent parentEnt :
  tree_ok pool →
  pool !! (link :: parent) = Some ent → childList ent = [] →
  pool !! parent = Some parentEnt →
  let unlinked :=
    set_childList parentEnt (filter (λ l, l ≠ link) (childList parentEnt)) in
  tree_ok (delete (link :: parent) (<[parent := unlinked]> pool))
  ∧ length (childList unlinked) < refCount unlinked.
Proof.
  intros [Hclosed Hshape] Hent Hleaf Hparent unlinked.
  assert (link :: parent ≠ parent) as Hne.
  { intros Heq. apply (f_equal length) in Heq. simpl in Heq. lia. }
  destruct (Hshape _ _ Hparent) as (Hdup & Hlinks & Hrefs & Hpos).
  destruct (Hshape _ _ Hent) as (_ & Hnone & _).
  assert (link ∈ childList parentEnt) as Hin by (apply Hlinks; by eexists).
  assert (length (filter (λ l, l ≠ link) (childList parentEnt))
          < length (childList parentEnt)) as Hlen.
  { apply (length_filter_lt _ _ link); [done|]. intros H. by apply H. }
  assert (∀ k, is_Some (delete (link :: parent) (<[parent := unlinked]> pool)
                          !! k)
               ↔ k ≠ link :: parent ∧ is_Some (pool !! k)) as Hkeys.
  { intros k. destruct (decide (k = link :: parent)) as [->|Hk].
    - rewrite lookup_delete_eq. split; [by intros [? ?]|by intros [? _]].
    - rewrite lookup_delete_ne by done.
      destruct (decide (k = parent)) as [->|Hk'].
      + rewrite lookup_insert_eq, Hparent. split; [split; [done|]|]; by eexists.
      + rewrite lookup_insert_ne by done. split; [by split|by intros [_ ?]]. }
  split; [split|].
  - intros c p. rewrite !Hkeys. intros [Hk Hsome]. split.
    + intros ->. apply Hnone in Hsome. rewrite Hleaf in Hsome.
      by apply elem_of_nil in Hsome.
    + by eapply Hclosed.
  - intros p ent' Hent'.
    assert (p ≠ link :: parent) as Hp.
    { intros ->. by rewrite lookup_delete_eq in Hent'. }
    rewrite lookup_delete_ne in Hent' by done.
    destruct (decide (p = parent)) as [->|Hp'].
    + rewrite lookup_insert_eq in Hent'. injection Hent' as <-. simpl.
      split_and!.
      * by apply NoDup_filter.
      * intros c. rewrite Hkeys, list_elem_of_filter, Hlinks.
        split; [intros [Hc Hsome]|intros [Hc Hsome]]; (split; [|done]);
          congruence.
      * lia.
      * done.
    + rewrite lookup_insert_ne in Hent' by done.
      destruct (Hshape _ _ Hent') as (Hdup' & Hlinks' & Hrefs' & Hpos').
      split_and!; [done| |done|done].
      intros c. rewrite Hkeys, Hlinks'. split; [|by intros [_ ?]].
      intros Hsome. split; [congruence|done].
  - simpl. lia.
Qed.

(** Another count of references that covers the children keeps the shape. *)
Lemma tree_ok_set_refCount (pool : gmap EntryRef Entry_t) k ent n :
  tree_ok pool → pool !! k = Some ent →
  length (childList ent) ≤ n → 0 < n →
  tree_ok (<[k := set_refCount ent n]> pool).
Proof.
  intros [Hclosed Hshape] Hent Hn Hpos.
  assert (∀ j, is_Some (<[k := set_refCount ent n]> pool !! j)
               ↔ is_Some (pool !! j)) as Hkeys.
  { intros j. destruct (decide (j = k)) as [->|Hj].
    - rewrite lookup_insert_eq, Hent. split; by eexists.
    - by rewrite lookup_insert_ne. }
  split.
  - intros c p. rewrite !Hkeys. apply Hclosed.
  - intros p ent' Hent'. destruct (decide (p = k)) as [->|Hp].
    + rewrite lookup_insert_eq in Hent'. injection Hent' as <-. simpl.
      destruct (Hshape _ _ Hent) as (Hdup & Hlinks & _).
      split_and!; [done| |done|done]. intros c. rewrite Hkeys. apply Hlinks.
    + rewrite lookup_insert_ne in Hent' by done.
      destruct (Hshape _ _ Hent') as (Hdup & Hlinks & Hrefs & Hpos').
      split_and!; [done| |done|done]. intros c. rewrite Hkeys. apply Hlinks.
Qed.

Lemma le_mem_Release_tree_ok (e : EntryRef) :
  ∀ (pool pool' : gmap EntryRef Entry_t) ent,
    tree_ok pool → pool !! e = Some ent →
    length (childList ent) < refCount ent →
    le_mem_Release pool e = Some pool' →
    tree_ok pool'.
Proof.
  induction e as [|link parent IH]; intros pool pool' ent Hok Hent Hheld.
  - simpl. rewrite Hent.
    destruct (refCount ent) as [|[|n]] eqn:Hrc; [done|done|].
    intros [= <-]. apply tree_ok_set_refCount; [done|done|lia|lia].
  - cbn [le_mem_Release]. rewrite Hent.
    destruct (refCount ent) as [|[|n]] eqn:Hrc; [done| |].
    + destruct (childList ent) eqn:Hleaf; [|done].
      destruct (pool !! parent) as [parentEnt|] eqn:Hparent; [|done].
      destruct (tree_ok_unlink _ _ _ _ _ Hok Hent Hleaf Hparent)
        as [Hok' Hheld'].
      destruct (le_mem_Release _ parent) as [pool2|] eqn:Hrel; [|done].
      simpl. intros [= <-].
      assert (¬ link :: parent `suffix_of` parent) as Hsuf.
      { intros Hs. apply suffix_length in Hs. simpl in Hs. lia. }
      pose proof (le_mem_Release_delete parent
                    (<[parent := set_childList parentEnt
                         (filter (λ l, l ≠ link) (childList parentEnt))]> pool)
                    (link :: parent) Hsuf) as Hcomm.
      rewrite Hrel in Hcomm. simpl in Hcomm.
      eapply IH; [exact Hok'| |exact Hheld'|exact Hcomm].
      rewrite lookup_delete_ne, lookup_insert_eq; [done|].
      intros Heq. apply (f_equal length) in Heq. simpl in Heq. lia.
    + intros [= <-]. apply tree_ok_set_refCount; [done|done|lia|lia].
Qed.

End ReleaseFacts.

Section ShapeHelpers.
#[local] Existing Instances ex_collab ex_config ex_resmod.

Lemma tree_ok_grown : tree_ok ex_grown.
Proof.
  apply (GoToEntry_tree_ok resTree_Init [] "a/b" ex_grown (Some ["b"; "a"]));
    [apply tree_ok_Init|by vm_compute].
Qed.

End ShapeHelpers.

(** X6. [resTree_GetEntry] keeps the shape of the tree: after it, as before,
    every allocated entry but the Root has its parent allocated, each child
    list names the allocated children of its entry, each once, and an
    allocated entry is referenced, at least once per child. *)
Theorem making_entries_keeps_the_tree_shape `{Cfg : HubConfig}
    (pool : gmap EntryRef Entry_t) base path pool' r :
  tree_ok pool →
  resTree_GetEntry pool base path = Some (pool', r) →
  tree_ok pool'.
Proof. apply GoToEntry_tree_ok. Qed.

Lemma making_entries_keeps_the_tree_shape_witness :
  (tree_ok (resTree_Init (Cfg := ex_config))
   ∧ resTree_GetEntry (Cfg := ex_config) (resTree_Init (Cfg := ex_config))
       [] "a/b"
     = Some (ex_grown, Some ["b"; "a"]))
  ∧ tree_ok ex_grown.
Proof.
  split; [split; [apply tree_ok_Init|by vm_compute]|].
  apply (making_entries_keeps_the_tree_shape (Cfg := ex_config)
           (resTree_Init (Cfg := ex_config)) [] "a/b" ex_grown
           (Some ["b"; "a"]));
    [apply tree_ok_Init|by vm_compute].
Defined.

(** X7. [io_CreateInput] and [io_CreateOutput] keep the shape of the tree,
    whatever they answer. *)
Theorem creating_io_keeps_the_tree_shape `{Cfg : HubConfig}
    `{Res : ResourceModule} nsRef (hub : Hub) path ty unitsStr :
  tree_ok (EntryPool hub) →
  (∀ ret hub', io_CreateInput nsRef hub path ty unitsStr = Some (ret, hub') →
               tree_ok (EntryPool hub'))
  ∧ (∀ ret hub', io_CreateOutput nsRef hub path ty unitsStr
                 = Some (ret, hub') →
                 tree_ok (EntryPool hub')).
Proof.
  intros Hok.
  assert (∀ ret hub' ns,
            resTree_CreateInput hub ns path ty unitsStr = Some (ret, hub') →
            tree_ok (EntryPool hub')) as Hin.
  { intros ret hub' ns. unfold resTree_CreateInput, resTree_GetInput.
    destruct (GoToEntry _ _ _ _) as [[pool [e|]]|] eqn:Hgo; [| |done].
    - pose proof (GoToEntry_tree_ok _ _ _ _ _ Hok Hgo) as Hok'.
      destruct (CallResourceTreeChangeHandlers_calls
                  (set_EntryPool hub
                     (ReplaceResource pool e (res_CreateInput ty unitsStr)
                        ADMIN_ENTRY_TYPE_INPUT))
                  e ADMIN_ENTRY_TYPE_INPUT ADMIN_RESOURCE_ADDED)
        as (? & ? & _ & Hcall).
      destruct (type <$> pool !! e) as [[]|]; try done;
        try rewrite Hcall; intros [= _ <-]; simpl; try done.
      all: by apply ReplaceResource_tree_ok.
    - intros [= _ <-]. simpl. by eapply GoToEntry_tree_ok. }
  assert (∀ ret hub' ns,
            resTree_CreateOutput hub ns path ty unitsStr = Some (ret, hub') →
            tree_ok (EntryPool hub')) as Hout.
  { intros ret hub' ns. unfold resTree_CreateOutput, resTree_GetOutput.
    destruct (GoToEntry _ _ _ _) as [[pool [e|]]|] eqn:Hgo; [| |done].
    - pose proof (GoToEntry_tree_ok _ _ _ _ _ Hok Hgo) as Hok'.
      destruct (CallResourceTreeChangeHandlers_calls
                  (set_EntryPool hub
                     (ReplaceResource pool e (res_CreateOutput ty unitsStr)
                        ADMIN_ENTRY_TYPE_OUTPUT))
                  e ADMIN_ENTRY_TYPE_OUTPUT ADMIN_RESOURCE_ADDED)
        as (? & ? & _ & Hcall).
      destruct (type <$> pool !! e) as [[]|]; try done;
        try rewrite Hcall; intros [= _ <-]; simpl; try done.
      all: by apply ReplaceResource_tree_ok.
    - intros [= _ <-]. simpl. by eapply GoToEntry_tree_ok. }
  split; intros ret hub'.
  - unfold io_CreateInput. destruct nsRef as [ns|]; simpl.
    + destruct (resTree_FindEntry _ _ _) as [r|]; [|by apply Hin].
      destruct (EntryPool hub !! r) as [ent|]; simpl; [|done].
      destruct (resTree_GetEntryType ent); try done;
        try (by intros [= _ <-]); try by apply Hin.
      destruct (resTree_GetDataType ent); simpl; [|done].
      destruct (resTree_GetUnits ent); simpl; [|done].
      case_decide; by intros [= _ <-].
    + done.
  - unfold io_CreateOutput. destruct nsRef as [ns|]; simpl.
    + destruct (resTree_FindEntry _ _ _) as [r|]; [|by apply Hout].
      destruct (EntryPool hub !! r) as [ent|]; simpl; [|done].
      destruct (resTree_GetEntryType ent); try done;
        try (by intros [= _ <-]); try by apply Hout.
      destruct (resTree_GetDataType ent); simpl; [|done].
      destruct (resTree_GetUnits ent); simpl; [|done].
      case_decide; by intros [= _ <-].
    + done.
Qed.

Lemma creating_io_keeps_the_tree_shape_witness :
  tree_ok (EntryPool ex_new_hub)
  ∧ (∀ ret hub',
       io_CreateInput (Cfg := ex_config) (Res := ex_resmod) (Some [])
         ex_new_hub "room/temp" IO_DATA_TYPE_NUMERIC "degC"
       = Some (ret, hub') →
       tree_ok (EntryPool hub'))
  ∧ (∀ ret hub',
       io_CreateOutput (Cfg := ex_config) (Res := ex_resmod) (Some [])
         ex_new_hub "room/temp" IO_DATA_TYPE_NUMERIC "degC"
       = Some (ret, hub') →
       tree_ok (EntryPool hub')).
Proof.
  split; [apply (tree_ok_Init (Cfg := ex_config))|].
  apply (creating_io_keeps_the_tree_shape (Cfg := ex_config)
           (Res := ex_resmod) (Some []) ex_new_hub "room/temp"
           IO_DATA_TYPE_NUMERIC "degC").
  apply (tree_ok_Init (Cfg := ex_config)).
Defined.

(** X8. [le_mem_Release] of an entry that holds a reference of its own (more
    references than children) keeps the shape of the tree, also when the
    entry was a leaf at its last reference and [EntryDestructor] unlinks it
    and releases its parent in turn. *)
Theorem releasing_keeps_the_tree_shape
    (pool : gmap EntryRef Entry_t) e ent pool' :
  tree_ok pool →
  pool !! e = Some ent →
  length (childList ent) < refCount ent →
  le_mem_Release pool e = Some pool' →
  tree_ok pool'.
Proof. apply le_mem_Release_tree_ok. Qed.

Lemma releasing_keeps_the_tree_shape_witness :
  (tree_ok ex_grown
   ∧ ex_grown !! ["b"; "a"]
     = Some (mkEntry [] ADMIN_ENTRY_TYPE_NAMESPACE (U_flags 1) 1)
   ∧ length (childList (mkEntry [] ADMIN_ENTRY_TYPE_NAMESPACE (U_flags 1) 1))
     < refCount (mkEntry [] ADMIN_ENTRY_TYPE_NAMESPACE (U_flags 1) 1)
   ∧ le_mem_Release ex_grown ["b"; "a"]
     = Some (list_to_map [
         ([], mkEntry ["a"] ADMIN_ENTRY_TYPE_NAMESPACE (U_flags 1) 2);
         (["a"], mkEntry [] ADMIN_ENTRY_TYPE_NAMESPACE (U_flags 1) 1)]))
  ∧ tree_ok (list_to_map [
       ([], mkEntry ["a"] ADMIN_ENTRY_TYPE_NAMESPACE (U_flags 1) 2);
       (["a"], mkEntry [] ADMIN_ENTRY_TYPE_NAMESPACE (U_flags 1) 1)]).
Proof.
  split.
  - split_and!; [apply tree_ok_grown|by vm_compute|simpl; lia|by vm_compute].
  - apply (releasing_keeps_the_tree_shape ex_grown ["b"; "a"]
             (mkEntry [] ADMIN_ENTRY_TYPE_NAMESPACE (U_flags 1) 1));
      [apply tree_ok_grown|by vm_compute|simpl; lia|by vm_compute].
Defined.

Section UntouchedFacts.
Context `{Cfg : HubConfig}.

Lemma descends_keeps pool cur nm pool1 :
  tree_ok pool → descends pool cur nm pool1 →
  (∀ k ent, pool !! k = Some ent →
     ∃ ent', pool1 !! k = Some ent' ∧ type ent' = type ent
             ∧ resourcePtr_of ent' = resourcePtr_of ent)
  ∧ (∀ k ent', pool !! k = None → pool1 !! k = Some ent' →
       type ent' = ADMIN_ENTRY_TYPE_NAMESPACE).
Proof.
  intros [_ Hshape] Hstep.
  destruct Hstep as [|ent child Hcur Hin Hchild Hdel Hempty|ent Hcur Hnew].
  - split; [eauto|]. intros k ent' Hnone Hsome. congruence.
  - split.
    + intros k ent0 Hk. destruct (decide (k = nm :: cur)) as [->|Hne].
      * rewrite lookup_insert_eq. eexists. split; [done|]. simpl.
        rewrite Hchild in Hk. injection Hk as <-. split; [done|].
        unfold resTree_IsDeleted in Hdel. case_decide as Hty; [|done].
        unfold resourcePtr_of. simpl.
        destruct (u child) as [f|r] eqn:Hu; [done|].
        unfold flags_of in Hdel. by rewrite Hu in Hdel.
      * rewrite lookup_insert_ne by done. eauto.
    + intros k ent' Hnone. destruct (decide (k = nm :: cur)) as [->|Hne].
      * congruence.
      * rewrite lookup_insert_ne by done. congruence.
  - assert (nm :: cur ≠ cur) as Hne.
    { intros Heq. apply (f_equal length) in Heq. simpl in Heq. lia. }
    destruct (Hshape _ _ Hcur) as (_ & Hlinks & _).
    assert (pool !! (nm :: cur) = None) as Hfree.
    { destruct Hnew as [Hnew|Hnew]; [|done].
      destruct (pool !! (nm :: cur)) eqn:Hc; [|done].
      destruct Hnew. apply Hlinks. by eexists. }
    split.
    + intros k ent0 Hk. destruct (decide (k = nm :: cur)) as [->|Hk1].
      { congruence. }
      rewrite lookup_insert_ne by done.
      destruct (decide (k = cur)) as [->|Hk2].
      * rewrite lookup_insert_eq. rewrite Hcur in Hk. injection Hk as <-.
        eexists. by split.
      * rewrite lookup_insert_ne by done. eauto.
    + intros k ent' Hnone. destruct (decide (k = nm :: cur)) as [->|Hk1].
      * rewrite lookup_insert_eq. by intros [= <-].
      * rewrite lookup_insert_ne by done.
        destruct (decide (k = cur)) as [->|Hk2]; [congruence|].
        rewrite lookup_insert_ne by done. congruence.
Qed.

Lemma GoToEntry_loop_keeps elements : ∀ pool cur pool' r,
  tree_ok pool →
  GoToEntry_loop pool cur elements true = Some (pool', r) →
  (∀ k ent, pool !! k = Some ent →
     ∃ ent', pool' !! k = Some ent' ∧ type ent' = type ent
             ∧ resourcePtr_of ent' = resourcePtr_of ent)
  ∧ (∀ k ent', pool !! k = None → pool' !! k = Some ent' →
       type ent' = ADMIN_ENTRY_TYPE_NAMESPACE).
Proof.
  induction elements as [|en rest IH]; intros pool cur pool' r Hok Hloop.
  - simpl in Hloop. injection Hloop as <- _. split; [eauto|]. congruence.
  - apply GoToEntry_loop_create_inv in Hloop
      as [(-> & _ & _)|(_ & pool1 & Hstep & Hloop)].
    { split; [eauto|]. congruence. }
    destruct (descends_keeps _ _ _ _ Hok Hstep) as [Hold1 Hnew1].
    destruct (IH _ _ _ _ (descends_tree_ok _ _ _ _ Hok Hstep) Hloop)
      as [Hold Hnew].
    split.
    + intros k ent Hk. destruct (Hold1 _ _ Hk) as (ent1 & Hk1 & Hty1 & Hr1).
      destruct (Hold _ _ Hk1) as (ent' & Hk' & Hty & Hr).
      exists ent'. split; [done|]. split; congruence.
    + intros k ent' Hnone Hsome.
      destruct (pool1 !! k) as [ent1|] eqn:Hk1; [|by eapply Hnew].
      destruct (Hold _ _ Hk1) as (ent'' & Hk' & Hty & _).
      rewrite Hsome in Hk'. injection Hk' as <-. rewrite Hty.
      by eapply Hnew1.
Qed.

End UntouchedFacts.

(** X9. [resTree_GetEntry] on a well-shaped tree frees no entry and leaves
    the kind and the resource of every entry as they are; the entries it
    adds are Namespaces. *)
Theorem making_entries_leaves_resources_alone `{Cfg : HubConfig}
    (pool : gmap EntryRef Entry_t) base path pool' r :
  tree_ok pool →
  resTree_GetEntry pool base path = Some (pool', r) →
  (∀ k ent, pool !! k = Some ent →
     ∃ ent', pool' !! k = Some ent' ∧ type ent' = type ent
             ∧ resourcePtr_of ent' = resourcePtr_of ent)
  ∧ (∀ k ent', pool !! k = None → pool' !! k = Some ent' →
       type ent' = ADMIN_ENTRY_TYPE_NAMESPACE).
Proof.
  intros Hok. unfold resTree_GetEntry, GoToEntry.
  destruct (has_illegal_char (chars path)).
  - intros [= <- _]. split; [eauto|]. congruence.
  - by apply GoToEntry_loop_keeps.
Qed.

Lemma making_entries_leaves_resources_alone_witness :
  (tree_ok (resTree_Init (Cfg := ex_config))
   ∧ resTree_GetEntry (Cfg := ex_config) (resTree_Init (Cfg := ex_config))
       [] "a/b"
     = Some (ex_grown, Some ["b"; "a"]))
  ∧ (∀ k ent, resTree_Init (Cfg := ex_config) !! k = Some ent →
       ∃ ent', ex_grown !! k = Some ent' ∧ type ent' = type ent
               ∧ resourcePtr_of ent' = resourcePtr_of ent)
  ∧ (∀ k ent', resTree_Init (Cfg := ex_config) !! k = None →
       ex_grown !! k = Some ent' →
       type ent' = ADMIN_ENTRY_TYPE_NAMESPACE).
Proof.
  split; [split; [apply tree_ok_Init|by vm_compute]|].
  apply (making_entries_leaves_resources_alone (Cfg := ex_config)
           (resTree_Init (Cfg := ex_config)) [] "a/b" ex_grown
           (Some ["b"; "a"]));
    [apply tree_ok_Init|by vm_compute].
Defined.

(** ** Malformed paths *)

Section MalformedFacts.
Context `{Cfg : HubConfig}.

Lemma chars_append (a b : string) : chars (a +:+ b) = chars a ++ chars b.
Proof.
  induction a as [|c a IH]; [done|].
  change (c :: chars (a +:+ b) = c :: (chars a ++ chars b)). by rewrite IH.
Qed.

Lemma split_slash_app a b :
  split_slash (a ++ SLASH :: b) = split_slash a ++ split_slash b.
Proof.
  induction a as [|c a IH].
  - cbn [app split_slash]. by rewrite decide_True.
  - cbn [app split_slash]. rewrite IH. case_decide; [done|].
    pose proof (split_slash_nonempty a) as Hne.
    by destruct (split_slash a).
Qed.

(** A run of bytes without a slash lies within one piece. *)
Lemma split_slash_run nm b :
  SLASH ∉ nm →
  ∃ piece pieces, split_slash (nm ++ b) = piece :: pieces
                  ∧ length nm ≤ length piece.
Proof.
  induction nm as [|c nm IH]; intros Hrun.
  - cbn [app]. pose proof (split_slash_nonempty b).
    destruct (split_slash b) as [|piece pieces]; [done|].
    exists piece, pieces. split; [done|]. simpl. lia.
  - apply not_elem_of_cons in Hrun as [Hc Hrun].
    destruct (IH Hrun) as (piece & pieces & Heq & Hlen).
    cbn [app split_slash]. rewrite decide_False by done. rewrite Heq.
    exists (c :: piece), pieces. split; [done|]. simpl. lia.
Qed.

Lemma split_slash_long a nm b :
  SLASH ∉ nm →
  ∃ en, en ∈ split_slash (a ++ nm ++ b) ∧ length nm ≤ length en.
Proof.
  intros Hrun. induction a as [|c a IH].
  - destruct (split_slash_run nm b Hrun) as (piece & pieces & Heq & Hlen).
    exists piece. cbn [app]. rewrite Heq. split; [|done].
    apply elem_of_cons. by left.
  - destruct IH as (en & Hin & Hlen). cbn [app split_slash].
    case_decide.
    + exists en. split; [|done]. apply elem_of_cons. by right.
    + destruct (split_slash (a ++ nm ++ b)) as [|piece pieces]; [|].
      { by apply elem_of_nil in Hin. }
      apply elem_of_cons in Hin as [->|Hin].
      * exists (c :: piece). split; [apply elem_of_cons; by left|].
        simpl. lia.
      * exists en. split; [|done]. apply elem_of_cons. by right.
Qed.

(** A resolution that meets an empty or an over-long name arrives nowhere. *)
Lemma GoToEntry_loop_bad elements : ∀ pool cur doCreate pool' r,
  (∃ en, en ∈ elements
         ∧ (length en = 0 ∨ HUB_MAX_ENTRY_NAME_BYTES ≤ length en)) →
  GoToEntry_loop pool cur elements doCreate = Some (pool', r) → r = None.
Proof.
  induction elements as [|en rest IH]; intros pool cur doCreate pool' r Hbad.
  - destruct Hbad as (en & Hin & _). by apply elem_of_nil in Hin.
  - cbn [GoToEntry_loop]. cbn zeta.
    case_decide as Hzero; [by intros [= _ <-]|].
    case_decide as Hlong; [by intros [= _ <-]|].
    assert (∃ en', en' ∈ rest
                   ∧ (length en' = 0
                      ∨ HUB_MAX_ENTRY_NAME_BYTES ≤ length en')) as Hrest.
    { destruct Hbad as (en' & Hin & Hlen).
      apply elem_of_cons in Hin as [->|Hin]; [|eauto].
      destruct Hlen; [done|lia]. }
    destruct (_ ≫= _) as [[c child]|].
    + destruct (resTree_IsDeleted child).
      * destruct doCreate; [|by intros [= _ <-]].
        destruct (AddChild _ _ _ _) as [[pool1 c1]|]; [|done]. by apply IH.
      * by apply IH.
    + destruct doCreate; [|by intros [= _ <-]].
      destruct (AddChild _ _ _ _) as [[pool1 c1]|]; [|done]. by apply IH.
Qed.

Lemma has_illegal_char_true (l : list ascii) c :
  c ∈ l → c ∈ ["."%char; "["%char; "]"%char] → has_illegal_char l = true.
Proof.
  intros Hin Hc. unfold has_illegal_char. apply existsb_exists.
  exists c. split; [by apply list_elem_of_In|by apply bool_decide_eq_true_2].
Qed.

Lemma GoToEntry_bad pool base path doCreate pool' r :
  (∃ en, en ∈ path_elements (chars path)
         ∧ (length en = 0 ∨ HUB_MAX_ENTRY_NAME_BYTES ≤ length en)) →
  GoToEntry pool base path doCreate = Some (pool', r) → r = None.
Proof.
  intros Hbad. unfold GoToEntry.
  destruct (has_illegal_char (chars path)); [by intros [= _ <-]|].
  by apply GoToEntry_loop_bad.
Qed.

Lemma path_elements_cases (path : list ascii) :
  path ≠ [] →
  ∃ front rest, path = front ++ rest ∧ path_elements path = split_slash rest
                ∧ (front = [] ∨ front = [SLASH]).
Proof.
  destruct path as [|c path]; [done|]. intros _. cbn [path_elements].
  case_decide as Hc.
  - subst c. exists [SLASH], path. eauto.
  - exists [], (c :: path). eauto.
Qed.

End MalformedFacts.

(** X10. A path that contains one of the characters [.], [[] or []], that
    ends in a slash, that has two slashes in a row, or that has a run of
    [HUB_MAX_ENTRY_NAME_BYTES] or more bytes without a slash, does not
    resolve: [resTree_FindEntry] returns NULL for it, and so does
    [resTree_GetEntry] whenever it returns. *)
Theorem malformed_path_does_not_resolve `{Cfg : HubConfig}
    (pool : gmap EntryRef Entry_t) base (path : string) :
  (∃ c, c ∈ chars path ∧ c ∈ ["."%char; "["%char; "]"%char])
  ∨ (∃ p, path = p +:+ "/")
  ∨ (∃ p q, path = p +:+ "//" +:+ q)
  ∨ (∃ p nm q, path = p +:+ nm +:+ q ∧ (SLASH ∉ chars nm) ∧ nm ≠ ""
               ∧ HUB_MAX_ENTRY_NAME_BYTES ≤ String.length nm) →
  resTree_FindEntry pool base path = None
  ∧ ∀ pool' r, resTree_GetEntry pool base path = Some (pool', r) → r = None.
Proof.
  intros Hbad.
  enough (∀ doCreate pool' r,
            GoToEntry pool base path doCreate = Some (pool', r) → r = None)
    as Hnone.
  { split; [|apply Hnone]. unfold resTree_FindEntry.
    destruct (GoToEntry pool base path false) as [[pool' r]|] eqn:Hgo;
      [|done]. by eapply Hnone. }
  intros doCreate pool' r.
  destruct Hbad as [(c & Hin & Hc)|Hbad].
  { unfold GoToEntry. rewrite (has_illegal_char_true _ _ Hin Hc).
    by intros [= _ <-]. }
  apply GoToEntry_bad.
  destruct Hbad as [[p ->]|[(p & q & ->)|(p & nm & q & -> & Hrun & Hnm & Hlen)]].
  - exists []. split; [|by left]. rewrite chars_append.
    change (chars "/") with [SLASH].
    destruct (chars p) as [|c l]; [apply elem_of_cons; by left|].
    cbn [app path_elements]. case_decide.
    + rewrite split_slash_app. apply elem_of_app. right.
      apply elem_of_cons. by left.
    + rewrite app_comm_cons, split_slash_app. apply elem_of_app. right.
      apply elem_of_cons. by left.
  - exists []. split; [|by left]. rewrite !chars_append.
    change (chars "//" ++ chars q) with (SLASH :: SLASH :: chars q).
    destruct (chars p) as [|c l].
    { cbn [app path_elements]. rewrite decide_True by done.
      cbn [split_slash]. rewrite decide_True by done.
      apply elem_of_cons. by left. }
    assert ([] ∈ split_slash (SLASH :: chars q)) as Hempty.
    { cbn [split_slash]. rewrite decide_True by done.
      apply elem_of_cons. by left. }
    cbn [app path_elements]. case_decide.
    + rewrite split_slash_app. apply elem_of_app. by right.
    + rewrite app_comm_cons, split_slash_app. apply elem_of_app. by right.
  - rewrite <- length_chars in Hlen. rewrite !chars_append.
    assert (chars nm ≠ []) as Hne.
    { intros Hnil. apply Hnm. apply chars_inj. by rewrite Hnil. }
    destruct (chars p) as [|c l].
    + cbn [app]. destruct (chars nm) as [|c nm'] eqn:Hchars; [done|].
      apply not_elem_of_cons in Hrun as [Hc Hrun'].
      cbn [app path_elements]. rewrite decide_False by done.
      destruct (split_slash_long [] (c :: nm') (chars q)) as (en & Hin & Hlong).
      { apply not_elem_of_cons. by split. }
      exists en. split; [done|]. right. lia.
    + cbn [app path_elements]. case_decide.
      * destruct (split_slash_long l (chars nm) (chars q) Hrun)
          as (en & Hin & Hlong).
        exists en. split; [done|]. right. lia.
      * rewrite app_comm_cons.
        destruct (split_slash_long (c :: l) (chars nm) (chars q) Hrun)
          as (en & Hin & Hlong).
        exists en. split; [done|]. right. lia.
Qed.

Lemma malformed_path_does_not_resolve_witness :
  ((∃ c, c ∈ chars "temp/" ∧ c ∈ ["."%char; "["%char; "]"%char])
   ∨ (∃ p, "temp/" = p +:+ "/")
   ∨ (∃ p q, "temp/" = p +:+ "//" +:+ q)
   ∨ (∃ p nm q, "temp/" = p +:+ nm +:+ q ∧ (SLASH ∉ chars nm) ∧ nm ≠ ""
                ∧ HUB_MAX_ENTRY_NAME_BYTES (HubConfig := ex_config)
                  ≤ String.length nm))
  ∧ resTree_FindEntry (Cfg := ex_config) ex_pool ex_ns "temp/" = None
  ∧ ∀ pool' r, resTree_GetEntry (Cfg := ex_config) ex_pool ex_ns "temp/"
               = Some (pool', r) → r = None.
Proof.
  assert (∃ p, "temp/" = p +:+ "/") as Hslash by (by exists "temp").
  split; [right; by left|].
  apply (malformed_path_does_not_resolve (Cfg := ex_config) ex_pool ex_ns
           "temp/").
  right. by left.
Defined.

Section NameFacts.
Context `{Cfg : HubConfig}.

Lemma split_slash_name l : SLASH ∉ l → split_slash l = [l].
Proof.
  induction l as [|c l IH]; [done|]. intros Hrun.
  apply not_elem_of_cons in Hrun as [Hc Hrun].
  cbn [split_slash]. rewrite decide_False by done. by rewrite IH.
Qed.

Lemma entry_name_path (nm : string) :
  entry_name nm →
  has_illegal_char (chars nm) = false
  ∧ path_elements (chars nm) = [chars nm]
  ∧ 0 < length (chars nm) < HUB_MAX_ENTRY_NAME_BYTES
  ∧ (SLASH ∉ chars nm).
Proof.
  intros (Hne & Hlen & Hchars).
  assert (SLASH ∉ chars nm) as Hrun.
  { intros Hin. apply (Hchars _ Hin). apply elem_of_cons. by left. }
  split_and!; [| | | |done].
  - unfold has_illegal_char. apply not_true_is_false. intros Hex.
    apply existsb_exists in Hex as (c & Hin & Hc).
    apply list_elem_of_In in Hin. apply bool_decide_eq_true_1 in Hc.
    apply (Hchars _ Hin). apply elem_of_cons. by right.
  - destruct (chars nm) as [|c l] eqn:Hl.
    { destruct Hne. apply chars_inj. by rewrite Hl. }
    cbn [path_elements]. rewrite decide_False.
    + by apply split_slash_name.
    + intros ->. apply Hrun. apply elem_of_cons. by left.
  - rewrite length_chars. destruct nm; [done|]. simpl. lia.
  - by rewrite length_chars.
Qed.

End NameFacts.

(** X11. A deleted entry is hidden from [resTree_FindEntry].
    [resTree_GetEntry] brings it back under its name as a new Namespace, the
    same object with its flags reset, when it has no children; when it has
    children the assertion in [AddChild] fails. *)
Theorem deleted_entry_is_resurrected `{Cfg : HubConfig}
    (pool : gmap EntryRef Entry_t) base nm ent child :
  entry_name nm →
  pool !! base = Some ent →
  nm ∈ childList ent →
  pool !! (nm :: base) = Some child →
  resTree_IsDeleted child = true →
  resTree_FindEntry pool base nm = None
  ∧ (childList child = [] →
     resTree_GetEntry pool base nm
     = Some (<[nm :: base := set_type_u child ADMIN_ENTRY_TYPE_NAMESPACE
                               (U_flags RES_FLAG_NEW)]> pool,
             Some (nm :: base)))
  ∧ (childList child ≠ [] → resTree_GetEntry pool base nm = None).
Proof.
  intros Hname Hbase Hin Hchild Hdel.
  destruct (entry_name_path nm Hname) as (Hlegal & Helems & Hlen & _).
  assert (String.length nm < HUB_MAX_ENTRY_NAME_BYTES) as Hshort
    by (by destruct Hname as (_ & ? & _)).
  assert (type child = ADMIN_ENTRY_TYPE_NAMESPACE) as Hty.
  { unfold resTree_IsDeleted in Hdel. by case_decide. }
  assert (∀ doCreate,
            GoToEntry pool base nm doCreate
            = if doCreate then
                match AddChild pool (Some base) nm (Some (nm :: base)) with
                | Some (pool', childPtr) => Some (pool', Some childPtr)
                | None => None
                end
              else Some (pool, None)) as Hgo.
  { intros doCreate. unfold GoToEntry. rewrite Hlegal, Helems.
    cbn [GoToEntry_loop]. cbn zeta.
    rewrite decide_False by lia. rewrite decide_False by lia.
    rewrite text_of_chars. rewrite FindChildEx_zombies by done.
    rewrite Hbase. rewrite decide_True by (split; [done|by eexists]).
    simpl. rewrite Hchild. simpl. rewrite Hdel.
    destruct doCreate; [|done].
    by rewrite Hchild. }
  split_and!.
  - unfold resTree_FindEntry. by rewrite Hgo.
  - intros Hleaf. unfold resTree_GetEntry. rewrite Hgo. unfold AddChild.
    rewrite Hchild. cbn [parentPtr]. rewrite decide_True by done.
    by rewrite Hty.
  - intros Hkids. unfold resTree_GetEntry. rewrite Hgo. unfold AddChild.
    rewrite Hchild. cbn [parentPtr]. rewrite decide_False; [done|].
    by intros (_ & _ & ?).
Qed.

Lemma deleted_entry_is_resurrected_witness :
  (entry_name (Cfg := ex_config) "gone"
   ∧ ex_pool !! ex_ns
     = Some (ex_entry ["old"; "gone"; "temp"; "cfg"; "ghost"; "dir"]
               ADMIN_ENTRY_TYPE_NAMESPACE (U_flags 0))
   ∧ "gone" ∈ childList
       (ex_entry ["old"; "gone"; "temp"; "cfg"; "ghost"; "dir"]
          ADMIN_ENTRY_TYPE_NAMESPACE (U_flags 0))
   ∧ ex_pool !! ("gone" :: ex_ns)
     = Some (ex_entry [] ADMIN_ENTRY_TYPE_NAMESPACE (U_flags 4))
   ∧ resTree_IsDeleted (Cfg := ex_config)
       (ex_entry [] ADMIN_ENTRY_TYPE_NAMESPACE (U_flags 4)) = true)
  ∧ resTree_FindEntry (Cfg := ex_config) ex_pool ex_ns "gone" = None
  ∧ (childList (ex_entry [] ADMIN_ENTRY_TYPE_NAMESPACE (U_flags 4)) = [] →
     resTree_GetEntry (Cfg := ex_config) ex_pool ex_ns "gone"
     = Some (<["gone" :: ex_ns :=
                 set_type_u (ex_entry [] ADMIN_ENTRY_TYPE_NAMESPACE (U_flags 4))
                   ADMIN_ENTRY_TYPE_NAMESPACE
                   (U_flags (RES_FLAG_NEW (HubConfig := ex_config)))]> ex_pool,
             Some ("gone" :: ex_ns)))
  ∧ (childList (ex_entry [] ADMIN_ENTRY_TYPE_NAMESPACE (U_flags 4)) ≠ [] →
     resTree_GetEntry (Cfg := ex_config) ex_pool ex_ns "gone" = None).
Proof.
  assert (entry_name (Cfg := ex_config) "gone") as Hname.
  { split_and!; [done|simpl; lia|].
    intros c Hc. apply (bool_decide_unpack _).
    revert c Hc. apply Forall_forall. by apply (bool_decide_unpack _). }
  assert ("gone" ∈ ["old"; "gone"; "temp"; "cfg"; "ghost"; "dir"]) as Hin
    by (by apply (bool_decide_unpack _)).
  split; [split_and!; [done|by vm_compute|done|by vm_compute|by vm_compute]|].
  apply (deleted_entry_is_resurrected (Cfg := ex_config) ex_pool ex_ns "gone"
           (ex_entry ["old"; "gone"; "temp"; "cfg"; "ghost"; "dir"]
              ADMIN_ENTRY_TYPE_NAMESPACE (U_flags 0))
           (ex_entry [] ADMIN_ENTRY_TYPE_NAMESPACE (U_flags 4)));
    [done|by vm_compute|done|by vm_compute|by vm_compute].
Defined.

(** X12. A path that ends in a slash fails only after the entries before the
    slash are made: for a name that is not among the children of an allocated
    [base], [resTree_GetEntry] given the name and a slash returns NULL and
    leaves the new Namespace of that name in the tree. *)
Theorem trailing_slash_fails_after_creating `{Cfg : HubConfig}
    (pool : gmap EntryRef Entry_t) base nm ent :
  entry_name nm →
  pool !! base = Some ent →
  nm ∉ childList ent →
  resTree_GetEntry pool base (nm +:+ "/")
  = Some (<[nm :: base := mkEntry [] ADMIN_ENTRY_TYPE_NAMESPACE
                            (U_flags RES_FLAG_NEW) 1]>
            (<[base := set_childList (set_refCount ent (S (refCount ent)))
                         (childList ent ++ [nm])]> pool),
          None).
Proof.
  intros Hname Hbase Hnew.
  destruct (entry_name_path nm Hname) as (Hlegal & Helems & Hlen & Hrun).
  assert (String.length nm < HUB_MAX_ENTRY_NAME_BYTES) as Hshort
    by (by destruct Hname as (_ & ? & _)).
  unfold resTree_GetEntry, GoToEntry. rewrite chars_append.
  change (chars "/") with [SLASH].
  assert (has_illegal_char (chars nm ++ [SLASH]) = false) as ->.
  { unfold has_illegal_char in *. rewrite existsb_app, Hlegal. done. }
  assert (path_elements (chars nm ++ [SLASH]) = [chars nm; []]) as ->.
  { destruct (chars nm) as [|c l] eqn:Hl; [simpl in Hlen; lia|].
    apply not_elem_of_cons in Hrun as [Hc Hrun].
    cbn [app path_elements]. rewrite decide_False by done.
    rewrite app_comm_cons, split_slash_app.
    rewrite split_slash_name; [done|]. apply not_elem_of_cons. by split. }
  cbn [GoToEntry_loop]. cbn zeta.
  rewrite decide_False by lia. rewrite decide_False by lia.
  rewrite text_of_chars. unfold AddChild.
  rewrite !FindChildEx_zombies by done. rewrite Hbase.
  rewrite decide_False by (by intros [? _]). simpl.
  by rewrite le_utf8_Copy_short.
Qed.

Lemma trailing_slash_fails_after_creating_witness :
  (entry_name (Cfg := ex_config) "a"
   ∧ resTree_Init (Cfg := ex_config) !! []
     = Some (mkEntry [] ADMIN_ENTRY_TYPE_NAMESPACE (U_flags 1) 1)
   ∧ "a" ∉ childList (mkEntry [] ADMIN_ENTRY_TYPE_NAMESPACE (U_flags 1) 1))
  ∧ resTree_GetEntry (Cfg := ex_config) (resTree_Init (Cfg := ex_config)) []
      ("a" +:+ "/")
    = Some (<[["a"] := mkEntry [] ADMIN_ENTRY_TYPE_NAMESPACE
                         (U_flags (RES_FLAG_NEW (HubConfig := ex_config))) 1]>
              (<[[] := set_childList
                         (set_refCount
                            (mkEntry [] ADMIN_ENTRY_TYPE_NAMESPACE (U_flags 1) 1)
                            2)
                         ([] ++ ["a"])]> (resTree_Init (Cfg := ex_config))),
            None).
Proof.
  assert (entry_name (Cfg := ex_config) "a") as Hname.
  { split_and!; [done|simpl; lia|].
    intros c Hc. apply (bool_decide_unpack _).
    revert c Hc. apply Forall_forall. by apply (bool_decide_unpack _). }
  assert ("a" ∉ childList (mkEntry [] ADMIN_ENTRY_TYPE_NAMESPACE (U_flags 1) 1))
    as Hnew by apply not_elem_of_nil.
  split; [split_and!; [done|by vm_compute|done]|].
  by apply (trailing_slash_fails_after_creating (Cfg := ex_config)
              (resTree_Init (Cfg := ex_config)) [] "a"
              (mkEntry [] ADMIN_ENTRY_TYPE_NAMESPACE (U_flags 1) 1)).
Defined.

(** ** The flags of a Namespace *)

Section FlagFacts.
Context `{Cfg : HubConfig}.

Lemma disjoint_bits (a b : N) n :
  N.land a b = 0%N → N.testbit a n && N.testbit b n = false.
Proof.
  intros Hab. rewrite <- N.land_spec, Hab. apply N.bits_0.
Qed.

Lemma has_flag_set (flags flag : N) :
  flag ≠ 0%N → has_flag (set_flag flags flag) flag = true.
Proof.
  intros Hflag. unfold has_flag, set_flag.
  assert (N.land (N.lor flags flag) flag = flag) as ->.
  { apply N.bits_inj. intros n. rewrite N.land_spec, N.lor_spec.
    by destruct (N.testbit flags n), (N.testbit flag n). }
  apply negb_true_iff. by apply N.eqb_neq.
Qed.

Lemma has_flag_clear (flags flag : N) :
  has_flag (clear_flag flags flag) flag = false.
Proof.
  unfold has_flag, clear_flag.
  assert (N.land (N.ldiff flags flag) flag = 0%N) as ->; [|done].
  apply N.bits_inj. intros n.
  rewrite N.land_spec, N.ldiff_spec, N.bits_0.
  by destruct (N.testbit flags n), (N.testbit flag n).
Qed.

Lemma has_flag_set_other (flags flag other : N) :
  N.land flag other = 0%N →
  has_flag (set_flag flags flag) other = has_flag flags other.
Proof.
  intros Hdis. unfold has_flag, set_flag. do 2 f_equal.
  apply N.bits_inj. intros n. rewrite !N.land_spec, N.lor_spec.
  pose proof (disjoint_bits _ _ n Hdis).
  by destruct (N.testbit flags n), (N.testbit flag n), (N.testbit other n).
Qed.

Lemma has_flag_clear_other (flags flag other : N) :
  N.land flag other = 0%N →
  has_flag (clear_flag flags flag) other = has_flag flags other.
Proof.
  intros Hdis. unfold has_flag, clear_flag. do 2 f_equal.
  apply N.bits_inj. intros n. rewrite !N.land_spec, N.ldiff_spec.
  pose proof (disjoint_bits _ _ n Hdis).
  by destruct (N.testbit flags n), (N.testbit flag n), (N.testbit other n).
Qed.

Lemma flags_of_set_type_u (e : Entry_t) t f :
  flags_of (set_type_u e t (U_flags f)) = f.
Proof. done. Qed.

End FlagFacts.

(** X13. The three flags of a Namespace entry are independent when they are
    different bits.  [resTree_SetRelevance] makes [resTree_IsRelevant] answer
    what was set and [resTree_ClearNewness] makes [resTree_IsNew] answer
    false, each leaving the other two answers as they were.
    [resTree_SetDeleted] refuses (its assertion fails) an entry that is
    still new; on any other Namespace it makes [resTree_IsDeleted] true and
    leaves the other two answers. *)
Theorem namespace_flags_are_independent `{Cfg : HubConfig}
    `{Flg : ResourceFlags} (e : Entry_t) :
  type e = ADMIN_ENTRY_TYPE_NAMESPACE →
  RES_FLAG_RELEVANT ≠ 0%N → RES_FLAG_NEW ≠ 0%N → RES_FLAG_DELETED ≠ 0%N →
  N.land RES_FLAG_RELEVANT RES_FLAG_NEW = 0%N →
  N.land RES_FLAG_RELEVANT RES_FLAG_DELETED = 0%N →
  N.land RES_FLAG_NEW RES_FLAG_DELETED = 0%N →
  (∀ relevant, ∃ e',
     resTree_SetRelevance e relevant = Some e'
     ∧ resTree_IsRelevant e' = Some relevant
     ∧ resTree_IsNew e' = resTree_IsNew e
     ∧ resTree_IsDeleted e' = resTree_IsDeleted e)
  ∧ (∃ e',
       resTree_ClearNewness e = Some e'
       ∧ resTree_IsNew e' = Some false
       ∧ resTree_IsRelevant e' = resTree_IsRelevant e
       ∧ resTree_IsDeleted e' = resTree_IsDeleted e)
  ∧ (resTree_IsNew e = Some true → resTree_SetDeleted e = None)
  ∧ (resTree_IsNew e = Some false →
     ∃ e',
       resTree_SetDeleted e = Some e'
       ∧ resTree_IsDeleted e' = true
       ∧ resTree_IsRelevant e' = resTree_IsRelevant e
       ∧ resTree_IsNew e' = Some false).
Proof.
  intros Hty Hrel Hnew Hdel Hrn Hrd Hnd.
  assert (N.land RES_FLAG_NEW RES_FLAG_RELEVANT = 0%N) as Hnr
    by (by rewrite N.land_comm).
  assert (N.land RES_FLAG_DELETED RES_FLAG_RELEVANT = 0%N) as Hdr
    by (by rewrite N.land_comm).
  assert (N.land RES_FLAG_DELETED RES_FLAG_NEW = 0%N) as Hdn
    by (by rewrite N.land_comm).
  unfold resTree_SetRelevance, resTree_ClearNewness, resTree_SetDeleted,
    resTree_IsRelevant, resTree_IsNew, resTree_IsDeleted.
  split_and!.
  - intros relevant. rewrite !decide_True by done.
    eexists. split; [reflexivity|]. cbn [type set_type_u].
    rewrite !decide_True by done. rewrite !flags_of_set_type_u.
    destruct relevant.
    + rewrite has_flag_set by done. by rewrite !has_flag_set_other by done.
    + rewrite has_flag_clear. by rewrite !has_flag_clear_other by done.
  - rewrite !decide_True by done.
    eexists. split; [reflexivity|]. cbn [type set_type_u].
    rewrite !decide_True by done. rewrite !flags_of_set_type_u.
    rewrite has_flag_clear. by rewrite !has_flag_clear_other by done.
  - rewrite !decide_True by done. intros [= Hn]. by rewrite Hn.
  - rewrite !decide_True by done. intros [= Hn]. rewrite Hn.
    eexists. split; [reflexivity|]. cbn [type set_type_u].
    rewrite !decide_True by done. rewrite !flags_of_set_type_u.
    change (N.lor (flags_of e) RES_FLAG_DELETED)
      with (set_flag (flags_of e) RES_FLAG_DELETED).
    rewrite has_flag_set by done. rewrite !has_flag_set_other by done.
    by rewrite Hn.
Qed.

Lemma namespace_flags_are_independent_witness :
  (type (ex_entry [] ADMIN_ENTRY_TYPE_NAMESPACE (U_flags 1))
   = ADMIN_ENTRY_TYPE_NAMESPACE
   ∧ RES_FLAG_RELEVANT (ResourceFlags := ex_flags) ≠ 0%N
   ∧ RES_FLAG_NEW (HubConfig := ex_config) ≠ 0%N
   ∧ RES_FLAG_DELETED (HubConfig := ex_config) ≠ 0%N
   ∧ N.land (RES_FLAG_RELEVANT (ResourceFlags := ex_flags))
       (RES_FLAG_NEW (HubConfig := ex_config)) = 0%N
   ∧ N.land (RES_FLAG_RELEVANT (ResourceFlags := ex_flags))
       (RES_FLAG_DELETED (HubConfig := ex_config)) = 0%N
   ∧ N.land (RES_FLAG_NEW (HubConfig := ex_config))
       (RES_FLAG_DELETED (HubConfig := ex_config)) = 0%N)
  ∧ (∀ relevant, ∃ e',
       resTree_SetRelevance (Flg := ex_flags)
         (ex_entry [] ADMIN_ENTRY_TYPE_NAMESPACE (U_flags 1)) relevant
       = Some e'
       ∧ resTree_IsRelevant (Flg := ex_flags) e' = Some relevant
       ∧ resTree_IsNew (Cfg := ex_config) (Flg := ex_flags) e'
         = resTree_IsNew (Cfg := ex_config) (Flg := ex_flags)
             (ex_entry [] ADMIN_ENTRY_TYPE_NAMESPACE (U_flags 1))
       ∧ resTree_IsDeleted (Cfg := ex_config) e'
         = resTree_IsDeleted (Cfg := ex_config)
             (ex_entry [] ADMIN_ENTRY_TYPE_NAMESPACE (U_flags 1)))
  ∧ (∃ e',
       resTree_ClearNewness (Cfg := ex_config) (Flg := ex_flags)
         (ex_entry [] ADMIN_ENTRY_TYPE_NAMESPACE (U_flags 1))
       = Some e'
       ∧ resTree_IsNew (Cfg := ex_config) (Flg := ex_flags) e' = Some false
       ∧ resTree_IsRelevant (Flg := ex_flags) e'
         = resTree_IsRelevant (Flg := ex_flags)
             (ex_entry [] ADMIN_ENTRY_TYPE_NAMESPACE (U_flags 1))
       ∧ resTree_IsDeleted (Cfg := ex_config) e'
         = resTree_IsDeleted (Cfg := ex_config)
             (ex_entry [] ADMIN_ENTRY_TYPE_NAMESPACE (U_flags 1)))
  ∧ (resTree_IsNew (Cfg := ex_config) (Flg := ex_flags)
       (ex_entry [] ADMIN_ENTRY_TYPE_NAMESPACE (U_flags 1)) = Some true →
     resTree_SetDeleted (Cfg := ex_config)
       (ex_entry [] ADMIN_ENTRY_TYPE_NAMESPACE (U_flags 1)) = None)
  ∧ (resTree_IsNew (Cfg := ex_config) (Flg := ex_flags)
       (ex_entry [] ADMIN_ENTRY_TYPE_NAMESPACE (U_flags 1)) = Some false →
     ∃ e',
       resTree_SetDeleted (Cfg := ex_config)
         (ex_entry [] ADMIN_ENTRY_TYPE_NAMESPACE (U_flags 1)) = Some e'
       ∧ resTree_IsDeleted (Cfg := ex_config) e' = true
       ∧ resTree_IsRelevant (Flg := ex_flags) e'
         = resTree_IsRelevant (Flg := ex_flags)
             (ex_entry [] ADMIN_ENTRY_TYPE_NAMESPACE (U_flags 1))
       ∧ resTree_IsNew (Cfg := ex_config) (Flg := ex_flags) e' = Some false).
Proof.
  split; [by split_and!|].
  by apply (namespace_flags_are_independent (Cfg := ex_config)
              (Flg := ex_flags)
              (ex_entry [] ADMIN_ENTRY_TYPE_NAMESPACE (U_flags 1))).
Defined.

(** ** Walking the children *)

Section WalkFacts.
Context `{Cfg : HubConfig}.

Lemma le_dls_PeekNext_at (links : list string) (i : nat) (link : string) :
  NoDup links → links !! i = Some link →
  le_dls_PeekNext links link = links !! S i.
Proof.
  revert i. induction links as [|l rest IH]; intros i Hdup Hi; [done|].
  apply NoDup_cons in Hdup as [Hl Hdup]. cbn [le_dls_PeekNext].
  destruct i as [|i].
  - injection Hi as ->. rewrite decide_True by done. by destruct rest.
  - cbn [lookup list_lookup] in Hi. rewrite decide_False.
    + by apply IH.
    + intros ->. apply Hl. by eapply list_elem_of_lookup_2.
Qed.

End WalkFacts.

(** X14. In a well-shaped tree the walk [resTree_GetFirstChildEx],
    [resTree_GetNextSiblingEx] that asks for deleted entries too goes through
    the child list of an entry in its order: the first child is the head of
    the list and the sibling after the child at position [i] is the child at
    position [i + 1], or NULL at the end.  The walk that does not ask for
    them gets the same entry when it is not deleted and NULL when it is,
    whatever follows it in the list. *)
Theorem child_walk_follows_the_child_list `{Cfg : HubConfig}
    (pool : gmap EntryRef Entry_t) parent ent i c :
  tree_ok pool →
  pool !! parent = Some ent →
  childList ent !! i = Some c →
  let live (entryRef : EntryRef) :=
    e ← pool !! entryRef;
    if resTree_IsDeleted e then None else Some entryRef in
  resTree_GetFirstChildEx pool parent true
  = (λ d, d :: parent) <$> head (childList ent)
  ∧ resTree_GetNextSiblingEx pool (c :: parent) true
    = (λ d, d :: parent) <$> childList ent !! S i
  ∧ resTree_GetFirstChild pool parent
    = resTree_GetFirstChildEx pool parent true ≫= live
  ∧ resTree_GetNextSibling pool (c :: parent)
    = resTree_GetNextSiblingEx pool (c :: parent) true ≫= live.
Proof.
  intros [_ Hshape] Hparent Hi live.
  destruct (Hshape _ _ Hparent) as (Hdup & Hlinks & _).
  assert (∀ d, d ∈ childList ent → is_Some (pool !! (d :: parent))) as Hkids.
  { intros d Hd. by apply Hlinks. }
  unfold resTree_GetFirstChild, resTree_GetNextSibling,
    resTree_GetFirstChildEx, resTree_GetNextSiblingEx.
  cbn [parentPtr name]. rewrite Hparent.
  rewrite (le_dls_PeekNext_at _ i) by done.
  split_and!.
  - destruct (childList ent) as [|d rest]; [done|]. simpl.
    destruct (Hkids d) as [e ->]; [apply elem_of_cons; by left|done].
  - destruct (childList ent !! S i) as [d|] eqn:Hd; [|done]. simpl.
    destruct (Hkids d) as [e ->]; [by eapply list_elem_of_lookup_2|done].
  - destruct (childList ent) as [|d rest]; [done|]. simpl.
    destruct (Hkids d) as [e He]; [apply elem_of_cons; by left|].
    unfold live. rewrite He. simpl. rewrite He. simpl.
    by destruct (resTree_IsDeleted e).
  - destruct (childList ent !! S i) as [d|] eqn:Hd; [|done]. simpl.
    destruct (Hkids d) as [e He]; [by eapply list_elem_of_lookup_2|].
    unfold live. rewrite He. simpl. rewrite He. simpl.
    by destruct (resTree_IsDeleted e).
Qed.

Lemma child_walk_follows_the_child_list_witness :
  (tree_ok ex_grown
   ∧ ex_grown !! []
     = Some (mkEntry ["a"] ADMIN_ENTRY_TYPE_NAMESPACE (U_flags 1) 2)
   ∧ childList (mkEntry ["a"] ADMIN_ENTRY_TYPE_NAMESPACE (U_flags 1) 2) !! 0
     = Some "a")
  ∧ resTree_GetFirstChildEx (Cfg := ex_config) ex_grown [] true
    = (λ d, d :: []) <$>
        head (childList
                (mkEntry ["a"] ADMIN_ENTRY_TYPE_NAMESPACE (U_flags 1) 2))
  ∧ resTree_GetNextSiblingEx (Cfg := ex_config) ex_grown ["a"] true
    = (λ d, d :: []) <$>
        childList (mkEntry ["a"] ADMIN_ENTRY_TYPE_NAMESPACE (U_flags 1) 2)
          !! 1
  ∧ resTree_GetFirstChild (Cfg := ex_config) ex_grown []
    = resTree_GetFirstChildEx (Cfg := ex_config) ex_grown [] true
      ≫= (λ entryRef,
            e ← ex_grown !! entryRef;
            if resTree_IsDeleted (Cfg := ex_config) e then None
            else Some entryRef)
  ∧ resTree_GetNextSibling (Cfg := ex_config) ex_grown ["a"]
    = resTree_GetNextSiblingEx (Cfg := ex_config) ex_grown ["a"] true
      ≫= (λ entryRef,
            e ← ex_grown !! entryRef;
            if resTree_IsDeleted (Cfg := ex_config) e then None
            else Some entryRef).
Proof.
  split; [split_and!; [apply tree_ok_grown|by vm_compute|done]|].
  apply (child_walk_follows_the_child_list (Cfg := ex_config) ex_grown []
           (mkEntry ["a"] ADMIN_ENTRY_TYPE_NAMESPACE (U_flags 1) 2) 0 "a");
    [apply tree_ok_grown|by vm_compute|done].
Defined.

(** ** Creating and deleting through the I/O service *)

Section OneNameFacts.
Context `{Cfg : HubConfig}.



End OneNameFacts.

Section DeleteUntracked.
Context `{Cfg : HubConfig} `{Res : ResourceModule}.
Arguments le_mem_Release : simpl never.


End DeleteUntracked.




Section RetypeFacts.
Context `{Cfg : HubConfig}.

(** A lookup that arrives still arrives after the kind and the union of an
    entry were replaced, if the entry is not deleted afterwards. *)
Lemma GoToEntry_loop_retyped elements :
  ∀ (pool : gmap EntryRef Entry_t) cur pool' e k entk t v,
    GoToEntry_loop pool cur elements false = Some (pool', Some e) →
    pool !! k = Some entk →
    resTree_IsDeleted (set_type_u entk t v) = false →
    GoToEntry_loop (<[k := set_type_u entk t v]> pool) cur elements false
    = Some (<[k := set_type_u entk t v]> pool, Some e).
Proof.
  induction elements as [|en rest IH];
    intros pool cur pool' e k entk t v Hloop Hk Hlive.
  - simpl in *. by injection Hloop as _ <-.
  - apply GoToEntry_loop_find_inv in Hloop
      as (Hlen & (ent & child & Hcur & Hin & Hchild & Hlive') & Hloop).
    assert (∃ ent', <[k := set_type_u entk t v]> pool !! cur = Some ent'
                    ∧ childList ent' = childList ent) as (ent' & Hcur' & Hl).
    { destruct (decide (cur = k)) as [->|Hne].
      - rewrite lookup_insert_eq. eexists. split; [done|]. simpl. congruence.
      - rewrite lookup_insert_ne by done. eauto. }
    assert (∃ child', <[k := set_type_u entk t v]> pool !! (text_of en :: cur)
                      = Some child'
                      ∧ resTree_IsDeleted child' = false)
      as (child' & Hchild' & Hlive'').
    { destruct (decide (text_of en :: cur = k)) as [<-|Hne].
      - rewrite lookup_insert_eq. eauto.
      - rewrite lookup_insert_ne by done. eauto. }
    erewrite GoToEntry_loop_found; [|done|exact Hcur'|by rewrite Hl|done|done].
    by eapply IH.
Qed.

End RetypeFacts.

(** X16. When [io_CreateInput] answers [LE_OK], an Input with the data type
    and the units asked for is found at the path afterwards, whether it was
    there before or was made by the call, in place of a Namespace or a
    Placeholder or on a new entry.  (The flag of a new entry is not the flag
    of a deleted one, and moving the administrative settings of a Placeholder
    into the new resource leaves its data type and units alone.) *)
Theorem created_input_is_found `{Cfg : HubConfig} `{Res : ResourceModule}
    ns (hub : Hub) path ty unitsStr hub' :
  has_flag RES_FLAG_NEW RES_FLAG_DELETED = false →
  (∀ src dest t,
     dataType (res_MoveAdminSettings src dest t) = dataType dest
     ∧ units (res_MoveAdminSettings src dest t) = units dest) →
  io_CreateInput (Some ns) hub path ty unitsStr = Some (LE_OK, hub') →
  ∃ e ent,
    FindResource (Some ns) hub' path = Some e
    ∧ EntryPool hub' !! e = Some ent
    ∧ type ent = ADMIN_ENTRY_TYPE_INPUT
    ∧ resTree_GetDataType ent = Some ty
    ∧ resTree_GetUnits ent = Some unitsStr.
Proof.
  intros Hflags Hmove.
  assert (resTree_CreateInput hub ns path ty unitsStr = Some (LE_OK, hub') →
          ∃ e ent,
            FindResource (Some ns) hub' path = Some e
            ∧ EntryPool hub' !! e = Some ent
            ∧ type ent = ADMIN_ENTRY_TYPE_INPUT
            ∧ resTree_GetDataType ent = Some ty
            ∧ resTree_GetUnits ent = Some unitsStr) as Hcreate.
  { unfold resTree_CreateInput, resTree_GetInput, GoToEntry.
    destruct (has_illegal_char (chars path)) eqn:Hlegal; [done|].
    destruct (GoToEntry_loop _ _ _ _) as [[pool [e|]]|] eqn:Hloop;
      [|done|done].
    pose proof (GoToEntry_loop_find_after_create _ Hflags _ _ _ _ Hloop)
      as Hfound.
    destruct (pool !! e) as [old|] eqn:Hold; [|done]. simpl.
    assert (∀ r hub1,
              EntryPool hub1
              = ReplaceResource pool e (res_CreateInput ty unitsStr)
                  ADMIN_ENTRY_TYPE_INPUT →
              ReplaceResource pool e (res_CreateInput ty unitsStr)
                ADMIN_ENTRY_TYPE_INPUT
              = <[e := set_type_u old ADMIN_ENTRY_TYPE_INPUT
                         (U_resourcePtr (Some r))]> pool →
              dataType r = ty → units r = unitsStr →
              ∃ e0 ent,
                FindResource (Some ns) hub1 path = Some e0
                ∧ EntryPool hub1 !! e0 = Some ent
                ∧ type ent = ADMIN_ENTRY_TYPE_INPUT
                ∧ resTree_GetDataType ent = Some ty
                ∧ resTree_GetUnits ent = Some unitsStr) as Hdone.
    { intros r hub1 Hpool Hrep Hty Hunits. exists e. eexists.
      unfold FindResource, resTree_FindEntry, GoToEntry. simpl.
      rewrite Hlegal, Hpool, Hrep.
      erewrite GoToEntry_loop_retyped; [|exact Hfound|done|done].
      simpl. rewrite lookup_insert_eq. simpl.
      split; [done|]. split; [done|]. split; [done|].
      unfold resTree_GetDataType, resTree_GetUnits, resTree_IsResource.
      simpl. by rewrite Hty, Hunits. }
    destruct (CallResourceTreeChangeHandlers_calls
                (set_EntryPool hub
                   (ReplaceResource pool e (res_CreateInput ty unitsStr)
                      ADMIN_ENTRY_TYPE_INPUT))
                e ADMIN_ENTRY_TYPE_INPUT ADMIN_RESOURCE_ADDED)
      as (? & ? & _ & Hcall).
    destruct (type old) eqn:Htype; try done.
    - (* a Namespace *)
      rewrite Hcall. intros [= <-].
      eapply (Hdone (res_CreateInput ty unitsStr)); [done| |done|done].
      unfold ReplaceResource. rewrite Hold, Htype.
      by rewrite decide_False by (by intros H).
    - (* a Placeholder *)
      rewrite Hcall. intros [= <-].
      destruct (resourcePtr_of old) as [original|] eqn:Hres.
      + eapply (Hdone (res_MoveAdminSettings original
                         (res_CreateInput ty unitsStr)
                         ADMIN_ENTRY_TYPE_INPUT)); [done|..].
        * unfold ReplaceResource. rewrite Hold, Htype, Hres.
          by rewrite decide_True.
        * by rewrite (proj1 (Hmove _ _ _)).
        * by rewrite (proj2 (Hmove _ _ _)).
      + eapply (Hdone (res_CreateInput ty unitsStr)); [done| |done|done].
        unfold ReplaceResource. rewrite Hold, Htype, Hres.
        by rewrite decide_True. }
  unfold io_CreateInput. simpl.
  destruct (resTree_FindEntry (EntryPool hub) ns path) as [r|] eqn:Hfind;
    [|done].
  destruct (EntryPool hub !! r) as [ent|] eqn:Hent; simpl; [|done].
  unfold resTree_GetEntryType.
  destruct (type ent) eqn:Htype; try done.
  destruct (resTree_GetDataType ent) as [haveType|] eqn:Hty; simpl; [|done].
  destruct (resTree_GetUnits ent) as [haveUnits|] eqn:Hunits; simpl; [|done].
  case_decide as Hdiff; [done|]. intros [= <-].
  exists r, ent. unfold FindResource. simpl. rewrite Hfind. simpl.
  rewrite Hent. simpl. unfold resTree_GetEntryType. rewrite Htype.
  split; [done|]. split; [done|]. split; [done|].
  destruct (decide (haveType = ty)) as [->|Hne];
    [|destruct Hdiff; by left].
  destruct (decide (unitsStr = haveUnits)) as [->|Hne];
    [done|destruct Hdiff; by right].
Qed.

Lemma created_input_is_found_witness :
  (has_flag (RES_FLAG_NEW (HubConfig := ex_config))
     (RES_FLAG_DELETED (HubConfig := ex_config)) = false
   ∧ (∀ src dest t,
        dataType (res_MoveAdminSettings (ResourceModule := ex_resmod)
                    src dest t) = dataType dest
        ∧ units (res_MoveAdminSettings (ResourceModule := ex_resmod)
                   src dest t) = units dest)
   ∧ io_CreateInput (Cfg := ex_config) (Res := ex_resmod) (Some ex_ns) ex_hub
       "ghost" IO_DATA_TYPE_NUMERIC "degC"
     = Some (LE_OK, ex_upgraded))
  ∧ ∃ e ent,
      FindResource (Cfg := ex_config) (Some ex_ns) ex_upgraded "ghost" = Some e
      ∧ EntryPool ex_upgraded !! e = Some ent
      ∧ type ent = ADMIN_ENTRY_TYPE_INPUT
      ∧ resTree_GetDataType ent = Some IO_DATA_TYPE_NUMERIC
      ∧ resTree_GetUnits ent = Some "degC".
Proof.
  split; [split_and!; [by vm_compute|done|by vm_compute]|].
  apply (created_input_is_found (Cfg := ex_config) (Res := ex_resmod) ex_ns
           ex_hub "ghost" IO_DATA_TYPE_NUMERIC "degC" ex_upgraded);
    [by vm_compute|done|by vm_compute].
Defined.



(** ** Push handlers *)

(** X18. [AddPushHandler] keeps [PushHandlerCount] within the limit of the
    build, when there is one: a call that returns NULL leaves the hub as it
    is, a call that returns a handler counts it, and it does so only while
    the count is below the limit. *)
Theorem push_handler_count_stays_within_limit `{Col : Collaborators}
    `{Cfg : HubConfig} nsRef alloc (hub : Hub) path ty hub' r :
  AddPushHandler nsRef alloc hub path ty = Some (hub', r) →
  match r with
  | None => hub' = hub
  | Some _ =>
      PushHandlerCount hub' = S (PushHandlerCount hub)
      ∧ ∀ limit, DHUB_IO_PUSH_HANDLER_COUNT = Some limit →
                 PushHandlerCount hub < limit
  end
  ∧ ∀ limit, DHUB_IO_PUSH_HANDLER_COUNT = Some limit →
             PushHandlerCount hub ≤ limit → PushHandlerCount hub' ≤ limit.
Proof.
  intros Hadd.
  enough (match r with
          | None => hub' = hub
          | Some _ =>
              PushHandlerCount hub' = S (PushHandlerCount hub)
              ∧ ∀ limit, DHUB_IO_PUSH_HANDLER_COUNT = Some limit →
                         PushHandlerCount hub < limit
          end) as Hr.
  { split; [done|]. intros limit Hlimit Hle.
    destruct r as [h|]; [|by subst].
    destruct Hr as [-> Hbelow]. specialize (Hbelow _ Hlimit). lia. }
  revert Hadd. unfold AddPushHandler.
  destruct (match DHUB_IO_PUSH_HANDLER_COUNT with
            | Some limit => bool_decide (limit ≤ PushHandlerCount hub)
            | None => false
            end) eqn:Hfull; [by intros [= <- <-]|].
  destruct nsRef as [ns|]; [|by intros [= <- <-]].
  destruct (resTree_FindEntry _ _ _) as [resRef|]; [|by intros [= <- <-]].
  destruct (EntryPool hub !! resRef) as [ent|]; simpl; [|done].
  destruct (is_io (resTree_GetEntryType ent)); simpl; [|by intros [= <- <-]].
  destruct (resourcePtr_of ent) as [resPtr|]; simpl; [|done].
  unfold handler_Add. destruct alloc; [|by intros [= <- <-]].
  destruct (_ !! resRef) as [ent'|]; simpl; [|done].
  destruct (resTree_GetCurrentValue ent') as [sampleRef|].
  - destruct (resTree_GetDataType ent') as [haveType|]; simpl; [|done].
    intros [= <- <-]. simpl. split; [done|].
    intros limit Hlimit. rewrite Hlimit in Hfull.
    apply bool_decide_eq_false_1 in Hfull. lia.
  - simpl. intros [= <- <-]. simpl. split; [done|].
    intros limit Hlimit. rewrite Hlimit in Hfull.
    apply bool_decide_eq_false_1 in Hfull. lia.
Qed.

Lemma push_handler_count_stays_within_limit_witness :
  AddPushHandler (Col := ex_collab) (Cfg := ex_limited) (Some ex_ns) true
    ex_full_hub "temp" IO_DATA_TYPE_NUMERIC
  = Some (ex_full_hub, None)
  ∧ ex_full_hub = ex_full_hub
  ∧ ∀ limit,
      DHUB_IO_PUSH_HANDLER_COUNT (HubConfig := ex_limited) = Some limit →
      PushHandlerCount ex_full_hub ≤ limit →
      PushHandlerCount ex_full_hub ≤ limit.
Proof.
  split; [by vm_compute|].
  apply (push_handler_count_stays_within_limit (Col := ex_collab)
           (Cfg := ex_limited) (Some ex_ns) true ex_full_hub "temp"
           IO_DATA_TYPE_NUMERIC ex_full_hub None).
  by vm_compute.
Defined.

(** ** Type coercion *)


(** X20. A Boolean keeps its value on the way through a numeric resource and
    back, and loses it on the way through a string resource: coerced to a
    number and then to a Boolean again it is what it was; coerced to a string
    and then to a Boolean it is true, whatever it was. *)
Theorem boolean_coercion_round_trips `{Col : Collaborators}
    now ts (b : bool) boolRes numRes strRes :
  dataType boolRes = IO_DATA_TYPE_BOOLEAN →
  dataType numRes = IO_DATA_TYPE_NUMERIC →
  dataType strRes = IO_DATA_TYPE_STRING →
  (∃ number again,
     ioPoint_DoTypeCoercion now true numRes IO_DATA_TYPE_BOOLEAN
       (mkSample ts (ValBoolean b))
     = (LE_OK, IO_DATA_TYPE_NUMERIC, number)
     ∧ ioPoint_DoTypeCoercion now true boolRes IO_DATA_TYPE_NUMERIC number
       = (LE_OK, IO_DATA_TYPE_BOOLEAN, again)
     ∧ value again = ValBoolean b)
  ∧ (∃ text again,
       ioPoint_DoTypeCoercion now true strRes IO_DATA_TYPE_BOOLEAN
         (mkSample ts (ValBoolean b))
       = (LE_OK, IO_DATA_TYPE_STRING, text)
       ∧ ioPoint_DoTypeCoercion now true boolRes IO_DATA_TYPE_STRING text
         = (LE_OK, IO_DATA_TYPE_BOOLEAN, again)
       ∧ value again = ValBoolean true).
Proof.
  intros Hbool Hnum Hstr. unfold ioPoint_DoTypeCoercion.
  rewrite Hbool, Hnum, Hstr. simpl. split.
  - eexists _, _. split; [reflexivity|]. split; [reflexivity|].
    by destruct b.
  - eexists _, _. split; [reflexivity|]. split; [reflexivity|].
    by destruct b.
Qed.

Lemma boolean_coercion_round_trips_witness :
  (dataType (Create IO_DATA_TYPE_BOOLEAN) = IO_DATA_TYPE_BOOLEAN
   ∧ dataType (Create IO_DATA_TYPE_NUMERIC) = IO_DATA_TYPE_NUMERIC
   ∧ dataType (Create IO_DATA_TYPE_STRING) = IO_DATA_TYPE_STRING)
  ∧ (∃ number again,
       ioPoint_DoTypeCoercion (Col := ex_collab) 9 true
         (Create IO_DATA_TYPE_NUMERIC) IO_DATA_TYPE_BOOLEAN
         (mkSample 7 (ValBoolean false))
       = (LE_OK, IO_DATA_TYPE_NUMERIC, number)
       ∧ ioPoint_DoTypeCoercion (Col := ex_collab) 9 true
           (Create IO_DATA_TYPE_BOOLEAN) IO_DATA_TYPE_NUMERIC number
         = (LE_OK, IO_DATA_TYPE_BOOLEAN, again)
       ∧ value again = ValBoolean false)
  ∧ (∃ text again,
       ioPoint_DoTypeCoercion (Col := ex_collab) 9 true
         (Create IO_DATA_TYPE_STRING) IO_DATA_TYPE_BOOLEAN
         (mkSample 7 (ValBoolean false))
       = (LE_OK, IO_DATA_TYPE_STRING, text)
       ∧ ioPoint_DoTypeCoercion (Col := ex_collab) 9 true
           (Create IO_DATA_TYPE_BOOLEAN) IO_DATA_TYPE_STRING text
         = (LE_OK, IO_DATA_TYPE_BOOLEAN, again)
       ∧ value again = ValBoolean true).
Proof.
  split; [by split_and!|].
  by apply (boolean_coercion_round_trips (Col := ex_collab) 9 7 false
              (Create IO_DATA_TYPE_BOOLEAN) (Create IO_DATA_TYPE_NUMERIC)
              (Create IO_DATA_TYPE_STRING)).
Defined.

(** ** Visiting every resource *)

Section TraversalFacts.

(** The allocated entries are at a bounded depth. *)
Lemma depth_bound (pool : gmap EntryRef Entry_t) :
  ∃ N, ∀ k, is_Some (pool !! k) → length k ≤ N.
Proof.
  induction pool as [|k ent pool Hfresh _ [N HN]] using map_first_key_ind.
  - exists 0. intros k [? Hk]. by rewrite lookup_empty in Hk.
  - exists (N `max` length k). intros j Hj.
    destruct (decide (j = k)) as [->|Hne]; [lia|].
    rewrite lookup_insert_ne in Hj by done. specialize (HN _ Hj). lia.
Qed.

(** In a well-shaped tree the ancestors of an allocated entry are
    allocated. *)
Lemma tree_ok_ancestors (pool : gmap EntryRef Entry_t) l e :
  tree_ok pool → is_Some (pool !! (l ++ e)) → is_Some (pool !! e).
Proof.
  intros [Hclosed _]. induction l as [|c l IH]; [done|].
  intros Hsome. apply IH. by eapply Hclosed.
Qed.

Lemma below_child (pool : gmap EntryRef Entry_t) l e ent :
  tree_ok pool → pool !! e = Some ent → l ≠ [] →
  is_Some (pool !! (l ++ e)) →
  ∃ c, c ∈ childList ent ∧ c :: e `suffix_of` l ++ e.
Proof.
  intros Hok Hent Hl Hsome.
  destruct (exists_last Hl) as (front & c & ->).
  exists c. rewrite <- app_assoc in *. cbn [app] in *. split.
  - destruct Hok as [Hclosed Hshape].
    destruct (Hshape _ _ Hent) as (_ & Hlinks & _). apply Hlinks.
    by eapply (tree_ok_ancestors pool front); [split|].
  - by exists front.
Qed.

Lemma suffix_child_unique (c c' : string) (e k : EntryRef) :
  c :: e `suffix_of` k → c' :: e `suffix_of` k → c = c'.
Proof.
  intros [l ->] [l' Heq].
  assert (length l = length l') as Hlen.
  { apply (f_equal length) in Heq. rewrite !length_app in Heq. simpl in Heq.
    lia. }
  apply app_inj_1 in Heq as [_ Heq]; [|done]. by injection Heq.
Qed.

Lemma parents_first_app (A B : list (EntryRef * admin_EntryType_t)) :
  parents_first A → parents_first B →
  (∀ a b, a ∈ A → b ∈ B → ¬ b.1 `suffix_of` a.1) →
  parents_first (A ++ B).
Proof.
  intros HA HB Hcross i j k t k' t' Hi Hj Hs.
  destruct (decide (i < length A)) as [Hia|Hia];
    destruct (decide (j < length A)) as [Hja|Hja]; [|lia| |].
  - rewrite lookup_app_l in Hi, Hj by done. by eapply HA.
  - rewrite lookup_app_r in Hi by lia. rewrite lookup_app_l in Hj by done.
    destruct (Hcross (k', t') (k, t)); [..|done].
    + by eapply list_elem_of_lookup_2.
    + by eapply list_elem_of_lookup_2.
  - rewrite lookup_app_r in Hi, Hj by lia.
    pose proof (HB _ _ _ _ _ _ Hi Hj Hs). lia.
Qed.

Lemma ForEachResourceUnder_visits (pool : gmap EntryRef Entry_t) N :
  tree_ok pool →
  (∀ k, is_Some (pool !! k) → length k ≤ N) →
  ∀ fuel e ent,
    pool !! e = Some ent → N < fuel + length e →
    ∃ calls,
      ForEachResourceUnder fuel pool e = Some calls
      ∧ NoDup calls
      ∧ parents_first calls
      ∧ ∀ k t, (k, t) ∈ calls
               ↔ (∃ l, l ≠ [] ∧ k = l ++ e) ∧ resource_entry pool k t.
Proof.
  intros Hok HN. induction fuel as [|fuel IH]; intros e ent Hent Hfuel.
  { assert (length e ≤ N) by (apply HN; by eexists). lia. }
  cbn [ForEachResourceUnder]. rewrite Hent. cbn [mbind option_bind].
  destruct Hok as [Hclosed Hshape].
  destruct (Hshape _ _ Hent) as (Hdup & Hlinks & _).
  assert (∀ links,
            NoDup links → (∀ c, c ∈ links → c ∈ childList ent) →
            ∃ calls,
              foldr
                (λ link later,
                   child ← pool !! (link :: e);
                   below ← ForEachResourceUnder fuel pool (link :: e);
                   rest ← later;
                   Some ((if decide (type child ≠ ADMIN_ENTRY_TYPE_NAMESPACE
                                     ∧ resourcePtr_of child ≠ None)
                          then [(link :: e, type child)] else [])
                         ++ below ++ rest))
                (Some []) links
              = Some calls
              ∧ NoDup calls
              ∧ parents_first calls
              ∧ ∀ k t, (k, t) ∈ calls
                       ↔ (∃ c, c ∈ links ∧ c :: e `suffix_of` k)
                         ∧ resource_entry pool k t) as Hloop.
  { induction links as [|c links IHl]; intros Hnd Hsub.
    - exists []. split; [done|]. split; [apply NoDup_nil_2|].
      split; [by intros i j k t k' t' Hi|].
      intros k t. split; [intros H; by apply elem_of_nil in H|].
      intros [(c & Hc & _) _]. by apply elem_of_nil in Hc.
    - apply NoDup_cons in Hnd as [Hc Hnd].
      destruct IHl as (rest & Hrest & Hnd_rest & Hord_rest & Hin_rest);
        [done|intros c' Hc'; apply Hsub, elem_of_cons; by right|].
      assert (is_Some (pool !! (c :: e))) as [child Hchild].
      { apply Hlinks, Hsub, elem_of_cons. by left. }
      destruct (IH (c :: e) child Hchild)
        as (below & Hbelow & Hnd_b & Hord_b & Hin_b).
      { simpl. lia. }
      cbn [foldr]. rewrite Hchild, Hbelow, Hrest. cbn [mbind option_bind].
      eexists. split; [reflexivity|].
      set (call := if decide (type child ≠ ADMIN_ENTRY_TYPE_NAMESPACE
                              ∧ resourcePtr_of child ≠ None)
                   then [(c :: e, type child)] else []).
      assert (∀ k t, (k, t) ∈ call
                     ↔ k = c :: e ∧ resource_entry pool k t) as Hin_c.
      { intros k t. unfold call. case_decide as Hres.
        - rewrite elem_of_cons. split.
          + intros [[= -> ->]|Hnil]; [|by apply elem_of_nil in Hnil].
            split; [done|]. exists child. by destruct Hres.
          + intros [-> (ent' & Hent' & <- & _)]. left.
            rewrite Hchild in Hent'. by injection Hent' as <-.
        - split; [intros H; by apply elem_of_nil in H|].
          intros [-> (ent' & Hent' & <- & Hty & Hr)]. destruct Hres.
          rewrite Hchild in Hent'. by injection Hent' as <-. }
      split; [|split].
      + apply NoDup_app. split_and!.
        * unfold call. case_decide; [apply NoDup_singleton|apply NoDup_nil_2].
        * intros [k t] Hk Hk'. apply Hin_c in Hk as [-> _].
          apply elem_of_app in Hk' as [Hk'|Hk'].
          -- apply Hin_b in Hk' as [(l & Hl & Heq) _].
             apply (f_equal length) in Heq. rewrite length_app in Heq.
             destruct l; [done|]. simpl in Heq. lia.
          -- apply Hin_rest in Hk' as [(c' & Hc' & Hs) _].
             assert (c = c') as <-.
             { apply (suffix_child_unique c c' e (c :: e)); [done|done]. }
             done.
        * apply NoDup_app. split_and!; [done| |done].
          intros [k t] Hk Hk'. apply Hin_b in Hk as [(l & Hl & ->) _].
          apply Hin_rest in Hk' as [(c' & Hc' & Hs) _].
          assert (c = c') as <-.
          { apply (suffix_child_unique c c' e (l ++ c :: e)); [|done].
            by exists l. }
          done.
      + apply parents_first_app; [|apply parents_first_app; [done|done|]|].
        * intros i j k t k' t' Hi Hj _. unfold call in Hi, Hj.
          case_decide; [|done].
          destruct i, j; try done; lia.
        * intros [k' t'] [k t] Hk' Hk. simpl.
          apply Hin_b in Hk' as [(l & Hl & ->) _].
          apply Hin_rest in Hk as [(c' & Hc' & Hs) _]. intros Hs'.
          assert (c = c') as <-; [|done].
          apply (suffix_child_unique c c' e (l ++ c :: e)); [by exists l|].
          by etrans.
        * intros [k' t'] [k t] Hk' Hk. simpl.
          apply Hin_c in Hk' as [-> _]. intros Hs.
          apply elem_of_app in Hk as [Hk|Hk].
          -- apply Hin_b in Hk as [(l & Hl & ->) _].
             apply suffix_length in Hs. rewrite length_app in Hs.
             destruct l; [done|]. simpl in Hs. lia.
          -- apply Hin_rest in Hk as [(c' & Hc' & Hs') _].
             assert (c = c') as <-; [|done].
             apply (suffix_child_unique c c' e (c :: e)); [done|].
             by etrans.
      + intros k t. rewrite !elem_of_app, Hin_c, Hin_b, Hin_rest. split.
        * intros [[-> Hres]|[[(l & Hl & ->) Hres]|[(c' & Hc' & Hs) Hres]]].
          -- split; [|done]. exists c. split; [apply elem_of_cons; by left|done].
          -- split; [|done]. exists c.
             split; [apply elem_of_cons; by left|by exists l].
          -- split; [|done]. exists c'.
             split; [apply elem_of_cons; by right|done].
        * intros [(c' & Hc' & [l ->]) Hres].
          apply elem_of_cons in Hc' as [->|Hc'].
          -- destruct l as [|x l]; [left; by split|].
             right. left. split; [|done]. by exists (x :: l).
          -- right. right. split; [|done]. exists c'. split; [done|].
             by exists l. }
  destruct (Hloop (childList ent) Hdup) as (calls & Hcalls & Hnd & Hord & Hin);
    [done|].
  exists calls. split; [exact Hcalls|]. split; [done|]. split; [done|].
  intros k t. rewrite Hin. split.
  - intros [(c & Hc & [l ->]) Hres]. split; [|done].
    exists (l ++ [c]). split; [by destruct l|]. by rewrite <- app_assoc.
  - intros [(l & Hl & ->) Hres]. split; [|done].
    destruct Hres as (ent' & Hent' & _).
    eapply below_child; [by split|done|done|by eexists].
Qed.

End TraversalFacts.

Section TraversalMore.

Lemma ForEachResourceUnder_S (fuel : nat) (pool : gmap EntryRef Entry_t)
    (e : EntryRef) :
  ForEachResourceUnder (S fuel) pool e
  = ent ← pool !! e;
    foldr
      (λ link later,
         child ← pool !! (link :: e);
         below ← ForEachResourceUnder fuel pool (link :: e);
         rest ← later;
         Some ((if decide (type child ≠ ADMIN_ENTRY_TYPE_NAMESPACE
                           ∧ resourcePtr_of child ≠ None)
                then [(link :: e, type child)] else [])
               ++ below ++ rest))
      (Some []) (childList ent).
Proof. done. Qed.

Lemma ForEachResourceUnder_more fuel :
  ∀ (pool : gmap EntryRef Entry_t) e calls,
    ForEachResourceUnder fuel pool e = Some calls →
    ForEachResourceUnder (S fuel) pool e = Some calls.
Proof.
  induction fuel as [|fuel IH]; intros pool e calls; [done|].
  rewrite (ForEachResourceUnder_S (S fuel)), (ForEachResourceUnder_S fuel).
  destruct (pool !! e) as [ent|]; [|done]. cbn [mbind option_bind].
  revert calls.
  induction (childList ent) as [|c links IHl]; intros calls; [done|].
  cbn [foldr]. destruct (pool !! (c :: e)) as [child|]; [|done].
  cbn [mbind option_bind].
  destruct (ForEachResourceUnder fuel pool (c :: e)) as [below|] eqn:Hbelow;
    [|done].
  rewrite (IH _ _ _ Hbelow). cbn [mbind option_bind].
  destruct (foldr _ _ links) as [rest|] eqn:Hrest; [|done].
  by rewrite (IHl _ eq_refl).
Qed.

Lemma ForEachResourceUnder_enough (pool : gmap EntryRef Entry_t)
    (fuel more : nat) e calls :
  ForEachResourceUnder fuel pool e = Some calls → fuel ≤ more →
  ForEachResourceUnder more pool e = Some calls.
Proof.
  intros Hcalls Hle. induction Hle as [|more Hle IH]; [done|].
  by apply ForEachResourceUnder_more.
Qed.

End TraversalMore.

Section TraversalExamples.
#[local] Existing Instances ex_collab ex_config ex_resmod.

Lemma tree_ok_room : tree_ok ex_room.
Proof.
  assert (GoToEntry resTree_Init [] "room/temp" true
          = Some (<[["temp"; "room"] :=
                      mkEntry [] ADMIN_ENTRY_TYPE_NAMESPACE (U_flags 1) 1]>
                    ex_room,
                  Some ["temp"; "room"])) as Hgo.
  { vm_cast_no_check (eq_refl (GoToEntry resTree_Init [] "room/temp" true)). }
  assert (ex_room
          = ReplaceResource
              (<[["temp"; "room"] :=
                   mkEntry [] ADMIN_ENTRY_TYPE_NAMESPACE (U_flags 1) 1]>
                 ex_room)
              ["temp"; "room"] (res_CreateInput IO_DATA_TYPE_NUMERIC "degC")
              ADMIN_ENTRY_TYPE_INPUT) as ->.
  { vm_cast_no_check (eq_refl ex_room). }
  apply ReplaceResource_tree_ok.
  eapply GoToEntry_tree_ok; [apply tree_ok_Init|exact Hgo].
Qed.

End TraversalExamples.

(** X21. [resTree_ForEachResource] on a well-shaped tree returns (with fuel
    enough for the depth of the tree, and with any more) after calling the
    function once for every entry other than the Root that holds a resource,
    with the type of the entry, and for nothing else; an entry comes before
    the entries below it. *)
Theorem every_resource_is_visited_once
    (pool : gmap EntryRef Entry_t) (root : Entry_t) :
  tree_ok pool →
  pool !! RootPtr = Some root →
  ∃ fuel calls,
    (∀ more, fuel ≤ more → resTree_ForEachResource more pool = Some calls)
    ∧ NoDup calls
    ∧ parents_first calls
    ∧ ∀ k t, (k, t) ∈ calls ↔ k ≠ RootPtr ∧ resource_entry pool k t.
Proof.
  intros Hok Hroot. destruct (depth_bound pool) as [N HN].
  destruct (ForEachResourceUnder_visits pool N Hok HN (S N) [] root Hroot)
    as (calls & Hcalls & Hnd & Hord & Hin); [simpl; lia|].
  exists (S N), calls. split_and!; [|done|done|].
  - intros more Hmore. by eapply ForEachResourceUnder_enough.
  - intros k t. rewrite Hin. unfold RootPtr. split.
    + intros [(l & Hl & ->) Hres]. split; [|done]. rewrite app_nil_r. done.
    + intros [Hk Hres]. split; [|done]. exists k. by rewrite app_nil_r.
Qed.

Lemma every_resource_is_visited_once_witness :
  (tree_ok ex_room
   ∧ ex_room !! RootPtr
     = Some (mkEntry ["room"] ADMIN_ENTRY_TYPE_NAMESPACE (U_flags 1) 2))
  ∧ ∃ fuel calls,
      (∀ more, fuel ≤ more → resTree_ForEachResource more ex_room = Some calls)
      ∧ NoDup calls
      ∧ parents_first calls
      ∧ ∀ k t, (k, t) ∈ calls ↔ k ≠ RootPtr ∧ resource_entry ex_room k t.
Proof.
  split; [split; [apply tree_ok_room|by vm_compute]|].
  apply (every_resource_is_visited_once ex_room
           (mkEntry ["room"] ADMIN_ENTRY_TYPE_NAMESPACE (U_flags 1) 2));
    [apply tree_ok_room|by vm_compute].
Defined.

(** ** Deleting keeps the shape *)

(** X22. [io_DeleteResource] keeps the shape of the tree, whatever it
    answers, when the entry it deletes holds a reference of its own (more
    references than children) or deletions are tracked, in which case the
    tombstone gets one. *)
Theorem deleting_io_keeps_the_tree_shape `{Cfg : HubConfig}
    `{Res : ResourceModule} nsRef (hub : Hub) path ret hub' :
  tree_ok (EntryPool hub) →
  (TrackDeletions hub = true
   ∨ ∀ e ent, FindResource nsRef hub path = Some e →
              EntryPool hub !! e = Some ent →
              length (childList ent) < refCount ent) →
  io_DeleteResource nsRef hub path = Some (ret, hub') →
  tree_ok (EntryPool hub').
Proof.
  intros Hok Hheld. unfold io_DeleteResource.
  destruct (FindResource nsRef hub path) as [e|] eqn:Hfind;
    [|by intros [= _ <-]].
  unfold resTree_DeleteIO.
  destruct (EntryPool hub !! e) as [ent|] eqn:Hent; simpl; [|done].
  destruct (resourcePtr_of ent) as [ioPtr|]; simpl; [|done].
  destruct (CallResourceTreeChangeHandlers_calls hub e (type ent)
              ADMIN_RESOURCE_REMOVED) as (? & ? & _ & ->). simpl.
  destruct (res_HasAdminSettings ioPtr).
  { simpl. intros [= _ <-]. simpl. by apply ReplaceResource_tree_ok. }
  set (detached := set_type_u ent ADMIN_ENTRY_TYPE_NAMESPACE (U_flags 0)).
  assert (tree_ok (<[e := detached]> (EntryPool hub))) as Hok1
    by (by apply tree_ok_set_type_u).
  destruct (proj2 Hok _ _ Hent) as (_ & _ & Hrefs & Hpos).
  unfold snapshot_RecordNodeDeletion. simpl.
  destruct (TrackDeletions hub) eqn:Htrack; simpl.
  - rewrite lookup_insert_eq. simpl. rewrite insert_insert_eq.
    set (marked := set_type_u detached ADMIN_ENTRY_TYPE_NAMESPACE
                     (U_flags (N.lor (flags_of detached) RES_FLAG_DELETED))).
    destruct (le_mem_Release _ e) as [pool2|] eqn:Hrel; simpl; [|done].
    intros [= _ <-]. simpl.
    assert (tree_ok (<[e := set_refCount marked (S (refCount ent))]>
                       (<[e := marked]> (<[e := detached]> (EntryPool hub)))))
      as Hok2.
    { apply tree_ok_set_refCount; [|apply lookup_insert_eq|simpl; lia|lia].
      apply tree_ok_set_type_u; [done|apply lookup_insert_eq]. }
    rewrite !insert_insert_eq in Hok2.
    eapply (le_mem_Release_tree_ok e);
      [exact Hok2|apply lookup_insert_eq| |exact Hrel].
    simpl. lia.
  - destruct (le_mem_Release _ e) as [pool2|] eqn:Hrel; simpl; [|done].
    intros [= _ <-]. simpl.
    destruct Hheld as [?|Hheld]; [done|].
    eapply (le_mem_Release_tree_ok e); [exact Hok1|apply lookup_insert_eq|
                                        |exact Hrel].
    simpl. by eapply Hheld.
Qed.

Lemma deleting_io_keeps_the_tree_shape_witness :
  (tree_ok (EntryPool (mkHub ex_room [] 0 0 true false))
   ∧ TrackDeletions (mkHub ex_room [] 0 0 true false) = true)
  ∧ ∃ hub',
      io_DeleteResource (Cfg := ex_config) (Res := ex_resmod) (Some [])
        (mkHub ex_room [] 0 0 true false) "room/temp"
      = Some (LE_OK, hub')
      ∧ tree_ok (EntryPool hub').
Proof.
  split; [split; [apply tree_ok_room|done]|].
  destruct (io_DeleteResource (Cfg := ex_config) (Res := ex_resmod) (Some [])
              (mkHub ex_room [] 0 0 true false) "room/temp")
    as [[ret hub']|] eqn:Hdel; [|by vm_compute in Hdel].
  assert (ret = LE_OK) as ->.
  { assert (fst <$> io_DeleteResource (Cfg := ex_config) (Res := ex_resmod)
                      (Some []) (mkHub ex_room [] 0 0 true false) "room/temp"
            = Some LE_OK) as Hret by (by vm_compute).
    rewrite Hdel in Hret. by injection Hret. }
  exists hub'. split; [done|].
  apply (deleting_io_keeps_the_tree_shape (Cfg := ex_config)
           (Res := ex_resmod) (Some []) (mkHub ex_room [] 0 0 true false)
           "room/temp" LE_OK hub');
    [apply tree_ok_room|by left|exact Hdel].
Defined.

(** ** Deleting returns *)

Section ReleaseReturns.
Context `{Cfg : HubConfig}.

(** In a well-shaped tree whose Root holds a reference of its own, the
    release of an entry that holds one of its own returns: a chain of
    destructors stops at an ancestor that has another child or a reference
    of its own, at the Root at the latest. *)
Lemma le_mem_Release_returns (e : EntryRef) :
  ∀ (pool : gmap EntryRef Entry_t) ent,
    tree_ok pool →
    (∀ root, pool !! RootPtr = Some root →
             length (childList root) < refCount root) →
    pool !! e = Some ent →
    length (childList ent) < refCount ent →
    (e = RootPtr → 1 < refCount ent) →
    is_Some (le_mem_Release pool e).
Proof.
  induction e as [|link parent IH]; intros pool ent Hok Hroot Hent Hheld Hr.
  - simpl. rewrite Hent. specialize (Hr eq_refl).
    destruct (refCount ent) as [|[|n]]; [lia|lia|by eexists].
  - cbn [le_mem_Release]. rewrite Hent.
    destruct (refCount ent) as [|[|n]] eqn:Hrc; [lia| |by eexists].
    destruct (childList ent) eqn:Hleaf; [|simpl in Hheld; lia].
    assert (is_Some (pool !! parent)) as [parentEnt Hparent].
    { apply (proj1 Hok link). by eexists. }
    rewrite Hparent.
    destruct (tree_ok_unlink _ _ _ _ _ Hok Hent Hleaf Hparent)
      as [Hok' Hheld'].
    assert (link :: parent ≠ parent) as Hne.
    { intros Heq. apply (f_equal length) in Heq. simpl in Heq. lia. }
    assert (¬ link :: parent `suffix_of` parent) as Hsuf.
    { intros Hs. apply suffix_length in Hs. simpl in Hs. lia. }
    set (unlinked := set_childList parentEnt
                       (filter (λ l, l ≠ link) (childList parentEnt))) in *.
    assert (link ∈ childList parentEnt) as Hin.
    { apply (proj2 Hok _ _ Hparent). by eexists. }
    assert (is_Some (le_mem_Release
                       (delete (link :: parent) (<[parent := unlinked]> pool))
                       parent)) as Hsome.
    { apply (IH _ unlinked); [done| | |done|].
      - intros root. rewrite lookup_delete_ne by done.
        destruct (decide (parent = RootPtr)) as [->|Hp].
        + rewrite lookup_insert_eq. by intros [= <-].
        + rewrite lookup_insert_ne by done. apply Hroot.
      - by rewrite lookup_delete_ne, lookup_insert_eq.
      - intros ->. specialize (Hroot _ Hparent). simpl.
        destruct (childList parentEnt); [by apply elem_of_nil in Hin|].
        simpl in Hroot. lia. }
    rewrite le_mem_Release_delete in Hsome by done.
    destruct (le_mem_Release (<[parent := unlinked]> pool) parent);
      [by eexists|by destruct Hsome].
Qed.

End ReleaseReturns.

(** X23. In a well-shaped tree whose Root holds a reference of its own,
    [io_DeleteResource] of an Input or Output that holds a reference of its
    own (more references than children) returns [LE_OK]: no assertion fails
    on the way, whether deletions are tracked or not, however far the chain
    of destructors goes up the tree. *)
Theorem deleting_a_held_entry_returns `{Cfg : HubConfig}
    `{Res : ResourceModule} nsRef (hub : Hub) path e ent :
  tree_ok (EntryPool hub) →
  (∀ root, EntryPool hub !! RootPtr = Some root →
           length (childList root) < refCount root) →
  FindResource nsRef hub path = Some e →
  e ≠ RootPtr →
  EntryPool hub !! e = Some ent →
  resourcePtr_of ent ≠ None →
  length (childList ent) < refCount ent →
  ∃ hub', io_DeleteResource nsRef hub path = Some (LE_OK, hub').
Proof.
  intros Hok Hroot Hfind Hne Hent Hres Hheld.
  unfold io_DeleteResource. rewrite Hfind.
  enough (∃ hub', resTree_DeleteIO hub e = Some hub') as [hub' ->]
    by (by eexists).
  unfold resTree_DeleteIO. rewrite Hent. simpl.
  destruct (resourcePtr_of ent) as [ioPtr|]; [simpl|done].
  destruct (CallResourceTreeChangeHandlers_calls hub e (type ent)
              ADMIN_RESOURCE_REMOVED) as (? & ? & _ & ->). simpl.
  destruct (res_HasAdminSettings ioPtr); [by eexists|].
  set (detached := set_type_u ent ADMIN_ENTRY_TYPE_NAMESPACE (U_flags 0)).
  assert (tree_ok (<[e := detached]> (EntryPool hub))) as Hok1
    by (by apply tree_ok_set_type_u).
  assert (∀ root, <[e := detached]> (EntryPool hub) !! RootPtr = Some root →
                  length (childList root) < refCount root) as Hroot1.
  { intros root. rewrite lookup_insert_ne by done. apply Hroot. }
  unfold snapshot_RecordNodeDeletion. simpl.
  destruct (TrackDeletions hub); simpl.
  - rewrite lookup_insert_eq. simpl. rewrite insert_insert_eq.
    erewrite (le_mem_Release_shared _ e _ (pred (refCount ent)));
      [by eexists|apply lookup_insert_eq|simpl; lia].
  - destruct (le_mem_Release_returns e _ detached Hok1 Hroot1)
      as [pool2 ->]; [apply lookup_insert_eq|done|done|].
    by eexists.
Qed.

Section ReleaseExamples.
#[local] Existing Instances ex_collab ex_config ex_resmod.

Lemma deleting_a_held_entry_returns_witness :
  (tree_ok (EntryPool (mkHub ex_room [] 0 0 false false))
   ∧ (∀ root, ex_room !! RootPtr = Some root →
              length (childList root) < refCount root)
   ∧ FindResource (Some []) (mkHub ex_room [] 0 0 false false) "room/temp"
     = Some ["temp"; "room"]
   ∧ ex_room !! ["temp"; "room"]
     = Some (mkEntry [] ADMIN_ENTRY_TYPE_INPUT
               (U_resourcePtr
                  (Some (res_CreateInput IO_DATA_TYPE_NUMERIC "degC"))) 1))
  ∧ ∃ hub',
      io_DeleteResource (Some []) (mkHub ex_room [] 0 0 false false)
        "room/temp"
      = Some (LE_OK, hub').
Proof.
  assert (∀ root, ex_room !! RootPtr = Some root →
                  length (childList root) < refCount root) as Hroot.
  { intros root. assert (ex_room !! RootPtr
                         = Some (mkEntry ["room"] ADMIN_ENTRY_TYPE_NAMESPACE
                                   (U_flags 1) 2)) as -> by (by vm_compute).
    intros [= <-]. simpl. lia. }
  split; [split_and!; [apply tree_ok_room|exact Hroot|by vm_compute
                      |by vm_compute]|].
  apply (deleting_a_held_entry_returns (Some [])
           (mkHub ex_room [] 0 0 false false) "room/temp" ["temp"; "room"]
           (mkEntry [] ADMIN_ENTRY_TYPE_INPUT
              (U_resourcePtr
                 (Some (res_CreateInput IO_DATA_TYPE_NUMERIC "degC"))) 1));
    [apply tree_ok_room|exact Hroot|by vm_compute|done|by vm_compute|done
    |simpl; lia].
Defined.

End ReleaseExamples.
